(** * DeFi wallet credit scoring: feature extraction and score pipeline

    A shallow embedding of [feature_engineering.py] and [credit_scorer.py],
    with the gas estimate of [aave_data_loader.py] and the analyses of the
    scores of [analysis_generator.py].

    Numbers.  The program computes on IEEE doubles (Python [float],
    [numpy.float64]).  They are modelled by [fl]: an exact rational, one of
    the two infinities, or NaN.  Rounding and the sign of zero are not
    modelled; comparisons, [min]/[max], division by zero and the propagation
    of NaN are, since the claims about the program depend on them.

    Tables.  A table of transactions is the list of its rows.  A row whose
    record had no timestamp, or the timestamp 0, has none in the table
    either: [pandas.to_datetime] makes it NaT, and the operations on dates
    treat it as pandas does.  The DataFrame without any column, which the
    loader returns for a file without transactions or on a failure, is kept
    apart from a table that has the columns and no row.

    Library code.  [numpy.sqrt], [numpy.percentile] and the scikit-learn
    estimators ([RobustScaler], [IsolationForest], [KMeans]) are not part of
    the repository; the functions that call them take them as parameters.
    The pandas operations the program uses ([sum], [mean], [std], [groupby],
    [cut], ...) are written out. *)

From Stdlib Require Import ZArith QArith Qminmax Qabs Qround String List Bool Lia Lqa.
From Stdlib Require Import Permutation Sorted DecimalString Ascii.
Import ListNotations.
Open Scope string_scope.
Open Scope list_scope.
Open Scope Q_scope.

(* ================================================================= *)
(** ** Floating-point values *)

Inductive fl : Type :=
| NaN
| NInf
| Fin (q : Q)
| PInf.

Definition Qltb (p q : Q) : bool := negb (Qle_bool q p).

Definition is_nan (a : fl) : bool :=
  match a with NaN => true | _ => false end.

Definition is_finite (a : fl) : bool :=
  match a with Fin _ => true | _ => false end.

(** [a < b]; false as soon as one side is NaN. *)
Definition fl_ltb (a b : fl) : bool :=
  match a, b with
  | NaN, _ | _, NaN => false
  | NInf, NInf => false
  | NInf, _ => true
  | Fin p, Fin q => Qltb p q
  | Fin _, PInf => true
  | Fin _, NInf => false
  | PInf, _ => false
  end.

(** [a <= b]; false as soon as one side is NaN. *)
Definition fl_leb (a b : fl) : bool :=
  match a, b with
  | NaN, _ | _, NaN => false
  | NInf, _ => true
  | Fin p, Fin q => Qle_bool p q
  | Fin _, PInf => true
  | Fin _, NInf => false
  | PInf, PInf => true
  | PInf, _ => false
  end.

Definition fl_gtb (a b : fl) : bool := fl_ltb b a.
Definition fl_geb (a b : fl) : bool := fl_leb b a.

(** [a == b] on doubles: NaN differs from everything, itself included. *)
Definition fl_eqb (a b : fl) : bool :=
  match a, b with
  | NInf, NInf | PInf, PInf => true
  | Fin p, Fin q => Qeq_bool p q
  | _, _ => false
  end.

(** The same value: equal rationals, the same infinity, or NaN twice. *)
Definition feq (a b : fl) : Prop :=
  match a, b with
  | NaN, NaN | NInf, NInf | PInf, PInf => True
  | Fin p, Fin q => p == q
  | _, _ => False
  end.

Definition fl_opp (a : fl) : fl :=
  match a with
  | NaN => NaN
  | NInf => PInf
  | Fin q => Fin (- q)
  | PInf => NInf
  end.

Definition fl_add (a b : fl) : fl :=
  match a, b with
  | NaN, _ | _, NaN => NaN
  | Fin p, Fin q => Fin (p + q)
  | PInf, NInf | NInf, PInf => NaN
  | PInf, _ | _, PInf => PInf
  | NInf, _ | _, NInf => NInf
  end.

Definition fl_sub (a b : fl) : fl := fl_add a (fl_opp b).

(** An infinity (positive when [pos]) times the finite [p]. *)
Definition inf_times (pos : bool) (p : Q) : fl :=
  if Qeq_bool p 0 then NaN
  else if Bool.eqb pos (Qltb 0 p) then PInf else NInf.

Definition fl_mul (a b : fl) : fl :=
  match a, b with
  | NaN, _ | _, NaN => NaN
  | Fin p, Fin q => Fin (p * q)
  | Fin p, PInf | PInf, Fin p => inf_times true p
  | Fin p, NInf | NInf, Fin p => inf_times false p
  | PInf, PInf | NInf, NInf => PInf
  | PInf, NInf | NInf, PInf => NInf
  end.

(** Division of doubles as numpy does it: a zero divisor gives an infinity,
    or NaN for [0/0], and no exception. *)
Definition fl_div (a b : fl) : fl :=
  match a, b with
  | NaN, _ | _, NaN => NaN
  | Fin p, Fin q =>
      if Qeq_bool q 0 then
        if Qeq_bool p 0 then NaN else if Qltb 0 p then PInf else NInf
      else Fin (p / q)
  | Fin _, (PInf | NInf) => Fin 0
  | PInf, Fin q => if Qltb q 0 then NInf else PInf
  | NInf, Fin q => if Qltb q 0 then PInf else NInf
  | (PInf | NInf), (PInf | NInf) => NaN
  end.

(** Python's builtin [min(a, b)]: the first argument unless the second is
    strictly smaller. *)
Definition py_min (a b : fl) : fl := if fl_ltb b a then b else a.

(** Python's builtin [max(a, b)]: the first argument unless the second is
    strictly greater. *)
Definition py_max (a b : fl) : fl := if fl_gtb b a then b else a.

(** [numpy.minimum], [numpy.maximum]: NaN if either argument is. *)
Definition np_minimum (a b : fl) : fl :=
  if is_nan a || is_nan b then NaN else if fl_ltb b a then b else a.

Definition np_maximum (a b : fl) : fl :=
  if is_nan a || is_nan b then NaN else if fl_ltb a b then b else a.

(** [numpy.clip(x, lo, hi)] is [minimum(maximum(x, lo), hi)]. *)
Definition np_clip (x lo hi : fl) : fl := np_minimum (np_maximum x lo) hi.

(* ================================================================= *)
(** ** Exceptions *)

Inductive result (A : Type) : Type :=
| Ok (a : A)
| Raise (e : string).
Arguments Ok {A} a.
Arguments Raise {A} e.

Definition bind {A B : Type} (m : result A) (k : A -> result B) : result B :=
  match m with
  | Ok a => k a
  | Raise e => Raise e
  end.

Notation "x <- m ;; k" := (bind m (fun x => k))
  (at level 61, m at next level, right associativity).

(** [ndarray.min()], [ndarray.max()]: NaN if one element is; a zero-size
    array raises [ValueError]. *)
Definition np_amin (l : list fl) : result fl :=
  match l with
  | [] => Raise "ValueError"
  | x :: xs => Ok (fold_left np_minimum xs x)
  end.

Definition np_amax (l : list fl) : result fl :=
  match l with
  | [] => Raise "ValueError"
  | x :: xs => Ok (fold_left np_maximum xs x)
  end.

(* ================================================================= *)
(** ** Rows and tables *)

(** A row of a pandas table, or a Python [dict], with numeric values: the
    column names in order, each with its value. *)
Definition series : Type := list (string * fl).

(** [row[name]] when the column is there. *)
Fixpoint lookup (name : string) (row : series) : option fl :=
  match row with
  | [] => None
  | (k, v) :: rest => if String.eqb k name then Some v else lookup name rest
  end.

(** [row.get(name, default)]. *)
Definition get (row : series) (name : string) (default : fl) : fl :=
  match lookup name row with
  | Some v => v
  | None => default
  end.

(** [dict.update]: a key already present keeps its place and takes the new
    value, a new key goes last. *)
Fixpoint set_item (name : string) (v : fl) (row : series) : series :=
  match row with
  | [] => [(name, v)]
  | (k, w) :: rest =>
      if String.eqb k name then (k, v) :: rest else (k, w) :: set_item name v rest
  end.

Definition update (row new : series) : series :=
  fold_left (fun acc kv => set_item (fst kv) (snd kv) acc) new row.

(** One wallet's feature vector: a row of the table [features_df]. *)
Record feature_row : Type := {
  fr_wallet_address : string;
  fr_features : series
}.

(** A row of [scores_df] as it moves through the scorer. *)
Record score_row : Type := {
  wallet_address : string;
  base_score : fl;
  risk_adjusted_score : fl
}.

Record scored_row : Type := {
  scores : score_row;
  credit_score : fl;
  score_category : string
}.

(* ================================================================= *)
(** ** Sorting, distinct values, aggregates *)

(** [sorted(l)]: a stable insertion sort for the order [leb]. *)
Fixpoint insert {A : Type} (leb : A -> A -> bool) (x : A) (l : list A) : list A :=
  match l with
  | [] => [x]
  | y :: ys => if leb x y then x :: l else y :: insert leb x ys
  end.

Definition sorted {A : Type} (leb : A -> A -> bool) (l : list A) : list A :=
  fold_right (insert leb) [] l.

(** [Series.unique()]: the distinct values, in order of first appearance. *)
Fixpoint unique {A : Type} (eqb : A -> A -> bool) (l : list A) : list A :=
  match l with
  | [] => []
  | x :: xs => x :: filter (fun y => negb (eqb x y)) (unique eqb xs)
  end.

(** [Series.nunique()]. *)
Definition nunique {A : Type} (eqb : A -> A -> bool) (l : list A) : nat :=
  length (unique eqb l).

Definition of_Z (z : Z) : fl := Fin (inject_Z z).
Definition of_nat (n : nat) : fl := Fin (inject_Z (Z.of_nat n)).
Definition of_bool (b : bool) : fl := if b then Fin 1 else Fin 0.
Definition Qlen {A : Type} (l : list A) : Q := inject_Z (Z.of_nat (length l)).

(** [Series.sum()] of a column without NaN; 0 for the empty column. *)
Definition pd_sum (l : list Q) : Q := fold_left Qplus l 0.

(** [Series.mean()]; NaN for the empty column. *)
Definition pd_mean (l : list Q) : fl :=
  match l with
  | [] => NaN
  | _ => Fin (pd_sum l / Qlen l)
  end.

(** [Series.max()], [Series.min()]; NaN for the empty column. *)
Definition pd_max (l : list Q) : fl :=
  match l with
  | [] => NaN
  | x :: xs => Fin (fold_left Qmax xs x)
  end.

Definition pd_min (l : list Q) : fl :=
  match l with
  | [] => NaN
  | x :: xs => Fin (fold_left Qmin xs x)
  end.

(** [Series.median()]: the middle of the sorted column, the mean of the two
    middle values when the length is even; NaN for the empty column. *)
Definition pd_median (l : list Q) : fl :=
  match l with
  | [] => NaN
  | _ =>
      let s := sorted Qle_bool l in
      let n := length s in
      if Nat.odd n then Fin (nth (n / 2) s 0)
      else Fin ((nth (n / 2 - 1) s 0 + nth (n / 2) s 0) / 2)
  end.

(** [Series.var()], with pandas' default [ddof=1]: the squared deviations
    from the mean over [n - 1]; NaN when there are fewer than two values. *)
Definition pd_var (l : list Q) : fl :=
  match l with
  | [] | [_] => NaN
  | _ =>
      let m := pd_sum l / Qlen l in
      Fin (pd_sum (map (fun x => (x - m) * (x - m)) l) / (Qlen l - 1))
  end.

(** [Series.mean()] of a column that may hold NaN: pandas skips them
    ([skipna=True]); NaN when nothing is left. *)
Definition pd_mean_skipna (l : list fl) : fl :=
  match filter (fun v => negb (is_nan v)) l with
  | [] => NaN
  | xs => fl_div (fold_left fl_add xs (Fin 0)) (Fin (Qlen xs))
  end.

(** Rows selected by a boolean mask, [df[mask]]. *)
Fixpoint select {A : Type} (mask : list bool) (l : list A) : list A :=
  match mask, l with
  | b :: bs, x :: xs => if b then x :: select bs xs else select bs xs
  | _, _ => []
  end.

(** [col.loc[mask] = f(col.loc[mask])]: the rows of the mask are updated,
    the others kept. *)
Fixpoint update_where (mask : list bool) (f : fl -> fl) (col : list fl) : list fl :=
  match col, mask with
  | x :: xs, b :: bs => (if b then f x else x) :: update_where bs f xs
  | xs, [] => xs
  | [], _ => []
  end.
(* ================================================================= *)
(** ** feature_engineering.py *)

(** A row of the transaction table once [extract_features] has parsed its
    columns: the amount and the gas are numbers ([to_numeric(...).fillna(0)]),
    the timestamp is an instant, in seconds since the epoch (UTC), or [None]
    for NaT: the loader writes [None] for a record whose timestamp is
    missing or 0, and [to_datetime] reads that as NaT. *)
Record transaction : Type := {
  wallet : string;
  action : string;
  asset : string;
  amount : Q;
  gas_used : Q;
  timestamp : option Z
}.

(** A DataFrame given to the scorer.  [pd.DataFrame()], which the loader
    returns when it fails or finds no transaction, has no column at all;
    any other table has the columns of [transaction]. *)
Inductive frame : Type :=
| NoColumns
| Rows (rows : list transaction).

(** [df.empty]. *)
Definition empty (df : frame) : bool :=
  match df with
  | NoColumns => true
  | Rows rows => (length rows =? 0)%nat
  end.

Definition rows_of_frame (df : frame) : list transaction :=
  match df with
  | NoColumns => []
  | Rows rows => rows
  end.

(** [Series.dropna()]. *)
Fixpoint dropna {A : Type} (l : list (option A)) : list A :=
  match l with
  | [] => []
  | Some x :: rest => x :: dropna rest
  | None :: rest => dropna rest
  end.

Definition is_NaT {A : Type} (x : option A) : bool :=
  match x with
  | None => true
  | Some _ => false
  end.

(** The order of [sort_values('timestamp')]: by instant, NaT last. *)
Definition timestamp_leb (a b : transaction) : bool :=
  match timestamp a, timestamp b with
  | Some x, Some y => (x <=? y)%Z
  | Some _, None => true
  | None, Some _ => false
  | None, None => true
  end.

(** The instants of the rows that have one ([skipna], [dropna]). *)
Definition instants (df : list transaction) : list Z := dropna (map timestamp df).

Definition with_action (a : string) (df : list transaction) : list transaction :=
  filter (fun t => String.eqb (action t) a) df.

Definition amounts (df : list transaction) : list Q := map amount df.

(** [df['action'].value_counts().get(a, 0)]. *)
Definition action_count (a : string) (df : list transaction) : nat :=
  length (with_action a df).

(** [df.groupby('action')['amount'].sum().get(a, 0)]. *)
Definition action_volume (a : string) (df : list transaction) : Q :=
  match with_action a df with
  | [] => 0
  | rows => pd_sum (amounts rows)
  end.

(** [df.groupby('asset')['amount'].sum()]: one total per asset, the assets
    in increasing order. *)
Definition asset_volumes (df : list transaction) : list Q :=
  map (fun a => pd_sum (amounts (filter (fun t => String.eqb (asset t) a) df)))
      (sorted String.leb (unique String.eqb (map asset df))).

(** The calendar date of an instant, as a day number, and its day of the
    week, Monday being 0 (day 0, 1 January 1970, was a Thursday). *)
Definition date_of (ts : Z) : Z := (ts / 86400)%Z.
Definition dayofweek (ts : Z) : Z := ((date_of ts + 3) mod 7)%Z.

(** [df['timestamp'].dt.date]: the date of each row, NaT where the row has
    no timestamp. *)
Definition dt_date (df : list transaction) : list (option Z) :=
  map (fun t => option_map date_of (timestamp t)) df.

(** [df.groupby(df['timestamp'].dt.date).size()]: the number of transactions
    of each active day, the days in increasing order.  [groupby] drops the
    rows whose key is NaT. *)
Definition daily_activity (df : list transaction) : list Q :=
  let dates := dropna (dt_date df) in
  map (fun d => Qlen (filter (Z.eqb d) dates)) (sorted Z.leb (unique Z.eqb dates)).

(** [s.diff().dt.total_seconds()] without its first entry, which is always
    NaN: the differences of the consecutive values, NaN where one of the two
    is NaT. *)
Fixpoint diff (l : list (option Z)) : list (option Q) :=
  match l with
  | x :: (y :: _) as rest =>
      match x, y with
      | Some a, Some b => Some (inject_Z (b - a))
      | _, _ => None
      end :: diff rest
  | _ => []
  end.

Definition date_eqb (a b : option Z) : bool :=
  match a, b with
  | Some x, Some y => Z.eqb x y
  | None, None => true
  | _, _ => false
  end.

Definition date_leb (a b : option Z) : bool :=
  match a, b with
  | Some x, Some y => (x <=? y)%Z
  | _, _ => true
  end.

(** The builtin [sorted] on dates.  It compares the elements with [<], and
    comparing NaT with a [datetime.date] raises [TypeError]: a list that
    holds NaT and a date cannot be sorted. *)
Definition py_sorted (dates : list (option Z)) : result (list (option Z)) :=
  if existsb is_NaT dates && existsb (fun d => negb (is_NaT d)) dates
  then Raise "TypeError"
  else Ok (sorted date_leb dates).

(** The loop of [_calculate_max_inactive_period], from the date [prev] on.
    [(dates[i] - dates[i-1]).days - 1] is NaN when a date is NaT, and
    [nan > 0] is false. *)
Fixpoint inactive_loop (prev : option Z) (dates : list (option Z))
    (max_gap current_gap : Z) : Z :=
  match dates with
  | [] => max_gap
  | d :: rest =>
      let gap_days :=
        match d, prev with
        | Some x, Some p => Some (x - p - 1)%Z
        | _, _ => None
        end in
      match gap_days with
      | Some gap_days =>
          if (0 <? gap_days)%Z then
            let current_gap := (current_gap + gap_days)%Z in
            inactive_loop d rest (Z.max max_gap current_gap) current_gap
          else
            inactive_loop d rest max_gap 0%Z
      | None => inactive_loop d rest max_gap 0%Z
      end
  end.

Definition _calculate_max_inactive_period (df_sorted : list transaction) : result Z :=
  if (length df_sorted <=? 1)%nat then Ok 0%Z
  else
    let dates := unique date_eqb (dt_date df_sorted) in
    dates <- py_sorted dates ;;
    Ok (match dates with
        | [] => 0%Z
        | d0 :: rest => inactive_loop d0 rest 0%Z 0%Z
        end).

Definition _calculate_asset_concentration (df : list transaction) : fl :=
  let asset_volumes := asset_volumes df in
  let total_volume := pd_sum asset_volumes in
  if Qeq_bool total_volume 0 then Fin 0
  else
    let shares := map (fun v => v / total_volume) asset_volumes in
    Fin (pd_sum (map (fun s => s * s) shares)).

Definition _calculate_repay_consistency (borrow_df repay_df : list transaction) : fl :=
  if (length borrow_df =? 0)%nat then Fin 1
  else if (length repay_df =? 0)%nat then Fin 0
  else
    let repay_ratio :=
      fl_div (Fin (pd_sum (amounts repay_df))) (Fin (pd_sum (amounts borrow_df))) in
    py_min repay_ratio (Fin 1).

Section FeatureEngineering.

(** [numpy.sqrt] on a non-negative number. *)
Variable sqrtQ : Q -> Q.

(** [Series.std()]: the square root of [Series.var()]. *)
Definition pd_std (l : list Q) : fl :=
  match pd_var l with
  | Fin v => Fin (sqrtQ v)
  | other => other
  end.

Definition _extract_basic_features (df : list transaction) : series :=
  [ ("total_transactions", of_nat (length df));
    ("total_volume", Fin (pd_sum (amounts df)));
    ("avg_transaction_size", pd_mean (amounts df));
    ("median_transaction_size", pd_median (amounts df));
    ("max_transaction_size", pd_max (amounts df));
    ("min_transaction_size", pd_min (amounts df));
    ("transaction_std", pd_std (amounts df));
    ("unique_assets", of_nat (nunique String.eqb (map asset df)));
    ("total_gas_used", Fin (pd_sum (map gas_used df)));
    ("avg_gas_per_tx", pd_mean (map gas_used df)) ].

Definition _extract_financial_features (df : list transaction) : series :=
  let deposits := action_volume "deposit" df in
  let borrows := action_volume "borrow" df in
  let repays := action_volume "repay" df in
  let redeems := action_volume "redeemunderlying" df in
  let asset_concentration := _calculate_asset_concentration df in
  let net_deposits := deposits - redeems in
  let repay_ratio := if Qltb 0 borrows then repays / borrows else 0 in
  [ ("deposit_count", of_nat (action_count "deposit" df));
    ("borrow_count", of_nat (action_count "borrow" df));
    ("repay_count", of_nat (action_count "repay" df));
    ("redeem_count", of_nat (action_count "redeemunderlying" df));
    ("liquidation_count", of_nat (action_count "liquidationcall" df));
    ("deposit_volume", Fin deposits);
    ("borrow_volume", Fin borrows);
    ("repay_volume", Fin repays);
    ("redeem_volume", Fin redeems);
    ("net_deposit_volume", Fin net_deposits);
    ("leverage_ratio", Fin (if Qltb 0 deposits then borrows / deposits else 0));
    ("repay_ratio", Fin repay_ratio);
    ("asset_concentration_hhi", asset_concentration);
    ("avg_position_size", pd_mean (asset_volumes df)) ].

Definition _extract_risk_features (df : list transaction) : series :=
  let liquidations := with_action "liquidationcall" df in
  let liquidation_frequency :=
    if (0 <? length df)%nat then Qlen liquidations / Qlen df else 0 in
  let liquidation_volume_ratio :=
    if Qltb 0 (pd_sum (amounts df))
    then pd_sum (amounts liquidations) / pd_sum (amounts df) else 0 in
  let repay_df := with_action "repay" df in
  let borrow_df := with_action "borrow" df in
  let repay_consistency := _calculate_repay_consistency borrow_df repay_df in
  let position_size_variance := pd_var (asset_volumes df) in
  [ ("liquidation_frequency", Fin liquidation_frequency);
    ("liquidation_volume_ratio", Fin liquidation_volume_ratio);
    ("has_liquidations", of_bool (0 <? length liquidations)%nat);
    ("repay_consistency_score", repay_consistency);
    ("position_size_variance", position_size_variance);
    ("max_single_position_ratio",
      if Qltb 0 (pd_sum (amounts df))
      then fl_div (pd_max (asset_volumes df)) (Fin (pd_sum (amounts df)))
      else Fin 0) ].

(** [(last_tx - first_tx).days], the minimum and the maximum taken over the
    rows that have a timestamp; NaN when no row has one (NaT - NaT is NaT,
    whose [days] is NaN). *)
Definition tenure (df_sorted : list transaction) : fl :=
  match instants df_sorted with
  | [] => NaN
  | t0 :: ts =>
      let first_tx := fold_left Z.min ts t0 in
      let last_tx := fold_left Z.max ts t0 in
      of_Z ((last_tx - first_tx) / 86400)
  end.

(** On an empty table [weekend_ratio] divides by [len(df)], which is 0, and
    raises [ZeroDivisionError].  Otherwise the entries of the result are
    computed in order, and the last one, [max_inactive_days], may raise. *)
Definition _extract_temporal_features (df : list transaction) : result series :=
  let df_sorted := sorted timestamp_leb df in
  let tenure_days := tenure df_sorted in
  let daily_activity := daily_activity df in
  let activity_consistency :=
    if fl_gtb (pd_mean daily_activity) (Fin 0)
    then fl_div (pd_std daily_activity) (pd_mean daily_activity)
    else Fin 0 in
  let time_intervals := dropna (diff (map timestamp df_sorted)) in
  let weekend :=
    filter (fun t => match timestamp t with
                     | Some ts => let d := dayofweek ts in (d =? 5)%Z || (d =? 6)%Z
                     | None => false
                     end) df in
  if (length df =? 0)%nat then Raise "ZeroDivisionError"
  else
    let weekend_ratio := Qlen weekend / Qlen df in
    max_inactive_days <- _calculate_max_inactive_period df_sorted ;;
    Ok [ ("tenure_days", tenure_days);
         ("activity_frequency", fl_div (Fin (Qlen df)) (py_max tenure_days (Fin 1)));
         ("activity_consistency_cv", activity_consistency);
         ("avg_time_between_tx_hours",
           if (0 <? length time_intervals)%nat
           then fl_div (pd_mean time_intervals) (Fin 3600) else Fin 0);
         ("median_time_between_tx_hours",
           if (0 <? length time_intervals)%nat
           then fl_div (pd_median time_intervals) (Fin 3600) else Fin 0);
         ("weekend_activity_ratio", Fin weekend_ratio);
         ("days_active", of_nat (length daily_activity));
         ("max_inactive_days", of_Z max_inactive_days) ].

Definition _calculate_gas_optimization (df : list transaction) : fl :=
  if Qeq_bool (pd_sum (map gas_used df)) 0 then Fin (1 # 2)
  else
    let gas_cv :=
      if fl_gtb (pd_mean (map gas_used df)) (Fin 0)
      then fl_div (pd_std (map gas_used df)) (pd_mean (map gas_used df))
      else Fin 1 in
    py_max (Fin 0) (fl_sub (Fin 1) gas_cv).

Definition _detect_bot_like_patterns (df : list transaction) : fl :=
  if (length df <? 3)%nat then Fin 0
  else
    let df_sorted := sorted timestamp_leb df in
    let time_intervals := dropna (diff (map timestamp df_sorted)) in
    if (length time_intervals =? 0)%nat then Fin 0
    else
      let interval_cv :=
        if fl_gtb (pd_mean time_intervals) (Fin 0)
        then fl_div (pd_std time_intervals) (pd_mean time_intervals)
        else Fin 1 in
      py_max (Fin 0) (fl_sub (Fin 1) (fl_mul interval_cv (Fin 2))).

Definition _calculate_complexity_score (df : list transaction) : fl :=
  let action_variety := Qlen (unique String.eqb (map action df)) / 5 in
  let n_assets := nunique String.eqb (map asset df) in
  let asset_variety :=
    inject_Z (Z.of_nat n_assets) / inject_Z (Z.of_nat (Nat.max n_assets 1)) in
  let amount_variety :=
    if fl_gtb (pd_mean (amounts df)) (Fin 0)
    then fl_sub (Fin 1) (fl_div (pd_std (amounts df)) (pd_mean (amounts df)))
    else Fin 0 in
  fl_div
    (fl_add (fl_add (Fin action_variety) (Fin asset_variety))
            (py_max (Fin 0) amount_variety))
    (Fin 3).

Definition _extract_network_features (df : list transaction) : series :=
  let gas_efficiency :=
    if Qltb 0 (pd_sum (map gas_used df))
    then pd_mean_skipna (map (fun t => fl_div (Fin (amount t)) (Fin (gas_used t))) df)
    else Fin 0 in
  let gas_optimization_score := _calculate_gas_optimization df in
  let action_diversity := Qlen (unique String.eqb (map action df)) / 5 in
  let regularity_score := _detect_bot_like_patterns df in
  [ ("gas_efficiency_score", gas_efficiency);
    ("gas_optimization_score", gas_optimization_score);
    ("action_diversity_score", Fin action_diversity);
    ("bot_like_regularity", regularity_score);
    ("unique_gas_prices", of_nat (nunique Qeq_bool (map gas_used df)));
    ("transaction_complexity_score", _calculate_complexity_score df) ].

Definition _extract_wallet_features (wallet_address : string)
    (df : list transaction) : result feature_row :=
  let features := [] in
  let features := update features (_extract_basic_features df) in
  let features := update features (_extract_financial_features df) in
  let features := update features (_extract_risk_features df) in
  temporal <- _extract_temporal_features df ;;
  let features := update features temporal in
  let features := update features (_extract_network_features df) in
  Ok {| fr_wallet_address := wallet_address; fr_features := features |}.

(** [for x in xs: out.append(f(x))], stopping at the first exception. *)
Fixpoint for_each {A B : Type} (f : A -> result B) (xs : list A) : result (list B) :=
  match xs with
  | [] => Ok []
  | x :: rest =>
      y <- f x ;;
      ys <- for_each f rest ;;
      Ok (y :: ys)
  end.

(** [df.groupby('wallet_address')]: the wallets in increasing order, each
    with its rows in the order of the table. *)
Definition groupby_wallet (df : list transaction)
    : list (string * list transaction) :=
  map (fun w => (w, filter (fun t => String.eqb (wallet t) w) df))
      (sorted String.leb (unique String.eqb (map wallet df))).

(** On the frame without columns, [df['timestamp']] raises [KeyError]. *)
Definition extract_features (df : frame) : result (list feature_row) :=
  match df with
  | NoColumns => Raise "KeyError"
  | Rows df =>
      for_each (fun g => _extract_wallet_features (fst g) (snd g)) (groupby_wallet df)
  end.

End FeatureEngineering.
(* ================================================================= *)
(** ** credit_scorer.py: the base scorer *)

Definition _define_feature_weights : list (string * Q) :=
  [ ("repay_consistency_score", 15 # 100);
    ("liquidation_frequency", - (10 # 100));
    ("activity_consistency_cv", - (5 # 100));
    ("has_liquidations", - (10 # 100));
    ("action_diversity_score", 8 # 100);
    ("asset_concentration_hhi", - (5 # 100));
    ("gas_optimization_score", 7 # 100);
    ("transaction_complexity_score", 5 # 100);
    ("total_volume", 8 # 100);
    ("tenure_days", 7 # 100);
    ("total_transactions", 5 # 100);
    ("leverage_ratio", - (5 # 100));
    ("position_size_variance", - (5 # 100));
    ("bot_like_regularity", - (5 # 100)) ].

(** What one weighted feature adds to the score:
    [weight * np.clip(scaled, -3, 3) * 100]. *)
Definition contribution (weight : Q) (scaled : fl) : fl :=
  fl_mul (fl_mul (Fin weight) (np_clip scaled (Fin (-3)) (Fin 3))) (Fin 100).

Definition _apply_heuristic_bonuses (features : series) : fl :=
  let bonus := Fin 0 in
  let bonus :=
    if fl_gtb (get features "tenure_days" (Fin 0)) (Fin 365) then fl_add bonus (Fin 50)
    else if fl_gtb (get features "tenure_days" (Fin 0)) (Fin 180) then fl_add bonus (Fin 25)
    else bonus in
  let bonus :=
    if fl_gtb (get features "total_transactions" (Fin 0)) (Fin 50) then fl_add bonus (Fin 30)
    else if fl_gtb (get features "total_transactions" (Fin 0)) (Fin 20) then fl_add bonus (Fin 15)
    else bonus in
  let bonus :=
    if fl_gtb (get features "unique_assets" (Fin 0)) (Fin 5) then fl_add bonus (Fin 20)
    else if fl_gtb (get features "unique_assets" (Fin 0)) (Fin 3) then fl_add bonus (Fin 10)
    else bonus in
  let bonus :=
    if fl_geb (get features "repay_ratio" (Fin 0)) (Fin 1)
       && fl_gtb (get features "borrow_count" (Fin 0)) (Fin 0)
    then fl_add bonus (Fin 40) else bonus in
  let bonus :=
    if fl_gtb (get features "liquidation_count" (Fin 0)) (Fin 0)
    then fl_sub bonus (fl_mul (get features "liquidation_count" (Fin 0)) (Fin 30))
    else bonus in
  let bonus :=
    if fl_gtb (get features "bot_like_regularity" (Fin 0)) (Fin (7 # 10))
    then fl_sub bonus (Fin 100) else bonus in
  bonus.

(** The loop over the weight table: a feature missing from the scaled row
    adds nothing. *)
Definition weighted_sum (weights : list (string * Q)) (scaled_features : series)
    (score : fl) : fl :=
  fold_left
    (fun score fw =>
       match lookup (fst fw) scaled_features with
       | Some v => fl_add score (contribution (snd fw) v)
       | None => score
       end)
    weights score.

Definition _calculate_weighted_score (scaled_features raw_features : series) : fl :=
  let score := Fin 500 in
  let score := weighted_sum _define_feature_weights scaled_features score in
  fl_add score (_apply_heuristic_bonuses raw_features).

(** [fillna(0)] then [replace([inf, -inf], 0)] on one cell. *)
Definition clean (v : fl) : Q :=
  match v with
  | Fin q => q
  | NaN | NInf | PInf => 0
  end.

(** A fitted [RobustScaler] holds, for each column, [center_] (the median)
    and [scale_] (the inter-quartile range, or 1 where that is 0);
    [transform] maps [x] to [(x - center_) / scale_]. *)
Definition robust_scale (center scale x : Q) : fl :=
  fl_div (Fin (x - center)) (Fin scale).

Fixpoint transform_row (params : list (Q * Q)) (row : list Q) : list fl :=
  match params, row with
  | (c, s) :: ps, x :: xs => robust_scale c s x :: transform_row ps xs
  | _, _ => []
  end.

Definition transform (params : list (Q * Q)) (X : list (list Q)) : list (list fl) :=
  map (transform_row params) X.

(** The cleaned matrix [X] of a feature table. *)
Definition feature_cols (features_df : list feature_row) : list string :=
  match features_df with
  | [] => []
  | r :: _ => map fst (fr_features r)
  end.

Definition feature_matrix (features_df : list feature_row) : list (list Q) :=
  map (fun r => map (fun kv => clean (snd kv)) (fr_features r)) features_df.

Definition _categorize_score (score : fl) : string :=
  if fl_geb score (Fin 900) then "Excellent (900-1000)"
  else if fl_geb score (Fin 700) then "Good (700-899)"
  else if fl_geb score (Fin 500) then "Fair (500-699)"
  else if fl_geb score (Fin 300) then "Poor (300-499)"
  else "Very Poor (0-299)".

(** The body of the loop that ends [_normalize_scores]: the override on the
    base score, then the clamp.  [row.get('base_score', 500)] always finds
    the column, which [_calculate_base_scores] creates. *)
Definition final_score (base score : fl) : fl :=
  let score :=
    if fl_ltb base (Fin 200) then py_min score (Fin 300)
    else if fl_gtb base (Fin 800) then py_max score (Fin 700)
    else score in
  py_max (Fin 0) (py_min (Fin 1000) score).

(** One turn of the loop over the clusters in [_apply_risk_adjustments]. *)
Definition cluster_adjust (risk_clusters : list nat) (features_df : list feature_row)
    (risk : list fl) (cluster : nat) : list fl :=
  let cluster_mask := map (fun c => Nat.eqb c cluster) risk_clusters in
  let cluster_features := select cluster_mask features_df in
  if (0 <? length cluster_features)%nat then
    let avg_liquidations :=
      pd_mean_skipna
        (map (fun r => get (fr_features r) "liquidation_frequency" NaN) cluster_features) in
    if fl_gtb avg_liquidations (Fin (1 # 10))
    then update_where cluster_mask (fun s => fl_mul s (Fin (8 # 10))) risk
    else if fl_ltb avg_liquidations (Fin (1 # 100))
    then update_where cluster_mask (fun s => fl_mul s (Fin (11 # 10))) risk
    else risk
  else risk.

(** A row of the result of [score_wallets]: the scores joined with the
    wallet's features. *)
Record result_row : Type := {
  scored : scored_row;
  features : series
}.

(** A line of the CSV file written by [save_results]. *)
Record csv_row : Type := {
  csv_wallet_address : string;
  csv_credit_score : fl;
  csv_score_category : string;
  csv_base_score : fl;
  csv_risk_adjusted_score : fl;
  csv_total_transactions : fl;
  csv_total_volume : fl;
  csv_tenure_days : fl;
  csv_liquidation_count : fl;
  csv_repay_consistency_score : fl
}.

(** What a run leaves behind: the lines it printed and the files it wrote. *)
Record world : Type := {
  stdout : list string;
  files : list (string * list csv_row)
}.

Definition print (line : string) (w : world) : world :=
  {| stdout := stdout w ++ [line]; files := files w |}.

Definition to_csv (path : string) (rows : list csv_row) (w : world) : world :=
  {| stdout := stdout w; files := files w ++ [(path, rows)] |}.

Definition print_lines (lines : list string) (w : world) : world :=
  fold_left (fun w line => print line w) lines w.

(** How the process ends: [main] returns, or an exception leaves it. *)
Inductive completion : Type :=
| Returned
| Uncaught (e : string).

(** The exit status of the interpreter: 0 when the script runs to its end,
    1 when an exception is not caught. *)
Definition exit_status (c : completion) : Z :=
  match c with
  | Returned => 0%Z
  | Uncaught _ => 1%Z
  end.

Definition show_nat (n : nat) : string :=
  NilEmpty.string_of_uint (Nat.to_uint n).

Definition newline : string := String (ascii_of_nat 10) "".

Section Scorer.

Variable sqrtQ : Q -> Q.
(** [RobustScaler.fit]: the per-column [(center_, scale_)]. *)
Variable robust_fit : list (list Q) -> list (Q * Q).
(** [IsolationForest(contamination=0.1).fit_predict]: -1 for an outlier,
    1 otherwise, one label per row. *)
Variable anomaly_fit_predict : list (list fl) -> result (list Z).
(** [KMeans(n_clusters=5).fit_predict]: one cluster label per row. *)
Variable cluster_fit_predict : list (list fl) -> result (list nat).
(** [np.percentile(a, q)]. *)
Variable np_percentile : list fl -> Q -> fl.
(** [AaveDataLoader.load_and_transform]: the lines it prints and the table
    it returns for the file at a path.  It reads the file and writes none;
    it catches its own exceptions, and returns the frame without columns
    when it fails and when no record of the file could be transformed. *)
Variable load_and_transform : string -> list string * frame.
(** The summary that [load_data] prints for a table with rows: its lines,
    and the exception met while it is computed and printed, if any, with
    the lines printed before it. *)
Variable data_summary : list transaction -> list string * option string.

(** [load_data]: any exception is caught, reported and answered by the frame
    without columns. *)
Definition load_data (file_path : string) (w : world) : world * frame :=
  let (lines, df) := load_and_transform file_path in
  let w := print_lines lines w in
  if empty df then (w, df)
  else
    let (summary, failure) := data_summary (rows_of_frame df) in
    let w := print_lines summary w in
    match failure with
    | None => (w, df)
    | Some e => (print ("Error loading data: " ++ e)%string w, NoColumns)
    end.

(** The scaler is fitted here and used again by the risk adjuster: its
    fitted parameters are returned with the scores. *)
Definition _calculate_base_scores (features_df : list feature_row)
    : list (Q * Q) * list (string * fl) :=
  let feature_cols := feature_cols features_df in
  let X := feature_matrix features_df in
  let fitted := robust_fit X in
  let X_scaled := transform fitted X in
  (fitted,
   map (fun p =>
          (fr_wallet_address (snd p),
           _calculate_weighted_score (combine feature_cols (fst p))
                                     (fr_features (snd p))))
       (combine X_scaled features_df)).

Definition _apply_risk_adjustments (fitted : list (Q * Q))
    (scores_df : list (string * fl)) (features_df : list feature_row)
    : result (list score_row) :=
  let X := feature_matrix features_df in
  anomaly_scores <- anomaly_fit_predict (transform fitted X) ;;
  let risk := map snd scores_df in
  let anomaly_mask := map (fun a => (a =? -1)%Z) anomaly_scores in
  let risk := update_where anomaly_mask (fun s => fl_mul s (Fin (7 # 10))) risk in
  risk_clusters <- cluster_fit_predict (transform fitted X) ;;
  let risk := fold_left (cluster_adjust risk_clusters features_df) (seq 0 5) risk in
  Ok (map (fun p => {| wallet_address := fst (fst p);
                       base_score := snd (fst p);
                       risk_adjusted_score := snd p |})
          (combine scores_df risk)).

(** The scores before the overrides: clipped to the percentiles, then
    rescaled, or 500 everywhere when the clipped scores do not spread. *)
Definition normalized_scores (scores : list fl) : result (list fl) :=
  let q1 := np_percentile scores 1 in
  let q99 := np_percentile scores 99 in
  let scores_clipped := map (fun s => np_clip s q1 q99) scores in
  min_score <- np_amin scores_clipped ;;
  max_score <- np_amax scores_clipped ;;
  Ok (if fl_gtb max_score min_score
      then map (fun s => fl_div (fl_mul (Fin 1000) (fl_sub s min_score))
                                (fl_sub max_score min_score))
               scores_clipped
      else map (fun _ => Fin 500) scores_clipped).

Definition _normalize_scores (scores_df : list score_row) : result (list scored_row) :=
  normalized <- normalized_scores (map risk_adjusted_score scores_df) ;;
  Ok (map (fun p =>
             let credit := final_score (base_score (fst p)) (snd p) in
             {| scores := fst p;
                credit_score := credit;
                score_category := _categorize_score credit |})
          (combine scores_df normalized)).

(** [scores_df.merge(features_df, on='wallet_address', how='left')]. *)
Definition merge (scores_df : list scored_row) (features_df : list feature_row)
    : list result_row :=
  map (fun s =>
         {| scored := s;
            features :=
              match find (fun r => String.eqb (fr_wallet_address r)
                                              (wallet_address (scores s)))
                         features_df with
              | Some r => fr_features r
              | None => []
              end |})
      scores_df.

Definition score_wallets (df : frame) (w : world)
    : world * result (list result_row) :=
  let w := print "Extracting features..." w in
  match extract_features sqrtQ df with
  | Raise e => (w, Raise e)
  | Ok features_df =>
      if (length features_df =? 0)%nat then
        (print "No features extracted. Check input data." w, Ok [])
      else
        let w := print ("Extracted features for " ++ show_nat (length features_df)
                        ++ " wallets")%string w in
        let w := print "Calculating base credit scores..." w in
        let (fitted, scores_df) := _calculate_base_scores features_df in
        let w := print "Applying risk adjustments..." w in
        match _apply_risk_adjustments fitted scores_df features_df with
        | Raise e => (w, Raise e)
        | Ok scores_df =>
            let w := print "Normalizing scores..." w in
            match _normalize_scores scores_df with
            | Raise e => (w, Raise e)
            | Ok scores_df =>
                let result_df := merge scores_df features_df in
                (print ("Credit scoring complete for " ++ show_nat (length result_df)
                        ++ " wallets")%string w,
                 Ok result_df)
            end
        end
  end.

(** The file written by [save_results]; the summary it prints afterwards
    is left out. *)
Definition save_results (results_df : list result_row) (output_path : string)
    (w : world) : world :=
  let column r name := get (features r) name NaN in
  let output_df :=
    map (fun r =>
           {| csv_wallet_address := wallet_address (scores (scored r));
              csv_credit_score := credit_score (scored r);
              csv_score_category := score_category (scored r);
              csv_base_score := base_score (scores (scored r));
              csv_risk_adjusted_score := risk_adjusted_score (scores (scored r));
              csv_total_transactions := column r "total_transactions";
              csv_total_volume := column r "total_volume";
              csv_tenure_days := column r "tenure_days";
              csv_liquidation_count := column r "liquidation_count";
              csv_repay_consistency_score := column r "repay_consistency_score" |})
        results_df in
  let w := to_csv output_path output_df w in
  print ("Results saved to " ++ output_path)%string w.

(** [main], once the command line is parsed into the two paths. *)
Definition main (input output : string) (w : world) : world * completion :=
  let w := print "=== DeFi Credit Scoring System ===" w in
  let w := print ("Input file: " ++ input)%string w in
  let w := print ("Output file: " ++ output)%string w in
  let (w, df) := load_data input w in
  if empty df then
    (print "Failed to load data. Exiting." w, Returned)
  else
    match score_wallets df w with
    | (w, Raise e) => (w, Uncaught e)
    | (w, Ok results) =>
        if (length results =? 0)%nat then
          (print "Failed to generate scores. Exiting." w, Returned)
        else
          let w := save_results results output w in
          (print (newline ++ "=== Credit scoring completed successfully! ===")%string w, Returned)
    end.

End Scorer.

(* ================================================================= *)
(** ** aave_data_loader.py: the gas estimate *)

(** [str.lower()] on ASCII text: the letters A to Z are moved to a to z. *)
Definition lower_ascii (c : ascii) : ascii :=
  let n := nat_of_ascii c in
  if ((65 <=? n) && (n <=? 90))%nat then ascii_of_nat (n + 32) else c.

Fixpoint lower (s : string) : string :=
  match s with
  | EmptyString => EmptyString
  | String c rest => String (lower_ascii c) (lower rest)
  end.

Definition gas_estimates : list (string * Z) :=
  [ ("deposit", 150000%Z);
    ("borrow", 180000%Z);
    ("repay", 160000%Z);
    ("redeemunderlying", 170000%Z);
    ("liquidationcall", 220000%Z);
    ("withdraw", 170000%Z);
    ("flashloan", 200000%Z) ].

(** [d.get(key, default)] on a dict with integer values. *)
Fixpoint dict_get (d : list (string * Z)) (key : string) (default : Z) : Z :=
  match d with
  | [] => default
  | (k, v) :: rest => if String.eqb k key then v else dict_get rest key default
  end.

Definition _estimate_gas_used (action : string) : Z :=
  dict_get gas_estimates (lower action) 150000%Z.

(* ================================================================= *)
(** ** analysis_generator.py: the distribution of the scores *)

Definition score_ranges : list (nat * nat) :=
  [ (0, 100); (100, 200); (200, 300); (300, 400); (400, 500);
    (500, 600); (600, 700); (700, 800); (800, 900); (900, 1000) ]%nat.

(** The edges given to [pd.cut]: the lower end of each range, then 1000. *)
Definition score_bins : list Q :=
  map (fun r => inject_Z (Z.of_nat (fst r))) score_ranges ++ [1000].

(** The labels given to [pd.cut], [f"{r[0]}-{r[1]}"]. *)
Definition score_labels : list string :=
  map (fun r => (show_nat (fst r) ++ "-" ++ show_nat (snd r))%string) score_ranges.

(** [bins.searchsorted(x, side='left')]: the number of edges below [x];
    NaN sorts after every edge. *)
Definition searchsorted_left (bins : list Q) (x : fl) : nat :=
  if is_nan x then length bins
  else length (filter (fun b => fl_ltb (Fin b) x) bins).

(** [pd.cut(x, bins, include_lowest=True)]: the index of the interval
    (edge, next edge] that holds [x], the lowest edge counting with the
    first interval; no interval for NaN and for a value outside the edges. *)
Definition cut (bins : list Q) (x : fl) : option nat :=
  let ids :=
    if fl_eqb x (Fin (hd 0 bins)) then 1%nat else searchsorted_left bins x in
  if (ids =? 0)%nat || (ids =? length bins)%nat then None else Some (ids - 1)%nat.

(** The entry ['distribution'] of [analyze_score_distribution]:
    [df['score_range'].value_counts().sort_index().to_dict()], the number of
    scores of each range, the ranges in order, empty ones included. *)
Definition score_distribution (credit_scores : list fl) : list (string * nat) :=
  map (fun i =>
         (nth i score_labels "",
          length (filter (fun s => match cut score_bins s with
                                   | Some j => Nat.eqb j i
                                   | None => false
                                   end) credit_scores)))
      (seq 0 (length score_labels)).

(* ================================================================= *)
(** ** analysis_generator.py: the low and the high scores *)

(** The table read back from the CSV file has the columns of [csv_row]. *)
Definition _identify_risk_factors (low_score_df : list csv_row) : list string :=
  let factors := [] in
  let factors :=
    if fl_gtb (pd_mean_skipna (map csv_liquidation_count low_score_df)) (Fin (1 # 2))
    then factors ++ ["High liquidation frequency"] else factors in
  let factors :=
    if fl_ltb (pd_mean_skipna (map csv_repay_consistency_score low_score_df))
              (Fin (8 # 10))
    then factors ++ ["Poor repayment consistency"] else factors in
  let factors :=
    if fl_ltb (pd_mean_skipna (map csv_total_transactions low_score_df)) (Fin 5)
    then factors ++ ["Limited transaction history"] else factors in
  let factors :=
    if fl_ltb (pd_mean_skipna (map csv_tenure_days low_score_df)) (Fin 30)
    then factors ++ ["Short protocol tenure"] else factors in
  factors.

Definition _identify_success_factors (high_score_df : list csv_row) : list string :=
  let factors := [] in
  let factors :=
    if fl_ltb (pd_mean_skipna (map csv_liquidation_count high_score_df)) (Fin (1 # 10))
    then factors ++ ["Excellent liquidation avoidance"] else factors in
  let factors :=
    if fl_gtb (pd_mean_skipna (map csv_repay_consistency_score high_score_df))
              (Fin (9 # 10))
    then factors ++ ["Consistent repayment behavior"] else factors in
  let factors :=
    if fl_gtb (pd_mean_skipna (map csv_total_transactions high_score_df)) (Fin 20)
    then factors ++ ["Extensive transaction history"] else factors in
  let factors :=
    if fl_gtb (pd_mean_skipna (map csv_tenure_days high_score_df)) (Fin 180)
    then factors ++ ["Long-term protocol engagement"] else factors in
  let factors :=
    if fl_gtb (pd_mean_skipna (map csv_total_volume high_score_df)) (Fin 10000)
    then factors ++ ["High transaction volumes"] else factors in
  factors.

(** The dict returned by [analyze_low_score_behavior] and
    [analyze_high_score_behavior] when some wallet is selected. *)
Record behavior : Type := {
  count : nat;
  percentage : Q;
  avg_score : fl;
  avg_liquidations : fl;
  avg_repay_consistency : fl;
  avg_transactions : fl;
  avg_volume : fl;
  avg_tenure : fl;
  factors : list string
}.

Definition describe (selected df : list csv_row) (factors : list string) : behavior :=
  {| count := length selected;
     percentage := Qlen selected / Qlen df * 100;
     avg_score := pd_mean_skipna (map csv_credit_score selected);
     avg_liquidations := pd_mean_skipna (map csv_liquidation_count selected);
     avg_repay_consistency :=
       pd_mean_skipna (map csv_repay_consistency_score selected);
     avg_transactions := pd_mean_skipna (map csv_total_transactions selected);
     avg_volume := pd_mean_skipna (map csv_total_volume selected);
     avg_tenure := pd_mean_skipna (map csv_tenure_days selected);
     factors := factors |}.

(** [None] stands for the dict that holds only a message. *)
Definition analyze_low_score_behavior (df : list csv_row) (threshold : Q)
    : option behavior :=
  let low_score_wallets :=
    filter (fun r => fl_ltb (csv_credit_score r) (Fin threshold)) df in
  if (length low_score_wallets =? 0)%nat then None
  else Some (describe low_score_wallets df (_identify_risk_factors low_score_wallets)).

Definition analyze_high_score_behavior (df : list csv_row) (threshold : Q)
    : option behavior :=
  let high_score_wallets :=
    filter (fun r => fl_geb (csv_credit_score r) (Fin threshold)) df in
  if (length high_score_wallets =? 0)%nat then None
  else Some (describe high_score_wallets df
                      (_identify_success_factors high_score_wallets)).
(* ================================================================= *)
(** ** Instances of the library functions, for running the model *)

(** The square root, rounded down to six decimals. *)
Definition sqrt_approx (q : Q) : Q :=
  (Z.sqrt (Qnum q * 10 ^ 12 / Z.pos (Qden q)) # 10 ^ 6).

(** [np.percentile] with its default linear interpolation, on data without
    infinities: NaN if an element is NaN; else, the data sorted and
    [p = (n - 1) * q / 100], the element at [floor p] plus the fraction of
    the step to the next one. *)
Definition percentile_linear (a : list fl) (q : Q) : fl :=
  if existsb is_nan a then NaN
  else
    let s := sorted fl_leb a in
    let n := length s in
    let p := inject_Z (Z.of_nat (n - 1)) * q / 100 in
    let j := Z.to_nat (Qfloor p) in
    let g := p - inject_Z (Qfloor p) in
    let lo := nth j s NaN in
    let hi := nth (Nat.min (j + 1) (n - 1)) s NaN in
    fl_add lo (fl_mul (Fin g) (fl_sub hi lo)).

(** The columns of a matrix given by its rows. *)
Definition columns (X : list (list Q)) : list (list Q) :=
  map (fun j => map (fun row => nth j row 0) X) (seq 0 (length (hd [] X))).

(** [RobustScaler.fit]: per column, the median and the range between the
    25th and the 75th percentile, 1 standing for a range of 0. *)
Definition robust_fit_iqr (X : list (list Q)) : list (Q * Q) :=
  map (fun col =>
         let c := clean (percentile_linear (map Fin col) 50) in
         let iqr := clean (fl_sub (percentile_linear (map Fin col) 75)
                                  (percentile_linear (map Fin col) 25)) in
         (c, if Qeq_bool iqr 0 then 1 else iqr))
      (columns X).

(** Sample data: three wallets over a week. *)
Definition sample_tx (w a s : string) (amt : Q) (ts : Z) : transaction :=
  {| wallet := w; action := a; asset := s; amount := amt;
     gas_used := 150000; timestamp := Some ts |}.

Definition sample_table : list transaction :=
  [ sample_tx "0xa" "deposit" "USDC" 100 0;
    sample_tx "0xb" "deposit" "USDC" 100 0;
    sample_tx "0xb" "borrow" "DAI" 50 86400;
    sample_tx "0xb" "repay" "DAI" 50 432010;
    sample_tx "0xb" "repay" "DAI" 25 518410;
    sample_tx "0xc" "borrow" "DAI" 80 3600;
    sample_tx "0xc" "liquidationcall" "DAI" 80 90000 ].

Definition sample_scores : list score_row :=
  [ {| wallet_address := "0xa"; base_score := Fin 150; risk_adjusted_score := Fin 105 |};
    {| wallet_address := "0xb"; base_score := Fin 520; risk_adjusted_score := Fin 572 |};
    {| wallet_address := "0xc"; base_score := Fin 850; risk_adjusted_score := Fin 476 |} ].

Definition no_outlier (X : list (list fl)) : result (list Z) :=
  Ok (map (fun _ => 1%Z) X).

Definition one_cluster (X : list (list fl)) : result (list nat) :=
  Ok (map (fun _ => 0%nat) X).

Definition empty_world : world := {| stdout := []; files := [] |}.

Definition rows_of {A : Type} (r : result (list A)) : list A :=
  match r with
  | Ok rows => rows
  | Raise _ => []
  end.




(** A loader that finds a file without any transaction, whatever the
    path. *)
Definition load_nothing (path : string) : list string * frame :=
  ([ ("Loading Aave transaction data from " ++ path ++ "...")%string;
     "Loaded 0 raw transactions";
     "Successfully transformed 0 transactions for 0 unique wallets" ],
   NoColumns).

(** A summary of one line, printed without an exception. *)
Definition short_summary (rows : list transaction) : list string * option string :=
  ([("Total transactions: " ++ show_nat (length rows))%string], None).

(** A clustering that, as k-means with five clusters, refuses fewer than
    five rows, and otherwise puts every row in cluster 0. *)
Definition five_clusters (X : list (list fl)) : result (list nat) :=
  if (length X <? 5)%nat then Raise "ValueError" else Ok (map (fun _ => 0%nat) X).

(** A table with one deposit of one wallet, and the run of the pipeline on
    it. *)
Definition single_deposit : list transaction :=
  [sample_tx "0xa" "deposit" "USDC" 100 0].

(** A row without timestamp, as the loader writes it for a record whose
    timestamp is missing or 0. *)
Definition undated_tx (w a s : string) (amt : Q) : transaction :=
  {| wallet := w; action := a; asset := s; amount := amt;
     gas_used := 150000; timestamp := None |}.

(** Six wallets over a few days from 14 November 2023. *)
Definition day0 : Z := 1699920000.

Definition six_wallets : list transaction :=
  [ sample_tx "0xc" "borrow" "DAI" 80 (day0 + 3600);
    sample_tx "0xa" "deposit" "USDC" 100 (day0 + 10);
    sample_tx "0xf" "deposit" "WETH" 3 (day0 + 20);
    sample_tx "0xb" "deposit" "USDC" 100 (day0 + 30);
    sample_tx "0xb" "borrow" "DAI" 50 (day0 + 86400);
    sample_tx "0xe" "deposit" "USDC" 40 (day0 + 50);
    sample_tx "0xc" "liquidationcall" "DAI" 80 (day0 + 90000);
    sample_tx "0xd" "deposit" "DAI" 7 (day0 + 60);
    sample_tx "0xb" "repay" "DAI" 50 (day0 + 432010);
    sample_tx "0xe" "redeemunderlying" "USDC" 40 (day0 + 172800);
    sample_tx "0xd" "deposit" "DAI" 9 (day0 + 70) ].

Definition load_six_wallets (path : string) : list string * frame :=
  ([ ("Loading Aave transaction data from " ++ path ++ "...")%string;
     "Loaded 11 raw transactions";
     "Processing transaction 1/11";
     "Successfully transformed 11 transactions for 6 unique wallets" ],
   Rows six_wallets).

Definition load_sample (path : string) : list string * frame :=
  ([ ("Loading Aave transaction data from " ++ path ++ "...")%string;
     "Loaded 7 raw transactions";
     "Processing transaction 1/7";
     "Successfully transformed 7 transactions for 3 unique wallets" ],
   Rows sample_table).

(** Labels for the six wallets: the third an outlier; four clusters. *)
Definition six_outliers (X : list (list fl)) : result (list Z) :=
  Ok [1%Z; 1%Z; (-1)%Z; 1%Z; 1%Z; 1%Z].

Definition six_clusters (X : list (list fl)) : result (list nat) :=
  if (length X <? 5)%nat then Raise "ValueError"
  else Ok [0%nat; 0%nat; 1%nat; 2%nat; 0%nat; 4%nat].

(** Three lines of a file of scores. *)
Definition sample_line (w : string) (score : Q) (category : string) : csv_row :=
  {| csv_wallet_address := w;
     csv_credit_score := Fin score;
     csv_score_category := category;
     csv_base_score := Fin score;
     csv_risk_adjusted_score := Fin score;
     csv_total_transactions := Fin 3;
     csv_total_volume := Fin 100;
     csv_tenure_days := Fin 10;
     csv_liquidation_count := Fin 0;
     csv_repay_consistency_score := Fin 1 |}.

Definition sample_lines : list csv_row :=
  [ sample_line "0xa" 250 "Very Poor (0-299)";
    sample_line "0xb" 750 "Good (700-899)";
    sample_line "0xc" 500 "Fair (500-699)" ].

(** A wallet with a row without timestamp and a row of 2 January 1970. *)
Definition undated_and_dated : list transaction :=
  [ undated_tx "0xa" "deposit" "USDC" 100;
    sample_tx "0xa" "deposit" "USDC" 50 86400 ].

(* ================================================================= *)
(** ** Notions used in the statements *)

(** [lo <= v <= hi], which NaN never satisfies. *)
Definition in_range (lo hi : Q) (v : fl) : Prop :=
  fl_leb (Fin lo) v = true /\ fl_leb v (Fin hi) = true.

(** The sum of the absolute values of the weights of a table. *)
Definition abs_total (weights : list (string * Q)) : Q :=
  fold_right (fun fw acc => Qabs (snd fw) + acc) 0 weights.

(** The max-inactive-period algorithm in the words of the specification:
    walk the consecutive pairs of the sorted distinct active dates; when the
    days between the two exceed 1, add (days between - 1) to a running
    counter; when the two dates are adjacent, reset the counter to 0; return
    the largest value the counter had. *)
Fixpoint streak_walk (prev : Z) (dates : list Z) (counter best : Z) : Z :=
  match dates with
  | [] => best
  | d :: rest =>
      let between := (d - prev)%Z in
      if (1 <? between)%Z then
        let counter := (counter + (between - 1))%Z in
        streak_walk d rest counter (Z.max best counter)
      else if (between =? 1)%Z then streak_walk d rest 0%Z best
      else streak_walk d rest counter best
  end.

Definition spec_max_inactive_days (timestamps : list Z) : Z :=
  match sorted Z.leb (unique Z.eqb (map date_of timestamps)) with
  | [] => 0%Z
  | d0 :: rest => streak_walk d0 rest 0%Z 0%Z
  end.

(** The loop of [_calculate_max_inactive_period] on dates without NaT. *)
Fixpoint loop_on_dates (prev : Z) (dates : list Z) (max_gap current_gap : Z) : Z :=
  match dates with
  | [] => max_gap
  | d :: rest =>
      let gap_days := (d - prev - 1)%Z in
      if (0 <? gap_days)%Z then
        let current_gap := (current_gap + gap_days)%Z in
        loop_on_dates d rest (Z.max max_gap current_gap) current_gap
      else
        loop_on_dates d rest max_gap 0%Z
  end.

(** The active dates of a wallet's table, distinct and in order. *)
Definition active_dates (df : list transaction) : list Z :=
  sorted Z.leb (unique Z.eqb (map date_of (instants df))).

(** Every row of the table has a timestamp; no row has one. *)
Definition all_dated (df : list transaction) : Prop :=
  Forall (fun t => timestamp t <> None) df.

Definition all_undated (df : list transaction) : Prop :=
  Forall (fun t => timestamp t = None) df.

(** Some wallet of the table has a row with a timestamp and a row without
    one. *)
Definition mixes_dates (df : list transaction) : Prop :=
  exists t t', In t df /\ In t' df /\ wallet t = wallet t'
               /\ timestamp t = None /\ timestamp t' <> None.

(** Every field of a feature vector is a finite number. *)
Definition all_finite (row : feature_row) : Prop :=
  Forall (fun kv => is_finite (snd kv) = true) (fr_features row).





(** A field of a feature vector that is a finite number, or else is NaN and
    is one of the three sample statistics of feature_engineering.py that
    pandas leaves undefined on a single value. *)
Definition finite_or_sample_statistic (kv : string * fl) : Prop :=
  is_finite (snd kv) = true
  \/ (snd kv = NaN
      /\ In (fst kv) ["transaction_std"; "position_size_variance";
                      "activity_consistency_cv"]).

(** The score [q] lies in range [k] of [score_ranges]: above the lower end,
    which counts with the first range, and up to the upper end. *)
Definition in_score_range (k : nat) (q : Q) : Prop :=
  match nth_error score_ranges k with
  | Some (lo, hi) =>
      (if (k =? 0)%nat then inject_Z (Z.of_nat lo) <= q
       else inject_Z (Z.of_nat lo) < q)
      /\ q <= inject_Z (Z.of_nat hi)
  | None => False
  end.

(** The number of rows of a table whose action is [a]. *)
Fixpoint count_rows (a : string) (df : list transaction) : nat :=
  match df with
  | [] => 0
  | t :: rest =>
      if string_dec (action t) a then S (count_rows a rest) else count_rows a rest
  end.
(* ================================================================= *)
(** * Properties *)

(** ** Comparisons *)

Lemma Qltb_lt (p q : Q) : Qltb p q = true <-> p < q.
Proof.
  unfold Qltb. rewrite negb_true_iff, <- not_true_iff_false, Qle_bool_iff.
  split; intro H; [apply Qnot_le_lt | apply Qlt_not_le]; exact H.
Qed.

Lemma Qltb_ge (p q : Q) : Qltb p q = false <-> q <= p.
Proof.
  unfold Qltb. rewrite negb_false_iff. apply Qle_bool_iff.
Qed.

Lemma Qle_bool_gt (p q : Q) : Qle_bool p q = false <-> q < p.
Proof.
  rewrite <- not_true_iff_false, Qle_bool_iff.
  split; intro H; [apply Qnot_le_lt | apply Qlt_not_le]; exact H.
Qed.

Lemma Qeq_bool_false (p q : Q) : Qeq_bool p q = false <-> ~ p == q.
Proof.
  rewrite <- not_true_iff_false, Qeq_bool_iff. tauto.
Qed.

(** Decide every rational comparison in sight, then leave linear
    arithmetic to [lra]. *)
Ltac qcases :=
  repeat match goal with
    | |- context [Qltb ?p ?q] =>
        let E := fresh "E" in
        destruct (Qltb p q) eqn:E;
        [apply Qltb_lt in E | apply Qltb_ge in E]
    | |- context [Qle_bool ?p ?q] =>
        let E := fresh "E" in
        destruct (Qle_bool p q) eqn:E;
        [apply Qle_bool_iff in E | apply Qle_bool_gt in E]
    | |- context [Qeq_bool ?p ?q] =>
        let E := fresh "E" in
        destruct (Qeq_bool p q) eqn:E;
        [apply Qeq_bool_iff in E | apply Qeq_bool_false in E]
    end.

Ltac qhyps :=
  repeat match goal with
    | H : Qltb _ _ = true |- _ => apply Qltb_lt in H
    | H : Qltb _ _ = false |- _ => apply Qltb_ge in H
    | H : Qle_bool _ _ = true |- _ => apply Qle_bool_iff in H
    | H : Qle_bool _ _ = false |- _ => apply Qle_bool_gt in H
    | H : Qeq_bool _ _ = true |- _ => apply Qeq_bool_iff in H
    | H : Qeq_bool _ _ = false |- _ => apply Qeq_bool_false in H
    end.

Ltac qgoal :=
  match goal with
  | |- Qltb _ _ = true => apply Qltb_lt
  | |- Qltb _ _ = false => apply Qltb_ge
  | |- Qle_bool _ _ = true => apply Qle_bool_iff
  | |- Qle_bool _ _ = false => apply Qle_bool_gt
  | |- _ => idtac
  end.

Ltac fl_unfold :=
  unfold py_min, py_max, np_clip, np_minimum, np_maximum, fl_gtb, fl_geb,
    fl_sub, fl_opp in *.

(** ** The clamp that ends the normalizer *)

Lemma final_score_in_range (base score : fl) :
  in_range 0 1000 (final_score base score).
Proof.
  unfold final_score, in_range.
  destruct (fl_ltb base (Fin 200)); [| destruct (fl_gtb base (Fin 800))];
    destruct score as [| | s |]; fl_unfold; cbn;
    qcases; cbn; qcases; cbn; qcases; split; qgoal;
    try reflexivity; try lra.
Qed.

(** ** The normalizer returns, and keeps the rows *)

Lemma bind_ok {A B : Type} (m : result A) (k : A -> result B) (b : B) :
  (x <- m ;; k x) = Ok b -> exists a, m = Ok a /\ k a = Ok b.
Proof.
  destruct m as [a | e]; cbn; intro H; [exists a; auto | discriminate].
Qed.

Lemma Ok_inj {A : Type} (a b : A) : Ok a = Ok b -> a = b.
Proof. intro H. now injection H. Qed.

Lemma normalized_scores_length np_percentile (l ns : list fl) :
  normalized_scores np_percentile l = Ok ns -> length ns = length l.
Proof.
  unfold normalized_scores. intro H.
  apply bind_ok in H. destruct H as [mn [_ H]].
  apply bind_ok in H. destruct H as [mx [_ H]].
  injection H as <-.
  destruct (fl_gtb mx mn); now rewrite !length_map.
Qed.

Lemma normalized_scores_returns np_percentile (l : list fl) :
  l <> [] -> exists ns, normalized_scores np_percentile l = Ok ns.
Proof.
  intro Hne. destruct l as [| x xs]; [contradiction |].
  unfold normalized_scores. cbn. eexists. reflexivity.
Qed.

Lemma map_fst_combine {A B : Type} (l : list A) (l' : list B) :
  length l = length l' -> map fst (combine l l') = l.
Proof.
  revert l'. induction l as [| a l IH]; intros [| b l'] H; cbn in *;
    try discriminate; auto.
  f_equal. apply IH. lia.
Qed.

Lemma _normalize_scores_rows np_percentile (scores_df : list score_row)
    (res : list scored_row) :
  _normalize_scores np_percentile scores_df = Ok res ->
  map scores res = scores_df
  /\ Forall (fun r => in_range 0 1000 (credit_score r)) res
  /\ Forall (fun r => score_category r = _categorize_score (credit_score r)) res.
Proof.
  unfold _normalize_scores. intro H.
  apply bind_ok in H. destruct H as [ns [Hns H]].
  apply normalized_scores_length in Hns. rewrite length_map in Hns.
  injection H as <-.
  repeat split.
  - rewrite map_map. cbn. apply map_fst_combine. symmetry. exact Hns.
  - apply Forall_map, Forall_forall. intros p _. cbn.
    apply final_score_in_range.
  - apply Forall_map, Forall_forall. intros p _. reflexivity.
Qed.

Lemma _normalize_scores_returns np_percentile (scores_df : list score_row) :
  scores_df <> [] -> exists res, _normalize_scores np_percentile scores_df = Ok res.
Proof.
  intro Hne. unfold _normalize_scores.
  destruct (normalized_scores_returns np_percentile (map risk_adjusted_score scores_df))
    as [ns Hns].
  - destruct scores_df; [contradiction | discriminate].
  - rewrite Hns. cbn. eexists. reflexivity.
Qed.

Lemma map_scored_merge (res : list scored_row) (features_df : list feature_row) :
  map scored (merge res features_df) = res.
Proof.
  unfold merge. rewrite map_map. cbn. apply map_id.
Qed.

(** What [score_wallets] returns, when it returns rows: the normalizer's
    output for some table of scores, joined with the features. *)
Lemma score_wallets_rows sqrtQ robust_fit anomaly cluster np_percentile
    (df : frame) (w w' : world) (rows : list result_row) :
  score_wallets sqrtQ robust_fit anomaly cluster np_percentile df w = (w', Ok rows) ->
  rows = []
  \/ exists scores_df res,
      _normalize_scores np_percentile scores_df = Ok res /\ map scored rows = res.
Proof.
  unfold score_wallets. intro H.
  destruct (extract_features sqrtQ df) as [features_df | e]; [| discriminate].
  destruct (length features_df =? 0)%nat.
  - left. now injection H as _ <-.
  - destruct (_calculate_base_scores robust_fit features_df) as [fitted base].
    destruct (_apply_risk_adjustments anomaly cluster fitted base features_df)
      as [scores_df | e]; [| discriminate].
    destruct (_normalize_scores np_percentile scores_df) as [res | e] eqn:Hn;
      [| discriminate].
    injection H as _ <-. right. exists scores_df, res. split; [exact Hn |].
    apply map_scored_merge.
Qed.

(** ** The overrides on the base score *)

Lemma final_score_low (base score : fl) :
  fl_ltb base (Fin 200) = true ->
  is_nan score = false ->
  fl_leb (final_score base score) (Fin 300) = true.
Proof.
  unfold final_score. intros -> Hs.
  destruct score as [| | s |]; try discriminate; fl_unfold; cbn;
    qcases; cbn; qcases; cbn; qcases; qgoal; try reflexivity; try lra.
Qed.

Lemma final_score_high (base score : fl) :
  fl_gtb base (Fin 800) = true ->
  fl_leb (Fin 700) (final_score base score) = true.
Proof.
  unfold final_score. intro Hb.
  assert (Hlow : fl_ltb base (Fin 200) = false).
  { destruct base as [| | b |]; cbn in *; try discriminate; try reflexivity.
    qhyps. qgoal. lra. }
  rewrite Hlow, Hb.
  destruct score as [| | s |]; fl_unfold; cbn;
    qcases; cbn; qcases; cbn; qcases; qgoal; try reflexivity; try lra.
Qed.

(** ** Clipped scores: all finite, or all the same *)

Lemma np_clip_cases (q1 q99 : fl) :
  (forall s, is_finite (np_clip (Fin s) q1 q99) = true)
  \/ (exists v, is_finite v = false /\ forall s, np_clip (Fin s) q1 q99 = v).
Proof.
  destruct q1 as [| | a |], q99 as [| | b |];
    first
      [ left; intro s; unfold np_clip, np_maximum, np_minimum; cbn;
        qcases; cbn; qcases; reflexivity
      | right; exists NaN; split; [reflexivity |]; intro s;
        unfold np_clip, np_maximum, np_minimum; cbn; qcases; reflexivity
      | right; exists NInf; split; [reflexivity |]; intro s;
        unfold np_clip, np_maximum, np_minimum; cbn; qcases; reflexivity
      | right; exists PInf; split; [reflexivity |]; intro s;
        unfold np_clip, np_maximum, np_minimum; cbn; qcases; reflexivity ].
Qed.

Lemma fold_np_minimum_finite (xs : list fl) (x : fl) :
  is_finite x = true -> Forall (fun y => is_finite y = true) xs ->
  is_finite (fold_left np_minimum xs x) = true.
Proof.
  revert x. induction xs as [| y ys IH]; intros x Hx Hall; cbn; [exact Hx |].
  inversion Hall as [| ? ? Hy Hys]; subst. apply IH; [| exact Hys].
  destruct x, y; try discriminate. unfold np_minimum; cbn. now qcases.
Qed.

Lemma fold_np_maximum_finite (xs : list fl) (x : fl) :
  is_finite x = true -> Forall (fun y => is_finite y = true) xs ->
  is_finite (fold_left np_maximum xs x) = true.
Proof.
  revert x. induction xs as [| y ys IH]; intros x Hx Hall; cbn; [exact Hx |].
  inversion Hall as [| ? ? Hy Hys]; subst. apply IH; [| exact Hys].
  destruct x, y; try discriminate. unfold np_maximum; cbn. now qcases.
Qed.

(** [feq] is an equivalence, and the comparisons respect it. *)
Lemma feq_refl (a : fl) : feq a a.
Proof. destruct a; cbn; auto. reflexivity. Qed.

Lemma feq_sym (a b : fl) : feq a b -> feq b a.
Proof. destruct a, b; cbn; auto. intro H. now symmetry. Qed.

Lemma feq_trans (a b c : fl) : feq a b -> feq b c -> feq a c.
Proof.
  destruct a, b, c; cbn; auto; try contradiction. intros H1 H2.
  now rewrite H1.
Qed.

Lemma fl_ltb_feq (a b : fl) : feq a b -> fl_ltb a b = false.
Proof.
  destruct a, b; cbn; auto; try contradiction. intro H. qgoal. lra.
Qed.

Lemma np_minimum_feq (a b x : fl) : feq a x -> feq b x -> feq (np_minimum a b) x.
Proof.
  destruct a, b, x; cbn; auto; try contradiction.
  intros Ha Hb. unfold np_minimum; cbn. now qcases.
Qed.

Lemma np_maximum_feq (a b x : fl) : feq a x -> feq b x -> feq (np_maximum a b) x.
Proof.
  destruct a, b, x; cbn; auto; try contradiction.
  intros Ha Hb. unfold np_maximum; cbn. now qcases.
Qed.

Lemma fold_feq (f : fl -> fl -> fl) (xs : list fl) (acc x : fl) :
  (forall a b, feq a x -> feq b x -> feq (f a b) x) ->
  feq acc x -> (forall y, In y xs -> feq y x) ->
  feq (fold_left f xs acc) x.
Proof.
  intro Hf. revert acc. induction xs as [| y ys IH]; intros acc Hacc Hall; cbn.
  - exact Hacc.
  - apply IH.
    + apply Hf; [exact Hacc | apply Hall; now left].
    + intros z Hz. apply Hall. now right.
Qed.

(** Clipped scores that are all the same are all set to 500. *)
Lemma normalized_scores_identical np_percentile (scores : list fl) :
  scores <> [] ->
  (forall x y,
      In x (map (fun s => np_clip s (np_percentile scores 1) (np_percentile scores 99))
                scores) ->
      In y (map (fun s => np_clip s (np_percentile scores 1) (np_percentile scores 99))
                scores) ->
      feq x y) ->
  normalized_scores np_percentile scores = Ok (map (fun _ => Fin 500) scores).
Proof.
  intros Hne Hsame. unfold normalized_scores.
  set (clipped := map _ scores) in *.
  assert (Hlen : map (fun _ => Fin 500) clipped = map (fun _ : fl => Fin 500) scores)
    by (unfold clipped; now rewrite map_map).
  rewrite <- Hlen. clear Hlen.
  destruct clipped as [| c cs] eqn:Hc.
  - destruct scores; [contradiction | discriminate].
  - cbn.
    assert (Hmin : feq (fold_left np_minimum cs c) c).
    { apply fold_feq; [intros a b; apply np_minimum_feq | apply feq_refl |].
      intros y Hy. apply Hsame; [now right | now left]. }
    assert (Hmax : feq (fold_left np_maximum cs c) c).
    { apply fold_feq; [intros a b; apply np_maximum_feq | apply feq_refl |].
      intros y Hy. apply Hsame; [now right | now left]. }
    unfold fl_gtb. rewrite fl_ltb_feq.
    + reflexivity.
    + eapply feq_trans; [exact Hmin | apply feq_sym; exact Hmax].
Qed.

(** Finite risk-adjusted scores give finite normalized scores, whatever the
    percentiles are. *)
Lemma normalized_scores_finite np_percentile (scores ns : list fl) :
  Forall (fun s => is_finite s = true) scores ->
  normalized_scores np_percentile scores = Ok ns ->
  Forall (fun s => is_finite s = true) ns.
Proof.
  intros Hfin. unfold normalized_scores.
  set (q1 := np_percentile scores 1). set (q99 := np_percentile scores 99).
  destruct (np_clip_cases q1 q99) as [Hall | [v [Hv Hconst]]].
  - (* every clipped score is finite *)
    assert (Hc : Forall (fun s => is_finite s = true)
                        (map (fun s => np_clip s q1 q99) scores)).
    { apply Forall_map. eapply Forall_impl; [| exact Hfin].
      intros [| | s |] Hs; try discriminate. apply Hall. }
    destruct (map (fun s => np_clip s q1 q99) scores) as [| c cs] eqn:E;
      [discriminate |].
    unfold np_amin, np_amax, bind. inversion Hc as [| ? ? Hc0 Hcs]; subst.
    pose proof (fold_np_minimum_finite cs c Hc0 Hcs) as Hmn.
    pose proof (fold_np_maximum_finite cs c Hc0 Hcs) as Hmx.
    destruct (fold_left np_minimum cs c) as [| | mn |]; try discriminate.
    destruct (fold_left np_maximum cs c) as [| | mx |]; try discriminate.
    intro H. apply Ok_inj in H. subst ns.
    destruct (fl_gtb (Fin mx) (Fin mn)) eqn:Hgt.
    + apply Forall_map. eapply Forall_impl; [| exact Hc].
      intros [| | s |] Hs; try discriminate. cbn in *. qhyps.
      unfold fl_sub; cbn. qcases; try reflexivity; lra.
    + apply Forall_map, Forall_forall. reflexivity.
  - (* every clipped score is the same value, not a finite one *)
    assert (Hc : forall y, In y (map (fun s => np_clip s q1 q99) scores) -> y = v).
    { intros y Hy. apply in_map_iff in Hy. destruct Hy as [s [<- Hs]].
      rewrite Forall_forall in Hfin. specialize (Hfin s Hs).
      destruct s; try discriminate. apply Hconst. }
    destruct (map (fun s => np_clip s q1 q99) scores) as [| c cs] eqn:E;
      [discriminate |].
    unfold np_amin, np_amax, bind. intro H. apply Ok_inj in H. subst ns.
    assert (Hcv : c = v) by (apply Hc; now left).
    assert (Hmin : feq (fold_left np_minimum cs c) v).
    { apply fold_feq; [intros a b; apply np_minimum_feq | subst; apply feq_refl |].
      intros y Hy. rewrite (Hc y); [apply feq_refl | now right]. }
    assert (Hmax : feq (fold_left np_maximum cs c) v).
    { apply fold_feq; [intros a b; apply np_maximum_feq | subst; apply feq_refl |].
      intros y Hy. rewrite (Hc y); [apply feq_refl | now right]. }
    unfold fl_gtb. rewrite fl_ltb_feq.
    + apply Forall_map, Forall_forall. reflexivity.
    + eapply feq_trans; [exact Hmin | apply feq_sym; exact Hmax].
Qed.

(* ================================================================= *)
(** ** Sorting and distinct values *)

Lemma In_insert (x y : Z) (l : list Z) :
  In y (insert Z.leb x l) <-> y = x \/ In y l.
Proof.
  induction l as [| z zs IH]; cbn.
  - intuition.
  - destruct (x <=? z)%Z; cbn; [intuition |]. rewrite IH. intuition.
Qed.

Lemma sorted_cons {A : Type} (leb : A -> A -> bool) (x : A) (l : list A) :
  sorted leb (x :: l) = insert leb x (sorted leb l).
Proof. reflexivity. Qed.

Lemma In_sorted (y : Z) (l : list Z) : In y (sorted Z.leb l) <-> In y l.
Proof.
  induction l as [| x xs IH]; [cbn; tauto |].
  rewrite sorted_cons, In_insert, IH. cbn. intuition.
Qed.

Lemma HdRel_insert (y x : Z) (l : list Z) :
  HdRel Z.lt y l -> (y < x)%Z -> HdRel Z.lt y (insert Z.leb x l).
Proof.
  intros Hl Hyx. destruct l as [| z zs]; cbn.
  - now constructor.
  - destruct (x <=? z)%Z; constructor; [exact Hyx |].
    now inversion Hl.
Qed.

Lemma insert_strictly_sorted (x : Z) (l : list Z) :
  Sorted Z.lt l -> ~ In x l -> Sorted Z.lt (insert Z.leb x l).
Proof.
  induction l as [| y ys IH]; intros Hs Hx; cbn.
  - repeat constructor.
  - inversion Hs as [| ? ? Hys Hhd]; subst.
    destruct (x <=? y)%Z eqn:E.
    + apply Z.leb_le in E. constructor; [exact Hs |]. constructor.
      assert (x <> y) by (intros ->; apply Hx; now left). lia.
    + apply Z.leb_gt in E. constructor.
      * apply IH; [exact Hys |]. intro Hin. apply Hx. now right.
      * apply HdRel_insert; assumption.
Qed.

Lemma NoDup_unique (l : list Z) : NoDup (unique Z.eqb l).
Proof.
  induction l as [| x xs IH]; cbn; constructor.
  - intro Hin. apply filter_In in Hin. destruct Hin as [_ Hne].
    now rewrite Z.eqb_refl in Hne.
  - now apply NoDup_filter.
Qed.

Lemma sorted_NoDup_strict (l : list Z) :
  NoDup l -> Sorted Z.lt (sorted Z.leb l).
Proof.
  induction 1 as [| x xs Hx Hnd IH].
  - constructor.
  - rewrite sorted_cons.
    apply insert_strictly_sorted; [exact IH |]. now rewrite In_sorted.
Qed.


(* ================================================================= *)
(** ** Sums and groups *)

Lemma fold_left_Qplus (l : list Q) (a : Q) :
  fold_left Qplus l a == a + fold_left Qplus l 0.
Proof.
  revert a. induction l as [| x xs IH]; intro a; cbn.
  - lra.
  - rewrite (IH (a + x)), (IH (0 + x)). lra.
Qed.

Lemma pd_sum_cons (x : Q) (l : list Q) : pd_sum (x :: l) == x + pd_sum l.
Proof.
  unfold pd_sum. cbn. rewrite fold_left_Qplus. lra.
Qed.

Lemma pd_sum_app (l l' : list Q) : pd_sum (l ++ l') == pd_sum l + pd_sum l'.
Proof.
  induction l as [| x xs IH]; cbn [app].
  - unfold pd_sum at 2. cbn. lra.
  - rewrite !pd_sum_cons, IH. lra.
Qed.

Lemma pd_sum_nonneg (l : list Q) : Forall (fun x => 0 <= x) l -> 0 <= pd_sum l.
Proof.
  induction 1 as [| x xs Hx _ IH].
  - unfold pd_sum. cbn. lra.
  - rewrite pd_sum_cons. lra.
Qed.

Lemma pd_sum_map_add {A : Type} (g h : A -> Q) (l : list A) :
  pd_sum (map (fun k => g k + h k) l) == pd_sum (map g l) + pd_sum (map h l).
Proof.
  induction l as [| x xs IH]; cbn [map].
  - unfold pd_sum. cbn. lra.
  - rewrite !pd_sum_cons, IH. lra.
Qed.

Lemma pd_sum_map_ext {A : Type} (g h : A -> Q) (l : list A) :
  (forall k, In k l -> g k == h k) -> pd_sum (map g l) == pd_sum (map h l).
Proof.
  induction l as [| x xs IH]; intro H; cbn [map].
  - reflexivity.
  - rewrite !pd_sum_cons.
    assert (Hx : g x == h x) by (apply H; now left).
    assert (Hxs : pd_sum (map g xs) == pd_sum (map h xs))
      by (apply IH; intros; apply H; now right).
    lra.
Qed.

Lemma pd_sum_map_zero {A : Type} (l : list A) : pd_sum (map (fun _ => 0) l) == 0.
Proof.
  induction l as [| x xs IH]; cbn [map].
  - reflexivity.
  - rewrite pd_sum_cons, IH. lra.
Qed.

Lemma Qlen_cons {A : Type} (x : A) (l : list A) : Qlen (x :: l) == 1 + Qlen l.
Proof.
  unfold Qlen. cbn [length]. rewrite Nat2Z.inj_succ, <- Z.add_1_l, inject_Z_plus.
  reflexivity.
Qed.

Lemma Qlen_nonneg {A : Type} (l : list A) : 0 <= Qlen l.
Proof.
  unfold Qlen. change 0 with (inject_Z 0). rewrite <- Zle_Qle. lia.
Qed.

Lemma Qlen_pos {A : Type} (l : list A) : l <> [] -> 0 < Qlen l.
Proof.
  intro H. destruct l as [| x xs]; [contradiction |].
  rewrite Qlen_cons. pose proof (Qlen_nonneg xs). lra.
Qed.

Section Distinct.

Context {A : Type} (eqb : A -> A -> bool) (leb : A -> A -> bool).
Hypothesis eqb_spec : forall a b, eqb a b = true <-> a = b.

Lemma In_insert_any (x y : A) (l : list A) :
  In y (insert leb x l) <-> y = x \/ In y l.
Proof.
  induction l as [| z zs IH]; cbn.
  - intuition.
  - destruct (leb x z); cbn; [intuition |]. rewrite IH. intuition.
Qed.

Lemma In_sorted_any (y : A) (l : list A) : In y (sorted leb l) <-> In y l.
Proof.
  induction l as [| x xs IH]; [cbn; tauto |].
  rewrite sorted_cons, In_insert_any, IH. cbn. intuition.
Qed.

Lemma length_insert (x : A) (l : list A) : length (insert leb x l) = S (length l).
Proof.
  induction l as [| z zs IH]; cbn; [reflexivity |].
  destruct (leb x z); cbn; [reflexivity | now rewrite IH].
Qed.

Lemma length_sorted (l : list A) : length (sorted leb l) = length l.
Proof.
  induction l as [| x xs IH]; [reflexivity |].
  now rewrite sorted_cons, length_insert, IH.
Qed.

Lemma NoDup_insert (x : A) (l : list A) :
  NoDup l -> ~ In x l -> NoDup (insert leb x l).
Proof.
  induction l as [| z zs IH]; intros Hnd Hx; cbn.
  - constructor; [tauto | constructor].
  - destruct (leb x z); [now constructor |].
    inversion Hnd as [| ? ? Hz Hzs]; subst. constructor.
    + rewrite In_insert_any. intros [-> | H]; [apply Hx; now left | contradiction].
    + apply IH; [exact Hzs |]. intro H. apply Hx. now right.
Qed.

Lemma NoDup_sorted (l : list A) : NoDup l -> NoDup (sorted leb l).
Proof.
  induction 1 as [| x xs Hx Hnd IH]; [constructor |].
  rewrite sorted_cons. apply NoDup_insert; [exact IH |]. now rewrite In_sorted_any.
Qed.

Lemma In_unique (x : A) (l : list A) : In x (unique eqb l) <-> In x l.
Proof using eqb_spec.
  induction l as [| y ys IH]; cbn; [reflexivity |].
  rewrite filter_In. split.
  - intros [H | [H _]]; [now left | right; now apply IH].
  - intros [H | H]; [now left |].
    destruct (eqb y x) eqn:E.
    + left. now apply eqb_spec.
    + right. split; [now apply IH | reflexivity].
Qed.

Lemma NoDup_unique_any (l : list A) : NoDup (unique eqb l).
Proof.
  induction l as [| x xs IH]; cbn; constructor.
  - intro Hin. apply filter_In in Hin. destruct Hin as [_ Hne].
    rewrite (proj2 (eqb_spec x x) eq_refl) in Hne. discriminate.
  - now apply NoDup_filter.
Qed.

(** The sum over the distinct keys of an indicator of one of them. *)
Lemma pd_sum_indicator (keys : list A) (k0 : A) (c : Q) :
  NoDup keys -> In k0 keys ->
  pd_sum (map (fun k => if eqb k0 k then c else 0) keys) == c.
Proof.
  induction 1 as [| k ks Hk Hnd IH]; intro Hin; [contradiction |].
  cbn [map]. rewrite pd_sum_cons. destruct Hin as [-> | Hin].
  - rewrite (proj2 (eqb_spec k0 k0) eq_refl).
    rewrite (pd_sum_map_ext _ (fun _ => 0)), pd_sum_map_zero; [lra |].
    intros k Hkin. destruct (eqb k0 k) eqn:E; [| reflexivity].
    apply eqb_spec in E. subst. contradiction.
  - rewrite IH by exact Hin. destruct (eqb k0 k) eqn:E; [| lra].
    apply eqb_spec in E. subst. contradiction.
Qed.

(** Grouping by a key and summing each group loses nothing: the sums of the
    groups add up to the sum of the whole. *)
Lemma groupby_sum {B : Type} (key : B -> A) (f : B -> Q) (keys : list A) (l : list B) :
  NoDup keys -> (forall x, In x l -> In (key x) keys) ->
  pd_sum (map (fun k => pd_sum (map f (filter (fun x => eqb (key x) k) l))) keys)
  == pd_sum (map f l).
Proof.
  intros Hnd. induction l as [| x xs IH]; intro Hall.
  - cbn. apply pd_sum_map_zero.
  - rewrite (pd_sum_map_ext _
               (fun k => (if eqb (key x) k then f x else 0)
                         + pd_sum (map f (filter (fun y => eqb (key y) k) xs)))).
    + rewrite pd_sum_map_add, pd_sum_indicator, IH; cbn [map].
      * now rewrite pd_sum_cons.
      * intros y Hy. apply Hall. now right.
      * exact Hnd.
      * apply Hall. now left.
    + intros k _. cbn [filter]. destruct (eqb (key x) k); cbn [map].
      * now rewrite pd_sum_cons.
      * lra.
Qed.

End Distinct.

Lemma Qlen_sum {A : Type} (l : list A) : Qlen l == pd_sum (map (fun _ => 1) l).
Proof.
  induction l as [| x xs IH]; [reflexivity |].
  cbn [map]. rewrite Qlen_cons, pd_sum_cons, IH. reflexivity.
Qed.

(* ================================================================= *)
(** ** Dates *)

Lemma Zeqb_spec (a b : Z) : (a =? b)%Z = true <-> a = b.
Proof. apply Z.eqb_eq. Qed.

(** On dates in strictly increasing order the loop of the program and the
    walk of the specification do the same. *)
Lemma loop_on_dates_streak_walk (dates : list Z) :
  forall prev max_gap current_gap,
    Sorted Z.lt (prev :: dates) ->
    loop_on_dates prev dates max_gap current_gap
    = streak_walk prev dates current_gap max_gap.
Proof.
  induction dates as [| d rest IH]; intros prev max_gap current_gap Hs; cbn.
  - reflexivity.
  - inversion Hs as [| ? ? Hrest Hhd]; subst. inversion Hhd as [| ? ? Hlt]; subst.
    destruct (0 <? d - prev - 1)%Z eqn:E.
    + apply Z.ltb_lt in E.
      assert (E' : (1 <? d - prev)%Z = true) by (apply Z.ltb_lt; lia).
      rewrite E'. now apply IH.
    + apply Z.ltb_ge in E.
      assert (E1 : (1 <? d - prev)%Z = false) by (apply Z.ltb_ge; lia).
      assert (E2 : (d - prev =? 1)%Z = true) by (apply Z.eqb_eq; lia).
      rewrite E1, E2. now apply IH.
Qed.

Lemma active_dates_strict (df : list transaction) : Sorted Z.lt (active_dates df).
Proof.
  apply sorted_NoDup_strict, NoDup_unique.
Qed.

Lemma last_cons_cons {A : Type} (x y : A) (l : list A) (d : A) :
  last (x :: y :: l) d = last (y :: l) d.
Proof. reflexivity. Qed.

Lemma last_from {A : Type} (l : list A) :
  forall (x d : A), last (x :: l) d = last l x.
Proof.
  induction l as [| y ys IH]; intros x d; [reflexivity |].
  now rewrite last_cons_cons, (IH y d), (IH y x).
Qed.

Lemma Sorted_lt_span (dates : list Z) :
  forall prev,
    Sorted Z.lt (prev :: dates) ->
    (Z.of_nat (length dates) <= last dates prev - prev)%Z.
Proof.
  induction dates as [| d rest IH]; intros prev Hs.
  - cbn. lia.
  - inversion Hs as [| ? ? Hrest Hhd]; subst. inversion Hhd as [| ? ? Hlt]; subst.
    rewrite (last_from rest d prev). cbn [length]. rewrite Nat2Z.inj_succ.
    specialize (IH d Hrest). lia.
Qed.

(** The loop, started inside a walk: it never lowers the maximum, and adds
    to the running gap at most the inactive days that are left. *)
Lemma loop_on_dates_bounds (dates : list Z) :
  forall prev max_gap current_gap,
    Sorted Z.lt (prev :: dates) ->
    (0 <= current_gap <= max_gap)%Z ->
    (max_gap <= loop_on_dates prev dates max_gap current_gap
     <= Z.max max_gap
              (current_gap + (last dates prev - prev - Z.of_nat (length dates))))%Z.
Proof.
  induction dates as [| d rest IH]; intros prev m c Hs Hc.
  - cbn. lia.
  - inversion Hs as [| ? ? Hrest Hhd]; subst. inversion Hhd as [| ? ? Hlt]; subst.
    cbn [loop_on_dates]. rewrite (last_from rest d prev).
    cbn [length]. rewrite Nat2Z.inj_succ.
    destruct (0 <? d - prev - 1)%Z eqn:E.
    + apply Z.ltb_lt in E.
      specialize (IH d (Z.max m (c + (d - prev - 1))) (c + (d - prev - 1))%Z Hrest
                     ltac:(lia)).
      pose proof (Sorted_lt_span rest d Hrest). lia.
    + apply Z.ltb_ge in E. specialize (IH d m 0%Z Hrest ltac:(lia)).
      pose proof (Sorted_lt_span rest d Hrest). lia.
Qed.

Lemma loop_on_dates_zero (dates : list Z) :
  forall prev max_gap current_gap,
    Sorted Z.lt (prev :: dates) ->
    (0 <= current_gap <= max_gap)%Z ->
    loop_on_dates prev dates max_gap current_gap = 0%Z ->
    (last dates prev - prev - Z.of_nat (length dates) = 0)%Z.
Proof.
  induction dates as [| d rest IH]; intros prev m c Hs Hc H0.
  - cbn. lia.
  - inversion Hs as [| ? ? Hrest Hhd]; subst. inversion Hhd as [| ? ? Hlt]; subst.
    cbn [loop_on_dates] in H0. rewrite (last_from rest d prev).
    cbn [length]. rewrite Nat2Z.inj_succ.
    destruct (0 <? d - prev - 1)%Z eqn:E.
    + apply Z.ltb_lt in E.
      pose proof (loop_on_dates_bounds rest d (Z.max m (c + (d - prev - 1)))
                    (c + (d - prev - 1))%Z Hrest ltac:(lia)) as Hb.
      pose proof (Sorted_lt_span rest d Hrest). lia.
    + apply Z.ltb_ge in E.
      pose proof (IH d m 0%Z Hrest ltac:(lia) H0) as Hi. lia.
Qed.

Lemma Sorted_lt_head (x : Z) (l : list Z) :
  Sorted Z.lt (x :: l) -> forall y, In y l -> (x < y)%Z.
Proof.
  intro Hs. apply Sorted_StronglySorted in Hs; [| intros a b c; lia].
  inversion Hs as [| ? ? _ Hall]; subst. now apply Forall_forall.
Qed.

(** Two lists in strictly increasing order with the same elements are the
    same list. *)
Lemma Sorted_lt_unique (l l' : list Z) :
  Sorted Z.lt l -> Sorted Z.lt l' -> (forall x, In x l <-> In x l') -> l = l'.
Proof.
  revert l'. induction l as [| x xs IH]; intros [| y ys] Hs Hs' Hin.
  - reflexivity.
  - exfalso. apply (proj2 (Hin y)). now left.
  - exfalso. apply (proj1 (Hin x)). now left.
  - pose proof (Sorted_lt_head x xs Hs) as Hx.
    pose proof (Sorted_lt_head y ys Hs') as Hy.
    assert (Exy : x = y).
    { destruct (proj1 (Hin x) (or_introl eq_refl)) as [E | E]; [now symmetry |].
      destruct (proj2 (Hin y) (or_introl eq_refl)) as [E' | E']; [exact E' |].
      specialize (Hx y E'). specialize (Hy x E). lia. }
    subst y. f_equal. apply IH.
    + now inversion Hs.
    + now inversion Hs'.
    + intro z. split; intro Hz.
      * destruct (proj1 (Hin z) (or_intror Hz)) as [E | E]; [| exact E].
        specialize (Hx z Hz). lia.
      * destruct (proj2 (Hin z) (or_intror Hz)) as [E | E]; [| exact E].
        specialize (Hy z Hz). lia.
Qed.


(** ** Tables with and without timestamps *)

Lemma dropna_map_Some {A : Type} (l : list A) : dropna (map Some l) = l.
Proof. induction l as [| x xs IH]; cbn; [reflexivity | now rewrite IH]. Qed.

Lemma dropna_app {A : Type} (l l' : list (option A)) :
  dropna (l ++ l') = dropna l ++ dropna l'.
Proof.
  induction l as [| [x |] xs IH]; cbn; [reflexivity | now rewrite IH | exact IH].
Qed.

Lemma In_dropna {A : Type} (x : A) (l : list (option A)) :
  In x (dropna l) <-> In (Some x) l.
Proof.
  induction l as [| [y |] ys IH]; cbn.
  - tauto.
  - rewrite IH. split; intros [H | H]; auto; left; congruence.
  - rewrite IH. split; [auto | intros [H | H]; [discriminate | exact H]].
Qed.

Lemma Permutation_dropna {A : Type} (l l' : list (option A)) :
  Permutation l l' -> Permutation (dropna l) (dropna l').
Proof.
  induction 1 as [| [x |] l l' _ IH | [x |] [y |] l | l l' l'' _ IH _ IH'];
    cbn; auto.
  - apply perm_swap.
  - now apply Permutation_trans with (dropna l').
Qed.

Lemma Permutation_insert {A : Type} (leb : A -> A -> bool) (x : A) (l : list A) :
  Permutation (insert leb x l) (x :: l).
Proof.
  induction l as [| y ys IH]; cbn; [apply Permutation_refl |].
  destruct (leb x y); [apply Permutation_refl |].
  apply Permutation_trans with (y :: x :: ys); [now apply perm_skip | apply perm_swap].
Qed.

Lemma Permutation_sorted {A : Type} (leb : A -> A -> bool) (l : list A) :
  Permutation (sorted leb l) l.
Proof.
  induction l as [| x xs IH]; [apply Permutation_refl |].
  rewrite sorted_cons.
  apply Permutation_trans with (x :: sorted leb xs);
    [apply Permutation_insert | now apply perm_skip].
Qed.

Lemma all_dated_timestamps (df : list transaction) :
  all_dated df -> map timestamp df = map Some (instants df).
Proof.
  unfold instants. induction 1 as [| t ts Ht _ IH]; [reflexivity |].
  cbn [map]. destruct (timestamp t) as [x |]; [| congruence].
  cbn [dropna map]. f_equal. exact IH.
Qed.

Lemma all_undated_timestamps (df : list transaction) :
  all_undated df -> map timestamp df = map (fun _ => None) df.
Proof.
  induction 1 as [| t ts Ht _ IH]; [reflexivity |].
  cbn [map]. now rewrite Ht, IH.
Qed.

Lemma dt_date_timestamps (df : list transaction) :
  dt_date df = map (option_map date_of) (map timestamp df).
Proof. unfold dt_date. now rewrite map_map. Qed.

Lemma dt_date_dated (df : list transaction) :
  all_dated df -> dt_date df = map Some (map date_of (instants df)).
Proof.
  intro H. rewrite dt_date_timestamps, (all_dated_timestamps df H), !map_map.
  reflexivity.
Qed.

Lemma dropna_dt_date (df : list transaction) :
  dropna (dt_date df) = map date_of (instants df).
Proof.
  unfold dt_date, instants. induction df as [| t ts IH]; [reflexivity |].
  cbn. destruct (timestamp t); cbn; now rewrite IH.
Qed.

Lemma date_eqb_spec (a b : option Z) : date_eqb a b = true <-> a = b.
Proof.
  destruct a as [x |], b as [y |]; cbn; try (split; [discriminate | congruence]).
  - rewrite Z.eqb_eq. split; congruence.
  - tauto.
Qed.

Lemma filter_map_Some {A : Type} (f : option A -> bool) (l : list A) :
  filter f (map Some l) = map Some (filter (fun x => f (Some x)) l).
Proof.
  induction l as [| x xs IH]; [reflexivity |].
  cbn. destruct (f (Some x)); cbn; now rewrite IH.
Qed.

Lemma unique_map_Some (l : list Z) :
  unique date_eqb (map Some l) = map Some (unique Z.eqb l).
Proof.
  induction l as [| x xs IH]; [reflexivity |].
  cbn [map unique]. rewrite IH, filter_map_Some. reflexivity.
Qed.

Lemma insert_map_Some (x : Z) (l : list Z) :
  insert date_leb (Some x) (map Some l) = map Some (insert Z.leb x l).
Proof.
  induction l as [| y ys IH]; [reflexivity |].
  cbn. destruct (x <=? y)%Z; cbn; [reflexivity | now rewrite IH].
Qed.

Lemma sorted_map_Some (l : list Z) :
  sorted date_leb (map Some l) = map Some (sorted Z.leb l).
Proof.
  induction l as [| x xs IH]; [reflexivity |].
  cbn [map]. now rewrite !sorted_cons, IH, insert_map_Some.
Qed.

Lemma py_sorted_dated (l : list Z) :
  py_sorted (map Some l) = Ok (map Some (sorted Z.leb l)).
Proof.
  unfold py_sorted.
  assert (H : existsb is_NaT (map Some l) = false)
    by (induction l as [| x xs IH]; [reflexivity | exact IH]).
  rewrite H. cbn [andb]. now rewrite sorted_map_Some.
Qed.

Lemma py_sorted_mixed (dates : list (option Z)) (d : Z) :
  In None dates -> In (Some d) dates -> py_sorted dates = Raise "TypeError".
Proof.
  intros Hn Hd. unfold py_sorted.
  assert (H1 : existsb is_NaT dates = true)
    by (apply existsb_exists; exists None; now split).
  assert (H2 : existsb (fun x => negb (is_NaT x)) dates = true)
    by (apply existsb_exists; exists (Some d); now split).
  now rewrite H1, H2.
Qed.

Lemma inactive_loop_dated (dates : list Z) :
  forall prev max_gap current_gap,
    inactive_loop (Some prev) (map Some dates) max_gap current_gap
    = loop_on_dates prev dates max_gap current_gap.
Proof.
  induction dates as [| d rest IH]; intros prev m c; [reflexivity |].
  cbn. destruct (0 <? d - prev - 1)%Z; apply IH.
Qed.

(** On a table whose rows all have a timestamp, the program walks the
    active dates. *)
Lemma _calculate_max_inactive_period_dated (df : list transaction) :
  all_dated df ->
  _calculate_max_inactive_period df
  = Ok (match active_dates df with
        | [] => 0%Z
        | d0 :: rest => loop_on_dates d0 rest 0%Z 0%Z
        end).
Proof.
  intro Hd. unfold _calculate_max_inactive_period, active_dates.
  destruct (length df <=? 1)%nat eqn:El.
  - destruct df as [| t [| t' df']]; [reflexivity | | discriminate].
    inversion Hd as [| ? ? Ht _]; subst. unfold instants. cbn.
    destruct (timestamp t); [reflexivity | contradiction].
  - rewrite (dt_date_dated df Hd), unique_map_Some, py_sorted_dated. cbn [bind].
    destruct (sorted Z.leb (unique Z.eqb (map date_of (instants df)))) as [| d0 rest];
      [reflexivity |].
    cbn [map]. now rewrite inactive_loop_dated.
Qed.

Lemma unique_all_None (l : list (option Z)) :
  l <> [] -> (forall x, In x l -> x = None) -> unique date_eqb l = [None].
Proof.
  induction l as [| x xs IH]; intros Hne Hall; [contradiction |].
  rewrite (Hall x (or_introl eq_refl)). cbn [unique].
  destruct xs as [| y ys]; [reflexivity |].
  rewrite IH; [reflexivity | discriminate |].
  intros z Hz. apply Hall. now right.
Qed.

(** On a table none of whose rows has a timestamp, the only date is NaT and
    the loop has nothing to walk. *)
Lemma _calculate_max_inactive_period_undated (df : list transaction) :
  all_undated df -> _calculate_max_inactive_period df = Ok 0%Z.
Proof.
  intro Hu. unfold _calculate_max_inactive_period.
  destruct (length df <=? 1)%nat eqn:El; [reflexivity |].
  rewrite unique_all_None.
  - reflexivity.
  - destruct df; [discriminate El | discriminate].
  - intros x Hx. unfold dt_date in Hx. apply in_map_iff in Hx.
    destruct Hx as [t [<- Ht]]. unfold all_undated in Hu.
    rewrite Forall_forall in Hu. now rewrite (Hu t Ht).
Qed.

(** A table with a row that has a timestamp and a row that has none: the
    dates cannot be sorted. *)
Lemma _calculate_max_inactive_period_mixed (df : list transaction) (t t' : transaction) :
  In t df -> timestamp t = None ->
  In t' df -> timestamp t' <> None ->
  _calculate_max_inactive_period df = Raise "TypeError".
Proof.
  intros Ht Hn Ht' Hs. unfold _calculate_max_inactive_period.
  assert (El : (length df <=? 1)%nat = false).
  { destruct df as [| a [| b r]]; [contradiction | | reflexivity].
    destruct Ht as [<- | []], Ht' as [<- | []]. contradiction. }
  rewrite El.
  destruct (timestamp t') as [x |] eqn:Ex; [| contradiction].
  rewrite (py_sorted_mixed _ (date_of x)); [reflexivity | |].
  - apply (In_unique date_eqb date_eqb_spec). unfold dt_date. apply in_map_iff.
    exists t. split; [now rewrite Hn | exact Ht].
  - apply (In_unique date_eqb date_eqb_spec). unfold dt_date. apply in_map_iff.
    exists t'. split; [now rewrite Ex | exact Ht'].
Qed.

Lemma dated_or_not (df : list transaction) :
  all_dated df \/ all_undated df
  \/ exists t t', In t df /\ timestamp t = None /\ In t' df /\ timestamp t' <> None.
Proof.
  induction df as [| a r IH]; [left; constructor |].
  destruct (timestamp a) as [x |] eqn:Ea.
  - destruct IH as [Hd | [Hu | [t [t' [Ht [Hn [Ht' Hs]]]]]]].
    + left. constructor; [now rewrite Ea | exact Hd].
    + destruct r as [| b r'].
      * left. constructor; [now rewrite Ea | constructor].
      * right. right. exists b, a.
        inversion Hu as [| ? ? Hb _]; subst.
        repeat split; [right; now left | exact Hb | now left | now rewrite Ea].
    + right. right. exists t, t'. repeat split; auto; now right.
  - destruct IH as [Hd | [Hu | [t [t' [Ht [Hn [Ht' Hs]]]]]]].
    + destruct r as [| b r'].
      * right. left. constructor; [exact Ea | constructor].
      * right. right. exists a, b.
        inversion Hd as [| ? ? Hb _]; subst.
        repeat split; [now left | exact Ea | right; now left | exact Hb].
    + right. left. constructor; assumption.
    + right. right. exists t, t'. repeat split; auto; now right.
Qed.

Lemma all_dated_Permutation (df df' : list transaction) :
  Permutation df df' -> all_dated df -> all_dated df'.
Proof. intros Hp Hd. unfold all_dated in *. now rewrite <- Hp. Qed.

Lemma all_undated_Permutation (df df' : list transaction) :
  Permutation df df' -> all_undated df -> all_undated df'.
Proof. intros Hp Hd. unfold all_undated in *. now rewrite <- Hp. Qed.

Lemma active_dates_In (df : list transaction) (d : Z) :
  In d (active_dates df) <-> In d (map date_of (instants df)).
Proof.
  unfold active_dates. rewrite In_sorted_any. apply (In_unique Z.eqb Zeqb_spec).
Qed.

Lemma active_dates_Permutation (df df' : list transaction) :
  Permutation df df' -> active_dates df = active_dates df'.
Proof.
  intro Hp. apply Sorted_lt_unique; try apply active_dates_strict.
  intro d. rewrite !active_dates_In.
  assert (Hm : Permutation (map date_of (instants df)) (map date_of (instants df'))).
  { apply Permutation_map. unfold instants. apply Permutation_dropna.
    now apply Permutation_map. }
  split; apply Permutation_in; [exact Hm | now apply Permutation_sym].
Qed.

Lemma active_dates_sorted (df : list transaction) :
  active_dates (sorted timestamp_leb df) = active_dates df.
Proof. apply active_dates_Permutation, Permutation_sorted. Qed.

(** What [_extract_temporal_features] returns, when it returns. *)
Lemma _extract_temporal_features_Ok (sqrtQ : Q -> Q) (df : list transaction)
    (temporal : series) :
  _extract_temporal_features sqrtQ df = Ok temporal ->
  df <> []
  /\ exists m,
      _calculate_max_inactive_period (sorted timestamp_leb df) = Ok m
      /\ temporal
         = [ ("tenure_days", tenure (sorted timestamp_leb df));
             ("activity_frequency",
               fl_div (Fin (Qlen df)) (py_max (tenure (sorted timestamp_leb df)) (Fin 1)));
             ("activity_consistency_cv",
               if fl_gtb (pd_mean (daily_activity df)) (Fin 0)
               then fl_div (pd_std sqrtQ (daily_activity df)) (pd_mean (daily_activity df))
               else Fin 0);
             ("avg_time_between_tx_hours",
               if (0 <? length (dropna (diff (map timestamp (sorted timestamp_leb df)))))%nat
               then fl_div (pd_mean (dropna (diff (map timestamp (sorted timestamp_leb df)))))
                           (Fin 3600)
               else Fin 0);
             ("median_time_between_tx_hours",
               if (0 <? length (dropna (diff (map timestamp (sorted timestamp_leb df)))))%nat
               then fl_div (pd_median (dropna (diff (map timestamp (sorted timestamp_leb df)))))
                           (Fin 3600)
               else Fin 0);
             ("weekend_activity_ratio",
               Fin (Qlen (filter (fun t => match timestamp t with
                                           | Some ts =>
                                               ((dayofweek ts =? 5) || (dayofweek ts =? 6))%Z
                                           | None => false
                                           end) df)
                    / Qlen df));
             ("days_active", of_nat (length (daily_activity df)));
             ("max_inactive_days", of_Z m) ].
Proof.
  unfold _extract_temporal_features. intro H.
  destruct (length df =? 0)%nat eqn:El; [discriminate |].
  apply bind_ok in H. destruct H as [m [Hm H]]. apply Ok_inj in H.
  split; [intros ->; discriminate |].
  exists m. split; [exact Hm | now symmetry].
Qed.

Lemma _extract_temporal_features_names (sqrtQ : Q -> Q) (df : list transaction)
    (temporal : series) :
  _extract_temporal_features sqrtQ df = Ok temporal ->
  map fst temporal
  = [ "tenure_days"; "activity_frequency"; "activity_consistency_cv";
      "avg_time_between_tx_hours"; "median_time_between_tx_hours";
      "weekend_activity_ratio"; "days_active"; "max_inactive_days" ].
Proof.
  intro H. apply _extract_temporal_features_Ok in H.
  destruct H as [_ [m [_ ->]]]. reflexivity.
Qed.

(** [_extract_temporal_features] returns on a table with rows, unless some
    rows have a timestamp and others have none. *)
Lemma _extract_temporal_features_returns (sqrtQ : Q -> Q) (df : list transaction) :
  df <> [] -> all_dated df \/ all_undated df ->
  exists temporal, _extract_temporal_features sqrtQ df = Ok temporal.
Proof.
  intros Hne Hd. unfold _extract_temporal_features.
  destruct (length df =? 0)%nat eqn:El; [destruct df; [contradiction | discriminate] |].
  assert (Hs : all_dated (sorted timestamp_leb df) \/ all_undated (sorted timestamp_leb df)).
  { destruct Hd as [Hd | Hu]; [left | right].
    - eapply all_dated_Permutation; [| exact Hd].
      apply Permutation_sym, Permutation_sorted.
    - eapply all_undated_Permutation; [| exact Hu].
      apply Permutation_sym, Permutation_sorted. }
  destruct Hs as [Hs | Hs].
  - rewrite (_calculate_max_inactive_period_dated _ Hs). cbn [bind]. now eexists.
  - rewrite (_calculate_max_inactive_period_undated _ Hs). cbn [bind]. now eexists.
Qed.

Lemma _extract_temporal_features_mixed (sqrtQ : Q -> Q) (df : list transaction)
    (t t' : transaction) :
  In t df -> timestamp t = None ->
  In t' df -> timestamp t' <> None ->
  _extract_temporal_features sqrtQ df = Raise "TypeError".
Proof.
  intros Ht Hn Ht' Hs. unfold _extract_temporal_features.
  destruct (length df =? 0)%nat eqn:El; [destruct df; [contradiction | discriminate] |].
  rewrite (_calculate_max_inactive_period_mixed (sorted timestamp_leb df) t t');
    try assumption; try reflexivity.
  - eapply Permutation_in; [apply Permutation_sym, Permutation_sorted | exact Ht].
  - eapply Permutation_in; [apply Permutation_sym, Permutation_sorted | exact Ht'].
Qed.

(* ================================================================= *)
(** ** The final score and its category *)

(** C1.  The credit score of every wallet lies in [0, 1000].  Given at least
    one wallet, the normalizer returns a row per wallet, each with a credit
    score between 0 and 1000, whatever the base scores, the risk-adjusted
    scores (NaN and the infinities included) and the percentiles are; and
    every row that [score_wallets] returns for a transaction table has
    its credit score between 0 and 1000. *)
Theorem credit_score_bounded (np_percentile : list fl -> Q -> fl) :
  (forall scores_df : list score_row,
      scores_df <> [] ->
      exists res,
        _normalize_scores np_percentile scores_df = Ok res
        /\ map scores res = scores_df
        /\ Forall (fun r => in_range 0 1000 (credit_score r)) res)
  /\ (forall sqrtQ robust_fit anomaly_fit_predict cluster_fit_predict df w,
         Forall (fun r => in_range 0 1000 (credit_score (scored r)))
                (rows_of (snd (score_wallets sqrtQ robust_fit anomaly_fit_predict
                                             cluster_fit_predict np_percentile df w)))).
Proof.
  split.
  - intros scores_df Hne.
    destruct (_normalize_scores_returns np_percentile scores_df Hne) as [res Hres].
    exists res. split; [exact Hres |].
    apply _normalize_scores_rows in Hres. tauto.
  - intros sqrtQ robust_fit anomaly cluster df w.
    destruct (score_wallets sqrtQ robust_fit anomaly cluster np_percentile df w)
      as [w' [rows | e]] eqn:H; cbn; [| constructor].
    apply score_wallets_rows in H. destruct H as [-> | [scores_df [res [Hres Hrows]]]].
    + constructor.
    + apply _normalize_scores_rows in Hres. destruct Hres as [_ [Hrange _]].
      rewrite <- Hrows in Hrange. rewrite Forall_map in Hrange. exact Hrange.
Qed.

Lemma credit_score_bounded_witness :
  exists res,
    _normalize_scores percentile_linear sample_scores = Ok res
    /\ map scores res = sample_scores
    /\ Forall (fun r => in_range 0 1000 (credit_score r)) res.
Proof.
  apply (proj1 (credit_score_bounded percentile_linear)). discriminate.
Defined.

(** C9.  The categories band [0, 1000] without gap or overlap: a score in
    that range is Excellent exactly from 900 up, Good exactly in [700, 900),
    Fair exactly in [500, 700), Poor exactly in [300, 500) and Very Poor
    exactly below 300. *)
Theorem score_bands (q : Q) :
  0 <= q <= 1000 ->
  (_categorize_score (Fin q) = "Excellent (900-1000)" <-> 900 <= q <= 1000)
  /\ (_categorize_score (Fin q) = "Good (700-899)" <-> 700 <= q < 900)
  /\ (_categorize_score (Fin q) = "Fair (500-699)" <-> 500 <= q < 700)
  /\ (_categorize_score (Fin q) = "Poor (300-499)" <-> 300 <= q < 500)
  /\ (_categorize_score (Fin q) = "Very Poor (0-299)" <-> 0 <= q < 300).
Proof.
  intros [H0 H1000]. unfold _categorize_score, fl_geb. cbn.
  qcases; repeat split; intros; try discriminate; try reflexivity; lra.
Qed.

Lemma score_bands_witness :
  (_categorize_score (Fin 900) = "Excellent (900-1000)" <-> 900 <= 900 <= 1000)
  /\ (_categorize_score (Fin 900) = "Good (700-899)" <-> 700 <= 900 < 900)
  /\ (_categorize_score (Fin 900) = "Fair (500-699)" <-> 500 <= 900 < 700)
  /\ (_categorize_score (Fin 900) = "Poor (300-499)" <-> 300 <= 900 < 500)
  /\ (_categorize_score (Fin 900) = "Very Poor (0-299)" <-> 0 <= 900 < 300).
Proof.
  apply (score_bands 900). split; discriminate.
Defined.

(* ================================================================= *)
(** ** The base scorer *)

Lemma np_clip_3 (v : fl) :
  is_nan v = false -> exists k, np_clip v (Fin (-3)) (Fin 3) = Fin k /\ -3 <= k <= 3.
Proof.
  intro Hv. destruct v as [| | q |]; try discriminate;
    unfold np_clip, np_maximum, np_minimum; cbn.
  - exists (-3). split; [reflexivity | lra].
  - qcases; cbn; qcases; eexists; (split; [reflexivity | lra]).
  - exists 3. split; [reflexivity | lra].
Qed.

Lemma np_clip_3_mono (a b : Q) :
  a <= b ->
  exists ka kb,
    np_clip (Fin a) (Fin (-3)) (Fin 3) = Fin ka
    /\ np_clip (Fin b) (Fin (-3)) (Fin 3) = Fin kb /\ ka <= kb.
Proof.
  intro Hab. unfold np_clip, np_maximum, np_minimum; cbn.
  qcases; cbn; qcases; do 2 eexists; (split; [reflexivity | split; [reflexivity | lra]]).
Qed.

Lemma robust_scale_finite (center scale x : Q) :
  ~ scale == 0 -> robust_scale center scale x = Fin ((x - center) / scale).
Proof.
  intro Hs. unfold robust_scale, fl_div. apply Qeq_bool_false in Hs. now rewrite Hs.
Qed.

Lemma weight_of_repay_consistency (w : Q) :
  In ("repay_consistency_score", w) _define_feature_weights -> w = 15 # 100.
Proof.
  unfold _define_feature_weights. cbn.
  intro H. repeat (destruct H as [H | H]; [now inversion H |]). contradiction.
Qed.

(** C7.  With the scaler's centre and (positive) scale fixed, raising the
    raw [repay_consistency_score] does not lower what that feature adds to
    the base score, [weight * clip(scaled, -3, 3) * 100] with the weight the
    table gives it. *)
Theorem repay_consistency_contribution_monotone (w center scale x y : Q) :
  In ("repay_consistency_score", w) _define_feature_weights ->
  0 < scale ->
  x < y ->
  fl_leb (contribution w (robust_scale center scale x))
         (contribution w (robust_scale center scale y)) = true.
Proof.
  intros Hw Hs Hxy. apply weight_of_repay_consistency in Hw. subst w.
  rewrite !robust_scale_finite by lra.
  assert (Hle : (x - center) / scale <= (y - center) / scale).
  { unfold Qdiv. apply Qmult_le_compat_r; [lra |].
    apply Qlt_le_weak, Qinv_lt_0_compat, Hs. }
  destruct (np_clip_3_mono _ _ Hle) as [ka [kb [Ha [Hb Hk]]]].
  unfold contribution. rewrite Ha, Hb. cbn. qgoal. lra.
Qed.

Lemma repay_consistency_contribution_monotone_witness :
  fl_leb (contribution (15 # 100) (robust_scale (1 # 2) (1 # 4) (1 # 5)))
         (contribution (15 # 100) (robust_scale (1 # 2) (1 # 4) (9 # 10))) = true.
Proof.
  apply (repay_consistency_contribution_monotone
           (15 # 100) (1 # 2) (1 # 4) (1 # 5) (9 # 10)).
  - cbn. left. reflexivity.
  - reflexivity.
  - reflexivity.
Defined.

(** The bonuses: a number, at most 140, or minus infinity. *)
Lemma _apply_heuristic_bonuses_cases (features : series) :
  _apply_heuristic_bonuses features = NInf
  \/ exists b, _apply_heuristic_bonuses features = Fin b /\ b <= 140.
Proof.
  unfold _apply_heuristic_bonuses.
  generalize (get features "tenure_days" (Fin 0)); intro tenure.
  generalize (get features "total_transactions" (Fin 0)); intro txs.
  generalize (get features "unique_assets" (Fin 0)); intro assets.
  generalize (get features "repay_ratio" (Fin 0)); intro ratio.
  generalize (get features "borrow_count" (Fin 0)); intro borrows.
  generalize (get features "liquidation_count" (Fin 0)); intro liq.
  generalize (get features "bot_like_regularity" (Fin 0)); intro bot.
  destruct (fl_gtb tenure (Fin 365)); [| destruct (fl_gtb tenure (Fin 180))];
    (destruct (fl_gtb txs (Fin 50)); [| destruct (fl_gtb txs (Fin 20))]);
    (destruct (fl_gtb assets (Fin 5)); [| destruct (fl_gtb assets (Fin 3))]);
    destruct (fl_geb ratio (Fin 1) && fl_gtb borrows (Fin 0));
    destruct (fl_gtb bot (Fin (7 # 10)));
    (destruct liq as [| | l |]; cbn;
     [ | | destruct (Qltb 0 l) eqn:El; [apply Qltb_lt in El |] | ]);
    cbn;
    first [ left; reflexivity
          | right; eexists; split; [reflexivity | lra] ].
Qed.

Lemma abs_total_cons (name : string) (w : Q) (weights : list (string * Q)) :
  abs_total ((name, w) :: weights) = Qabs w + abs_total weights.
Proof. reflexivity. Qed.

Lemma contribution_bound (w : Q) (v : fl) :
  is_nan v = false ->
  exists c, contribution w v = Fin c /\ c <= 300 * Qabs w.
Proof.
  intro Hv. destruct (np_clip_3 v Hv) as [k [Hk Hr]].
  unfold contribution. rewrite Hk. cbn. eexists. split; [reflexivity |].
  apply Qabs_case; intros Hw; nra.
Qed.

Lemma weighted_sum_bound (weights : list (string * Q)) (scaled : series) :
  (forall k v, lookup k scaled = Some v -> is_nan v = false) ->
  forall a, exists b,
    weighted_sum weights scaled (Fin a) = Fin b
    /\ b <= a + 300 * abs_total weights.
Proof.
  intro Hs. unfold weighted_sum.
  induction weights as [| [name w] ws IH]; intro a.
  - exists a. split; [reflexivity | cbn; lra].
  - rewrite abs_total_cons. cbn [fold_left fst snd].
    destruct (lookup name scaled) as [v |] eqn:Hl.
    + destruct (contribution_bound w v (Hs _ _ Hl)) as [c [Hc Hle]].
      rewrite Hc. cbn. destruct (IH (a + c)) as [b [Hb Hbl]].
      exists b. split; [exact Hb | lra].
    + destruct (IH a) as [b [Hb Hbl]]. exists b. split; [exact Hb |].
      pose proof (Qabs_nonneg w). lra.
Qed.

Lemma _calculate_weighted_score_bound (scaled raw : series) :
  (forall k v, lookup k scaled = Some v -> is_nan v = false) ->
  fl_leb (_calculate_weighted_score scaled raw) (Fin 940) = true.
Proof.
  intro Hs. unfold _calculate_weighted_score.
  destruct (weighted_sum_bound _define_feature_weights scaled Hs 500) as [b [Hb Hle]].
  rewrite Hb.
  assert (Ht : abs_total _define_feature_weights == 1) by (vm_compute; reflexivity).
  rewrite Ht in Hle.
  destruct (_apply_heuristic_bonuses_cases raw) as [-> | [c [-> Hc]]]; cbn.
  - reflexivity.
  - qgoal. lra.
Qed.

Lemma lookup_In (k : string) (v : fl) (row : series) :
  lookup k row = Some v -> In (k, v) row.
Proof.
  induction row as [| [k' v'] rest IH]; cbn; [discriminate |].
  destruct (String.eqb k' k) eqn:E.
  - apply String.eqb_eq in E. intro H. injection H as ->. subst. now left.
  - intro H. right. now apply IH.
Qed.

Lemma transform_row_In (params : list (Q * Q)) (row : list Q) (v : fl) :
  In v (transform_row params row) ->
  exists c s x, In (c, s) params /\ v = robust_scale c s x.
Proof.
  revert row. induction params as [| [c s] ps IH]; intros [| x xs]; cbn;
    try contradiction.
  intros [<- | H].
  - exists c, s, x. split; [now left | reflexivity].
  - destruct (IH xs H) as [c' [s' [x' [Hin ->]]]].
    exists c', s', x'. split; [now right | reflexivity].
Qed.

(** C10.  The base score is at most 940.  The table has fourteen weights,
    whose absolute values add up to 1; the bonuses add at most 140; a row of
    scaled features without NaN gives a score of at most 940; and so does
    every wallet of every feature table, the scaler's scales being non-zero
    as scikit-learn makes them. *)
Theorem base_score_at_most_940 :
  length _define_feature_weights = 14%nat
  /\ pd_sum (map (fun fw => Qabs (snd fw)) _define_feature_weights) == 1
  /\ (forall raw : series, fl_leb (_apply_heuristic_bonuses raw) (Fin 140) = true)
  /\ (forall scaled raw : series,
         (forall k v, lookup k scaled = Some v -> is_nan v = false) ->
         fl_leb (_calculate_weighted_score scaled raw) (Fin 940) = true)
  /\ (forall (robust_fit : list (list Q) -> list (Q * Q))
             (features_df : list feature_row),
         (forall c s, In (c, s) (robust_fit (feature_matrix features_df)) -> ~ s == 0) ->
         Forall (fun ws => fl_leb (snd ws) (Fin 940) = true)
                (snd (_calculate_base_scores robust_fit features_df))).
Proof.
  split; [reflexivity |].
  split; [vm_compute; reflexivity |].
  split; [| split].
  - intro raw. destruct (_apply_heuristic_bonuses_cases raw) as [-> | [b [-> Hb]]];
      cbn; [reflexivity | qgoal; exact Hb].
  - apply _calculate_weighted_score_bound.
  - intros robust_fit features_df Hscale. unfold _calculate_base_scores. cbn.
    apply Forall_map, Forall_forall. intros [scaled_row r] Hin. cbn.
    apply _calculate_weighted_score_bound. intros k v Hl.
    apply lookup_In, in_combine_r in Hl.
    apply in_combine_l in Hin. unfold transform in Hin.
    apply in_map_iff in Hin. destruct Hin as [row [<- _]].
    apply transform_row_In in Hl. destruct Hl as [c [s [x [Hcs ->]]]].
    rewrite robust_scale_finite; [reflexivity | exact (Hscale c s Hcs)].
Qed.

Lemma robust_fit_iqr_scale (X : list (list Q)) (c s : Q) :
  In (c, s) (robust_fit_iqr X) -> ~ s == 0.
Proof.
  unfold robust_fit_iqr. intro H. apply in_map_iff in H.
  destruct H as [col [H _]]. injection H as _ <-.
  destruct (Qeq_bool _ 0) eqn:E; [discriminate |].
  now apply Qeq_bool_false in E.
Qed.

Lemma base_score_at_most_940_witness :
  fl_leb (_calculate_weighted_score
            [("repay_consistency_score", Fin 7); ("tenure_days", PInf)]
            [("tenure_days", Fin 400); ("total_transactions", Fin 60);
             ("unique_assets", Fin 6); ("repay_ratio", Fin 1);
             ("borrow_count", Fin 2)])
         (Fin 940) = true
  /\ Forall (fun ws => fl_leb (snd ws) (Fin 940) = true)
            (snd (_calculate_base_scores
                    robust_fit_iqr
                    (rows_of (extract_features sqrt_approx (Rows sample_table))))).
Proof.
  split.
  - apply (proj1 (proj2 (proj2 (proj2 base_score_at_most_940)))).
    intros k v H. apply lookup_In in H.
    destruct H as [H | [H | []]]; injection H as _ <-; reflexivity.
  - apply (proj2 (proj2 (proj2 (proj2 base_score_at_most_940)))).
    apply robust_fit_iqr_scale.
Defined.

(* ================================================================= *)
(** ** The feature extractor: the longest inactive streak *)

Lemma spec_max_inactive_days_dates (df : list transaction) :
  spec_max_inactive_days (instants df)
  = match active_dates df with
    | [] => 0%Z
    | d0 :: rest => loop_on_dates d0 rest 0%Z 0%Z
    end.
Proof.
  unfold spec_max_inactive_days. fold (active_dates df).
  pose proof (active_dates_strict df) as Hs.
  destruct (active_dates df) as [| d0 rest]; [reflexivity |].
  symmetry. now apply loop_on_dates_streak_walk.
Qed.

Lemma all_undated_instants (df : list transaction) :
  all_undated df -> instants df = [].
Proof.
  intro H. unfold instants. rewrite (all_undated_timestamps df H).
  induction df as [| t ts IH]; [reflexivity |]. inversion H; subst. now apply IH.
Qed.

Lemma _calculate_max_inactive_period_spec (df : list transaction) :
  all_dated df \/ all_undated df ->
  _calculate_max_inactive_period df = Ok (spec_max_inactive_days (instants df)).
Proof.
  intros [Hd | Hu].
  - rewrite (_calculate_max_inactive_period_dated df Hd).
    now rewrite spec_max_inactive_days_dates.
  - rewrite (_calculate_max_inactive_period_undated df Hu).
    now rewrite (all_undated_instants df Hu).
Qed.

(** C6.  On a table whose rows all have a timestamp, or none of whose rows
    has one, the program computes the longest inactive streak as the
    specification describes it; on the active dates day0, day0+1, day0+5,
    day0+6 the result is 3; with at most one active date it is 0.  On a
    table with a row that has a timestamp and a row that has none, the
    program returns no streak: sorting the dates raises TypeError, also
    when there is a single active date, and the extraction of the features
    fails with it. *)
Theorem max_inactive_period_algorithm :
  (forall df : list transaction,
      all_dated df \/ all_undated df ->
      _calculate_max_inactive_period df = Ok (spec_max_inactive_days (instants df)))
  /\ (forall (df : list transaction) (day0 : Z),
         all_dated df \/ all_undated df ->
         active_dates df = [day0; day0 + 1; day0 + 5; day0 + 6]%Z ->
         _calculate_max_inactive_period df = Ok 3%Z)
  /\ (forall df : list transaction,
         all_dated df \/ all_undated df ->
         (length (active_dates df) <= 1)%nat ->
         _calculate_max_inactive_period df = Ok 0%Z)
  /\ (forall (df : list transaction) (t t' : transaction),
         In t df -> timestamp t = None ->
         In t' df -> timestamp t' <> None ->
         _calculate_max_inactive_period df = Raise "TypeError")
  /\ (length (active_dates undated_and_dated) = 1%nat
      /\ spec_max_inactive_days (instants undated_and_dated) = 0%Z
      /\ _calculate_max_inactive_period (sorted timestamp_leb undated_and_dated)
         = Raise "TypeError"
      /\ forall sqrtQ,
           extract_features sqrtQ (Rows undated_and_dated) = Raise "TypeError").
Proof.
  split; [exact _calculate_max_inactive_period_spec |].
  split; [| split; [| split]].
  - intros df day0 Hd H.
    rewrite (_calculate_max_inactive_period_spec df Hd), spec_max_inactive_days_dates, H.
    cbn.
    replace (day0 + 1 - day0 - 1)%Z with 0%Z by lia.
    replace (day0 + 5 - (day0 + 1) - 1)%Z with 3%Z by lia.
    replace (day0 + 6 - (day0 + 5) - 1)%Z with 0%Z by lia.
    reflexivity.
  - intros df Hd H.
    rewrite (_calculate_max_inactive_period_spec df Hd), spec_max_inactive_days_dates.
    destruct (active_dates df) as [| d0 [| d1 rest]]; cbn in *; try reflexivity; lia.
  - exact _calculate_max_inactive_period_mixed.
  - split; [reflexivity |]. split; [reflexivity |]. split; [reflexivity |].
    intro sqrtQ. reflexivity.
Qed.

Lemma max_inactive_period_algorithm_witness :
  _calculate_max_inactive_period
    [ sample_tx "0xd" "deposit" "USDC" 10 (10 * 86400 + 5);
      sample_tx "0xd" "deposit" "USDC" 10 (11 * 86400);
      sample_tx "0xd" "borrow" "DAI" 5 (11 * 86400 + 7200);
      sample_tx "0xd" "repay" "DAI" 5 (15 * 86400 + 100);
      sample_tx "0xd" "deposit" "USDC" 10 (16 * 86400 + 3) ] = Ok 3%Z
  /\ _calculate_max_inactive_period [ sample_tx "0xd" "deposit" "USDC" 10 5000;
                                      sample_tx "0xd" "deposit" "USDC" 10 9000 ] = Ok 0%Z
  /\ _calculate_max_inactive_period
       [ sample_tx "0xd" "deposit" "USDC" 10 5000;
         undated_tx "0xd" "deposit" "USDC" 10 ] = Raise "TypeError".
Proof.
  split; [| split].
  - apply (proj1 (proj2 max_inactive_period_algorithm) _ 10%Z).
    + left. repeat constructor; discriminate.
    + reflexivity.
  - apply (proj1 (proj2 (proj2 max_inactive_period_algorithm))).
    + left. repeat constructor; discriminate.
    + cbn. lia.
  - apply (proj1 (proj2 (proj2 (proj2 max_inactive_period_algorithm)))
             _ (undated_tx "0xd" "deposit" "USDC" 10)
             (sample_tx "0xd" "deposit" "USDC" 10 5000)).
    + right. now left.
    + reflexivity.
    + now left.
    + discriminate.
Defined.

(* ================================================================= *)
(** ** The feature extractor: repayment consistency *)

Lemma length_zero_nil {A : Type} (l : list A) : (length l =? 0)%nat = true <-> l = [].
Proof.
  destruct l; cbn; split; intro H; try reflexivity; discriminate.
Qed.

Lemma py_min_not_above (a : fl) (q : Q) : fl_gtb (py_min a (Fin q)) (Fin q) = false.
Proof.
  unfold py_min, fl_gtb.
  destruct a as [| | p |]; cbn; qcases; cbn; try reflexivity; qgoal; lra.
Qed.

(** C5.  A wallet without borrow transactions has a repayment consistency
    of 1.0 and a repay ratio of 0; one with borrow but no repay
    transactions has a consistency of 0.0; otherwise the consistency is the
    minimum of the ratio of the repaid to the borrowed volume and 1.0.  It
    never exceeds 1. *)
Theorem repay_consistency_cases (df : list transaction) :
  let borrow_df := with_action "borrow" df in
  let repay_df := with_action "repay" df in
  let repaid := pd_sum (amounts repay_df) in
  let borrowed := pd_sum (amounts borrow_df) in
  let score := _calculate_repay_consistency borrow_df repay_df in
  lookup "repay_consistency_score" (_extract_risk_features df) = Some score
  /\ (borrow_df = [] ->
      score = Fin 1
      /\ lookup "repay_ratio" (_extract_financial_features df) = Some (Fin 0))
  /\ (borrow_df <> [] -> repay_df = [] -> score = Fin 0)
  /\ (borrow_df <> [] -> repay_df <> [] ->
      score = py_min (fl_div (Fin repaid) (Fin borrowed)) (Fin 1)
      /\ (~ borrowed == 0 -> feq score (Fin (Qmin 1 (repaid / borrowed)))))
  /\ fl_gtb score (Fin 1) = false.
Proof.
  cbv zeta. split; [reflexivity |].
  unfold _calculate_repay_consistency.
  split; [| split; [| split]].
  - intro Hb. split.
    + now rewrite Hb.
    + unfold _extract_financial_features, action_volume. rewrite Hb. reflexivity.
  - intros Hb Hr. rewrite Hr.
    destruct (with_action "borrow" df); [contradiction | reflexivity].
  - intros Hb Hr.
    destruct (with_action "borrow" df) as [| b bs] eqn:Eb; [contradiction |].
    destruct (with_action "repay" df) as [| r rs] eqn:Er; [contradiction |].
    cbn [length Nat.eqb]. split; [reflexivity |].
    intro Hnz. unfold fl_div. apply Qeq_bool_false in Hnz. rewrite Hnz.
    unfold py_min. cbn.
    destruct (Qltb 1 _) eqn:E; cbn; qhyps.
    + rewrite Q.min_l; [reflexivity | lra].
    + rewrite Q.min_r; [reflexivity | lra].
  - destruct (length (with_action "borrow" df) =? 0)%nat; [reflexivity |].
    destruct (length (with_action "repay" df) =? 0)%nat; [reflexivity |].
    apply py_min_not_above.
Qed.

Lemma repay_consistency_cases_witness :
  let df := [ sample_tx "0xb" "deposit" "USDC" 100 0;
              sample_tx "0xb" "borrow" "DAI" 50 86400;
              sample_tx "0xb" "repay" "DAI" 20 432010 ] in
  (_calculate_repay_consistency (with_action "borrow" [sample_tx "0xa" "deposit" "USDC" 100 0])
                                (with_action "repay" [sample_tx "0xa" "deposit" "USDC" 100 0])
   = Fin 1
   /\ lookup "repay_ratio"
        (_extract_financial_features [sample_tx "0xa" "deposit" "USDC" 100 0])
      = Some (Fin 0))
  /\ _calculate_repay_consistency
       (with_action "borrow" [sample_tx "0xc" "borrow" "DAI" 80 3600])
       (with_action "repay" [sample_tx "0xc" "borrow" "DAI" 80 3600]) = Fin 0
  /\ feq (_calculate_repay_consistency (with_action "borrow" df) (with_action "repay" df))
         (Fin (Qmin 1 (pd_sum (amounts (with_action "repay" df))
                       / pd_sum (amounts (with_action "borrow" df))))).
Proof.
  cbv zeta. split; [| split].
  - apply (proj1 (proj2 (repay_consistency_cases
                           [sample_tx "0xa" "deposit" "USDC" 100 0]))).
    reflexivity.
  - apply (proj1 (proj2 (proj2 (repay_consistency_cases
                                  [sample_tx "0xc" "borrow" "DAI" 80 3600])))).
    + discriminate.
    + reflexivity.
  - apply (proj1 (proj2 (proj2 (proj2 (repay_consistency_cases
             [ sample_tx "0xb" "deposit" "USDC" 100 0;
               sample_tx "0xb" "borrow" "DAI" 50 86400;
               sample_tx "0xb" "repay" "DAI" 20 432010 ]))))).
    + discriminate.
    + discriminate.
    + discriminate.
Defined.

(* ================================================================= *)
(** ** The feature extractor: NaN in the feature vector *)

Lemma groupby_wallet_single (t : transaction) :
  groupby_wallet [t] = [(wallet t, [t])].
Proof.
  unfold groupby_wallet. cbn. now rewrite String.eqb_refl.
Qed.

Lemma lookup_set_item (k k' : string) (v : fl) (row : series) :
  lookup k (set_item k' v row) = if String.eqb k' k then Some v else lookup k row.
Proof.
  induction row as [| [k0 w] rest IH]; cbn; [reflexivity |].
  destruct (String.eqb k0 k') eqn:E0; cbn.
  - apply String.eqb_eq in E0. subst k0. now destruct (String.eqb k' k).
  - rewrite IH. destruct (String.eqb k0 k) eqn:E1; [| reflexivity].
    apply String.eqb_eq in E1. subst k0. now rewrite String.eqb_sym, E0.
Qed.

(** A key that the later groups of features do not define keeps the value
    an earlier group gave it. *)
Lemma lookup_update_absent (k : string) (row new : series) :
  lookup k new = None -> lookup k (update row new) = lookup k row.
Proof.
  unfold update. revert row.
  induction new as [| [k' v] rest IH]; intros row Hk; cbn in *; [reflexivity |].
  destruct (String.eqb k' k) eqn:E; [discriminate |].
  rewrite IH by exact Hk. now rewrite lookup_set_item, E.
Qed.

Lemma lookup_update_present (k : string) (v : fl) (row new : series) :
  NoDup (map fst new) -> lookup k new = Some v -> lookup k (update row new) = Some v.
Proof.
  unfold update. revert row.
  induction new as [| [k' w] rest IH]; intros row Hnd Hk; cbn in *; [discriminate |].
  inversion Hnd as [| ? ? Hnotin Hnd']; subst.
  destruct (String.eqb k' k) eqn:E.
  - injection Hk as ->. apply String.eqb_eq in E. subst k'.
    assert (Hnone : lookup k rest = None).
    { clear - Hnotin. induction rest as [| [k0 v0] r IHr]; cbn in *; [reflexivity |].
      destruct (String.eqb k0 k) eqn:E0.
      - apply String.eqb_eq in E0. subst. exfalso. apply Hnotin. now left.
      - apply IHr. intro H. apply Hnotin. now right. }
    fold (update (set_item k v row) rest).
    rewrite lookup_update_absent by exact Hnone.
    now rewrite lookup_set_item, String.eqb_refl.
  - now apply IH.
Qed.

(** The wallet with a single deposit has features that are not finite: the
    three sample statistics are NaN in the vector that leaves the
    extractor. *)
Lemma single_deposit_features_not_finite :
  exists row,
    extract_features sqrt_approx (Rows [sample_tx "0xa" "deposit" "USDC" 100 86400])
    = Ok [row]
    /\ lookup "transaction_std" (fr_features row) = Some NaN
    /\ lookup "position_size_variance" (fr_features row) = Some NaN
    /\ lookup "activity_consistency_cv" (fr_features row) = Some NaN
    /\ ~ all_finite row.
Proof.
  eexists. split; [vm_compute; reflexivity |].
  split; [reflexivity |]. split; [reflexivity |]. split; [reflexivity |].
  unfold all_finite. intro H. rewrite Forall_forall in H.
  specialize (H ("transaction_std", NaN)). cbn in H.
  assert (Hf : false = true) by (apply H; intuition).
  discriminate.
Qed.

(* ================================================================= *)
(** ** The risk adjuster *)

Lemma fl_mul_1_r (a : fl) : fl_mul a (Fin 1) = a.
Proof.
  destruct a as [| | [n d] |]; try reflexivity.
  cbn. unfold Qmult. cbn. now rewrite Z.mul_1_r, Pos.mul_1_r.
Qed.

Lemma length_update_where (mask : list bool) (f : fl -> fl) (col : list fl) :
  length (update_where mask f col) = length col.
Proof.
  revert mask. induction col as [| x xs IH]; intros [| b bs]; cbn; auto.
Qed.




Lemma length_cluster_adjust (risk_clusters : list nat) (features_df : list feature_row)
    (risk : list fl) (cluster : nat) :
  length (cluster_adjust risk_clusters features_df risk cluster) = length risk.
Proof.
  unfold cluster_adjust.
  destruct (0 <? _)%nat; [| reflexivity].
  destruct (fl_gtb _ _); [apply length_update_where |].
  destruct (fl_ltb _ _); [apply length_update_where | reflexivity].
Qed.







(* ================================================================= *)
(** ** Empty input *)

Lemma stdout_print_lines (lines : list string) (w : world) :
  stdout (print_lines lines w) = stdout w ++ lines.
Proof.
  unfold print_lines. revert w.
  induction lines as [| l ls IH]; intro w; cbn [fold_left].
  - now rewrite app_nil_r.
  - rewrite IH. cbn [print stdout]. now rewrite <- app_assoc.
Qed.

Lemma files_print_lines (lines : list string) (w : world) :
  files (print_lines lines w) = files w.
Proof.
  unfold print_lines. revert w.
  induction lines as [| l ls IH]; intro w; cbn [fold_left]; [reflexivity |].
  now rewrite IH.
Qed.

(** C8, as amended.  When the loader returns an empty table, [main] prints
    "Failed to load data. Exiting." after its three header lines and the
    lines of the loader, writes no file, and returns: no exception leaves
    it, nothing is scored, and the exit status is 0.  [score_wallets] on a
    table that has the columns and no row prints "No features extracted.
    Check input data." and returns the empty result; on the frame without
    columns, which is what the loader returns, it raises KeyError, and
    [main] does not call it there. *)
Theorem empty_input_reported_and_status_zero
    (sqrtQ : Q -> Q)
    (robust_fit : list (list Q) -> list (Q * Q))
    (anomaly_fit_predict : list (list fl) -> result (list Z))
    (cluster_fit_predict : list (list fl) -> result (list nat))
    (np_percentile : list fl -> Q -> fl)
    (load_and_transform : string -> list string * frame)
    (data_summary : list transaction -> list string * option string)
    (input output : string) (w : world) :
  empty (snd (load_and_transform input)) = true ->
  (exists w',
      main sqrtQ robust_fit anomaly_fit_predict cluster_fit_predict np_percentile
           load_and_transform data_summary input output w = (w', Returned)
      /\ stdout w' = stdout w ++ [ "=== DeFi Credit Scoring System ===";
                                   ("Input file: " ++ input)%string;
                                   ("Output file: " ++ output)%string ]
                              ++ fst (load_and_transform input)
                              ++ [ "Failed to load data. Exiting." ]
      /\ files w' = files w
      /\ exit_status Returned = 0%Z)
  /\ score_wallets sqrtQ robust_fit anomaly_fit_predict cluster_fit_predict
                   np_percentile (Rows []) w
     = (print "No features extracted. Check input data."
              (print "Extracting features..." w), Ok [])
  /\ score_wallets sqrtQ robust_fit anomaly_fit_predict cluster_fit_predict
                   np_percentile NoColumns w
     = (print "Extracting features..." w, Raise "KeyError").
Proof.
  intro Hempty. split; [| split; reflexivity].
  unfold main, load_data.
  destruct (load_and_transform input) as [lines df]. cbn [fst snd] in *.
  destruct df as [| [| t rows]]; try discriminate Hempty;
    (eexists; split; [reflexivity |];
     cbn [print stdout files]; rewrite stdout_print_lines, files_print_lines;
     cbn [print stdout files]; rewrite <- !app_assoc; cbn [app]; auto).
Qed.

Lemma empty_input_reported_and_status_zero_witness :
  (exists w',
      main sqrt_approx robust_fit_iqr no_outlier one_cluster percentile_linear
           load_nothing short_summary "transactions.json" "wallet_scores.csv" empty_world
      = (w', Returned)
      /\ stdout w' = stdout empty_world
                     ++ [ "=== DeFi Credit Scoring System ===";
                          "Input file: transactions.json";
                          "Output file: wallet_scores.csv" ]
                     ++ [ "Loading Aave transaction data from transactions.json...";
                          "Loaded 0 raw transactions";
                          "Successfully transformed 0 transactions for 0 unique wallets" ]
                     ++ [ "Failed to load data. Exiting." ]
      /\ files w' = files empty_world
      /\ exit_status Returned = 0%Z)
  /\ score_wallets sqrt_approx robust_fit_iqr no_outlier one_cluster percentile_linear
                   (Rows []) empty_world
     = (print "No features extracted. Check input data."
              (print "Extracting features..." empty_world), Ok [])
  /\ score_wallets sqrt_approx robust_fit_iqr no_outlier one_cluster percentile_linear
                   NoColumns empty_world
     = (print "Extracting features..." empty_world, Raise "KeyError").
Proof.
  apply (empty_input_reported_and_status_zero
           sqrt_approx robust_fit_iqr no_outlier one_cluster percentile_linear
           load_nothing short_summary "transactions.json" "wallet_scores.csv"
           empty_world).
  reflexivity.
Defined.

(** On an empty table the process ends with status 0, not with a non-zero
    status. *)
Lemma empty_input_exit_status_not_nonzero :
  empty (snd (load_nothing "transactions.json")) = true
  /\ ~ (exit_status
          (snd (main sqrt_approx robust_fit_iqr no_outlier one_cluster percentile_linear
                     load_nothing short_summary
                     "transactions.json" "wallet_scores.csv" empty_world))
        <> 0%Z).
Proof.
  split; [reflexivity |]. intro H. apply H. reflexivity.
Qed.

(* ================================================================= *)
(** ** The scores the pipeline produces are finite *)

Lemma _apply_heuristic_bonuses_finite (features : series) :
  get features "liquidation_count" (Fin 0) <> PInf ->
  is_finite (_apply_heuristic_bonuses features) = true.
Proof.
  unfold _apply_heuristic_bonuses.
  generalize (get features "tenure_days" (Fin 0)); intro tenure.
  generalize (get features "total_transactions" (Fin 0)); intro txs.
  generalize (get features "unique_assets" (Fin 0)); intro assets.
  generalize (get features "repay_ratio" (Fin 0)); intro ratio.
  generalize (get features "borrow_count" (Fin 0)); intro borrows.
  generalize (get features "bot_like_regularity" (Fin 0)); intro bot.
  generalize (get features "liquidation_count" (Fin 0)); intros liq Hliq.
  destruct (fl_gtb tenure (Fin 365)); [| destruct (fl_gtb tenure (Fin 180))];
    (destruct (fl_gtb txs (Fin 50)); [| destruct (fl_gtb txs (Fin 20))]);
    (destruct (fl_gtb assets (Fin 5)); [| destruct (fl_gtb assets (Fin 3))]);
    destruct (fl_geb ratio (Fin 1) && fl_gtb borrows (Fin 0));
    destruct (fl_gtb bot (Fin (7 # 10)));
    (destruct liq as [| | l |];
     [ | | unfold fl_gtb at 1; cbn [fl_ltb]; destruct (Qltb 0 l) | contradiction ]);
    reflexivity.
Qed.

Lemma _calculate_weighted_score_finite (scaled raw : series) :
  (forall k v, lookup k scaled = Some v -> is_nan v = false) ->
  get raw "liquidation_count" (Fin 0) <> PInf ->
  is_finite (_calculate_weighted_score scaled raw) = true.
Proof.
  intros Hs Hliq. unfold _calculate_weighted_score.
  destruct (weighted_sum_bound _define_feature_weights scaled Hs 500) as [b [Hb _]].
  rewrite Hb.
  pose proof (_apply_heuristic_bonuses_finite raw Hliq) as Hf.
  now destruct (_apply_heuristic_bonuses raw).
Qed.

Lemma for_each_ok {A B : Type} (f : A -> result B) (xs : list A) (ys : list B) :
  for_each f xs = Ok ys -> Forall2 (fun x y => f x = Ok y) xs ys.
Proof.
  revert ys. induction xs as [| x rest IH]; intros ys H; cbn in H.
  - apply Ok_inj in H. subst. constructor.
  - apply bind_ok in H. destruct H as [y [Hy H]].
    apply bind_ok in H. destruct H as [ys' [Hys H]].
    apply Ok_inj in H. subst ys. constructor; [exact Hy | now apply IH].
Qed.

(** The count of liquidations of a wallet is a natural number. *)
Lemma _extract_wallet_features_liquidation_count (sqrtQ : Q -> Q)
    (w : string) (df : list transaction) (row : feature_row) :
  _extract_wallet_features sqrtQ w df = Ok row ->
  lookup "liquidation_count" (fr_features row)
  = Some (of_nat (action_count "liquidationcall" df)).
Proof.
  unfold _extract_wallet_features. intro H.
  apply bind_ok in H. destruct H as [temporal [Ht H]].
  apply Ok_inj in H. subst row. cbn [fr_features].
  assert (Hnone : lookup "liquidation_count" temporal = None).
  { apply _extract_temporal_features_Ok in Ht.
    destruct Ht as [_ [m [_ ->]]]. reflexivity. }
  rewrite lookup_update_absent by reflexivity.
  rewrite lookup_update_absent by exact Hnone.
  rewrite lookup_update_absent by reflexivity.
  apply lookup_update_present; [| reflexivity].
  cbn. repeat constructor; cbn; intuition discriminate.
Qed.

Lemma extract_features_liquidation_count (sqrtQ : Q -> Q)
    (df : frame) (rows : list feature_row) :
  extract_features sqrtQ df = Ok rows ->
  Forall (fun r => get (fr_features r) "liquidation_count" (Fin 0) <> PInf) rows.
Proof.
  unfold extract_features. intro H. destruct df as [| df]; [discriminate |].
  apply for_each_ok in H.
  induction H as [| g r gs rs Hr _ IH]; constructor; [| exact IH].
  apply _extract_wallet_features_liquidation_count in Hr.
  unfold get. rewrite Hr. discriminate.
Qed.

Lemma _calculate_base_scores_finite (robust_fit : list (list Q) -> list (Q * Q))
    (features_df : list feature_row) :
  (forall X c s, In (c, s) (robust_fit X) -> ~ s == 0) ->
  Forall (fun r => get (fr_features r) "liquidation_count" (Fin 0) <> PInf) features_df ->
  Forall (fun ws => is_finite (snd ws) = true)
         (snd (_calculate_base_scores robust_fit features_df)).
Proof.
  intros Hscale Hliq. unfold _calculate_base_scores. cbn [snd].
  apply Forall_map, Forall_forall. intros [scaled_row r] Hin. cbn [fst snd].
  apply _calculate_weighted_score_finite.
  - intros k v Hl. apply lookup_In, in_combine_r in Hl.
    apply in_combine_l in Hin. unfold transform in Hin.
    apply in_map_iff in Hin. destruct Hin as [row [<- _]].
    apply transform_row_In in Hl. destruct Hl as [c [s [x [Hcs ->]]]].
    rewrite robust_scale_finite; [reflexivity | exact (Hscale _ c s Hcs)].
  - apply in_combine_r in Hin. rewrite Forall_forall in Hliq. now apply Hliq.
Qed.

Lemma update_where_finite (mask : list bool) (f : fl -> fl) (col : list fl) :
  (forall x, is_finite x = true -> is_finite (f x) = true) ->
  Forall (fun x => is_finite x = true) col ->
  Forall (fun x => is_finite x = true) (update_where mask f col).
Proof.
  intros Hf. revert mask. induction col as [| x xs IH]; intros mask Hall.
  - destruct mask; constructor.
  - inversion Hall as [| ? ? Hx Hxs]; subst.
    destruct mask as [| b bs]; cbn; [exact Hall |].
    constructor; [destruct b; auto | now apply IH].
Qed.

Lemma fl_mul_finite (x : fl) (q : Q) :
  is_finite x = true -> is_finite (fl_mul x (Fin q)) = true.
Proof. now destruct x. Qed.

Lemma cluster_adjust_finite (risk_clusters : list nat) (features_df : list feature_row)
    (risk : list fl) (cluster : nat) :
  Forall (fun x => is_finite x = true) risk ->
  Forall (fun x => is_finite x = true)
         (cluster_adjust risk_clusters features_df risk cluster).
Proof.
  intro H. unfold cluster_adjust.
  destruct (0 <? _)%nat; [| exact H].
  destruct (fl_gtb _ _);
    [apply update_where_finite; [intros; now apply fl_mul_finite | exact H] |].
  destruct (fl_ltb _ _);
    [apply update_where_finite; [intros; now apply fl_mul_finite | exact H] | exact H].
Qed.

Lemma _apply_risk_adjustments_finite
    (anomaly_fit_predict : list (list fl) -> result (list Z))
    (cluster_fit_predict : list (list fl) -> result (list nat))
    (fitted : list (Q * Q)) (scores_df : list (string * fl))
    (features_df : list feature_row) (res : list score_row) :
  Forall (fun ws => is_finite (snd ws) = true) scores_df ->
  _apply_risk_adjustments anomaly_fit_predict cluster_fit_predict
                          fitted scores_df features_df = Ok res ->
  Forall (fun r => is_finite (risk_adjusted_score r) = true) res.
Proof.
  intros Hfin H. unfold _apply_risk_adjustments in H.
  apply bind_ok in H. destruct H as [anomaly_scores [_ H]].
  apply bind_ok in H. destruct H as [risk_clusters [_ H]].
  apply Ok_inj in H. subst res.
  set (risk1 := update_where _ _ (map snd scores_df)).
  assert (H1 : Forall (fun x => is_finite x = true) risk1).
  { apply update_where_finite; [intros; now apply fl_mul_finite |].
    now apply Forall_map. }
  assert (Hloop : forall clusters risk,
             Forall (fun x => is_finite x = true) risk ->
             Forall (fun x => is_finite x = true)
                    (fold_left (cluster_adjust risk_clusters features_df) clusters risk)).
  { induction clusters as [| c cs IH]; intros risk Hr; cbn; [exact Hr |].
    apply IH. now apply cluster_adjust_finite. }
  specialize (Hloop (seq 0 5) risk1 H1).
  apply Forall_map, Forall_forall. intros [s r] Hin. cbn.
  apply in_combine_r in Hin. rewrite Forall_forall in Hloop. now apply Hloop.
Qed.

(** What [score_wallets] returns, with a scaler whose scales are not 0: the
    normalizer's output for a table of finite risk-adjusted scores. *)
Lemma score_wallets_finite sqrtQ robust_fit anomaly cluster np_percentile
    (df : frame) (w w' : world) (rows : list result_row) :
  (forall X c s, In (c, s) (robust_fit X) -> ~ s == 0) ->
  score_wallets sqrtQ robust_fit anomaly cluster np_percentile df w = (w', Ok rows) ->
  rows = []
  \/ exists scores_df res,
      scores_df <> []
      /\ Forall (fun r => is_finite (risk_adjusted_score r) = true) scores_df
      /\ _normalize_scores np_percentile scores_df = Ok res
      /\ map scored rows = res.
Proof.
  intros Hscale H. unfold score_wallets in H.
  destruct (extract_features sqrtQ df) as [features_df | e] eqn:Hx; [| discriminate].
  destruct (length features_df =? 0)%nat.
  - left. now injection H as _ <-.
  - pose proof (_calculate_base_scores_finite robust_fit features_df Hscale
                  (extract_features_liquidation_count _ _ _ Hx)) as Hbase.
    destruct (_calculate_base_scores robust_fit features_df) as [fitted base].
    destruct (_apply_risk_adjustments anomaly cluster fitted base features_df)
      as [scores_df | e] eqn:Hr; [| discriminate].
    apply _apply_risk_adjustments_finite in Hr; [| exact Hbase].
    destruct (_normalize_scores np_percentile scores_df) as [res | e] eqn:Hn;
      [| discriminate].
    injection H as _ <-.
    destruct scores_df as [| s0 ss].
    + left. unfold _normalize_scores in Hn. cbn in Hn. discriminate.
    + right. exists (s0 :: ss), res.
      split; [discriminate |]. split; [exact Hr |]. split; [exact Hn |].
      apply map_scored_merge.
Qed.

(* ================================================================= *)
(** ** The normalizer: the 500 default and the overrides *)

(** C3.  (1) When the clipped risk-adjusted scores are all the same, every
    wallet gets exactly 500 before the overrides.  (2) A wallet whose base
    score is below 200 ends with a credit score of at most 300: in any table
    of finite risk-adjusted scores, and so in every row [score_wallets]
    returns (the scaler's scales being non-zero, as scikit-learn makes them).
    (3) A wallet whose base score is above 800 ends with a credit score of
    at least 700. *)
Theorem normalizer_overrides (np_percentile : list fl -> Q -> fl) :
  (forall scores : list fl,
      scores <> [] ->
      (forall x y,
          In x (map (fun s => np_clip s (np_percentile scores 1) (np_percentile scores 99))
                    scores) ->
          In y (map (fun s => np_clip s (np_percentile scores 1) (np_percentile scores 99))
                    scores) ->
          feq x y) ->
      normalized_scores np_percentile scores = Ok (map (fun _ => Fin 500) scores))
  /\ (forall scores_df : list score_row,
         scores_df <> [] ->
         Forall (fun r => is_finite (risk_adjusted_score r) = true) scores_df ->
         exists res,
           _normalize_scores np_percentile scores_df = Ok res
           /\ map scores res = scores_df
           /\ Forall (fun r => fl_ltb (base_score (scores r)) (Fin 200) = true ->
                               fl_leb (credit_score r) (Fin 300) = true) res)
  /\ (forall scores_df : list score_row,
         scores_df <> [] ->
         exists res,
           _normalize_scores np_percentile scores_df = Ok res
           /\ map scores res = scores_df
           /\ Forall (fun r => fl_gtb (base_score (scores r)) (Fin 800) = true ->
                               fl_leb (Fin 700) (credit_score r) = true) res)
  /\ (forall sqrtQ robust_fit anomaly_fit_predict cluster_fit_predict df w,
         (forall X c s, In (c, s) (robust_fit X) -> ~ s == 0) ->
         Forall (fun r =>
                   (fl_ltb (base_score (scores (scored r))) (Fin 200) = true ->
                    fl_leb (credit_score (scored r)) (Fin 300) = true)
                   /\ (fl_gtb (base_score (scores (scored r))) (Fin 800) = true ->
                       fl_leb (Fin 700) (credit_score (scored r)) = true))
                (rows_of (snd (score_wallets sqrtQ robust_fit anomaly_fit_predict
                                             cluster_fit_predict np_percentile df w)))).
Proof.
  assert (Hlow : forall scores_df res,
             Forall (fun r => is_finite (risk_adjusted_score r) = true) scores_df ->
             _normalize_scores np_percentile scores_df = Ok res ->
             Forall (fun r => fl_ltb (base_score (scores r)) (Fin 200) = true ->
                              fl_leb (credit_score r) (Fin 300) = true) res).
  { intros scores_df res Hfin Hres. unfold _normalize_scores in Hres.
    apply bind_ok in Hres. destruct Hres as [ns [Hns Hres]].
    apply Ok_inj in Hres. subst res.
    apply normalized_scores_finite in Hns; [| now apply Forall_map].
    apply Forall_map, Forall_forall. intros [r s] Hin. cbn. intro Hb.
    apply final_score_low; [exact Hb |].
    apply in_combine_r in Hin. rewrite Forall_forall in Hns.
    specialize (Hns s Hin). now destruct s. }
  assert (Hhigh : forall scores_df res,
             _normalize_scores np_percentile scores_df = Ok res ->
             Forall (fun r => fl_gtb (base_score (scores r)) (Fin 800) = true ->
                              fl_leb (Fin 700) (credit_score r) = true) res).
  { intros scores_df res Hres. unfold _normalize_scores in Hres.
    apply bind_ok in Hres. destruct Hres as [ns [Hns Hres]].
    apply Ok_inj in Hres. subst res.
    apply Forall_map, Forall_forall. intros [r s] Hin. cbn.
    apply final_score_high. }
  split; [| split; [| split]].
  - apply normalized_scores_identical.
  - intros scores_df Hne Hfin.
    destruct (_normalize_scores_returns np_percentile scores_df Hne) as [res Hres].
    exists res. split; [exact Hres |].
    split; [apply _normalize_scores_rows in Hres; tauto |].
    now apply (Hlow scores_df).
  - intros scores_df Hne.
    destruct (_normalize_scores_returns np_percentile scores_df Hne) as [res Hres].
    exists res. split; [exact Hres |].
    split; [apply _normalize_scores_rows in Hres; tauto |].
    now apply (Hhigh scores_df).
  - intros sqrtQ robust_fit anomaly cluster df w Hscale.
    destruct (score_wallets sqrtQ robust_fit anomaly cluster np_percentile df w)
      as [w' [rows | e]] eqn:H; cbn [snd rows_of]; [| constructor].
    apply score_wallets_finite in H; [| exact Hscale].
    destruct H as [-> | [scores_df [res [Hne [Hfin [Hres Hrows]]]]]]; [constructor |].
    pose proof (Hlow _ _ Hfin Hres) as H1. pose proof (Hhigh _ _ Hres) as H2.
    rewrite <- Hrows in H1, H2. rewrite Forall_map in H1, H2.
    rewrite Forall_forall in *. intros r Hr. split; [now apply H1 | now apply H2].
Qed.

Lemma normalizer_overrides_witness :
  normalized_scores percentile_linear [Fin 640; Fin 640; Fin 640]
    = Ok [Fin 500; Fin 500; Fin 500]
  /\ (exists res,
         _normalize_scores percentile_linear sample_scores = Ok res
         /\ map scores res = sample_scores
         /\ Forall (fun r => fl_ltb (base_score (scores r)) (Fin 200) = true ->
                             fl_leb (credit_score r) (Fin 300) = true) res)
  /\ (exists res,
         _normalize_scores percentile_linear sample_scores = Ok res
         /\ map scores res = sample_scores
         /\ Forall (fun r => fl_gtb (base_score (scores r)) (Fin 800) = true ->
                             fl_leb (Fin 700) (credit_score r) = true) res)
  /\ Forall (fun r =>
               (fl_ltb (base_score (scores (scored r))) (Fin 200) = true ->
                fl_leb (credit_score (scored r)) (Fin 300) = true)
               /\ (fl_gtb (base_score (scores (scored r))) (Fin 800) = true ->
                   fl_leb (Fin 700) (credit_score (scored r)) = true))
            (rows_of (snd (score_wallets sqrt_approx robust_fit_iqr no_outlier
                                         one_cluster percentile_linear
                                         (Rows sample_table) empty_world))).
Proof.
  split; [| split; [| split]].
  - apply (proj1 (normalizer_overrides percentile_linear) [Fin 640; Fin 640; Fin 640]).
    + discriminate.
    + intros x y Hx Hy. vm_compute in Hx, Hy.
      destruct Hx as [<- | [<- | [<- | []]]];
        destruct Hy as [<- | [<- | [<- | []]]]; vm_compute; reflexivity.
  - apply (proj1 (proj2 (normalizer_overrides percentile_linear)) sample_scores).
    + discriminate.
    + repeat constructor.
  - apply (proj1 (proj2 (proj2 (normalizer_overrides percentile_linear))) sample_scores).
    discriminate.
  - apply (proj2 (proj2 (proj2 (normalizer_overrides percentile_linear)))).
    intro X. apply robust_fit_iqr_scale.
Defined.

(* ================================================================= *)
(** * Further properties *)

(** ** The feature extractor: one vector per wallet *)

Section SortedByLeb.

Context {A : Type} (leb : A -> A -> bool).
Hypothesis leb_total : forall a b, leb a b = true \/ leb b a = true.

Lemma HdRel_insert_leb (y x : A) (l : list A) :
  HdRel (fun a b => leb a b = true) y l -> leb y x = true ->
  HdRel (fun a b => leb a b = true) y (insert leb x l).
Proof.
  intros Hl Hyx. destruct l as [| z zs]; cbn.
  - now constructor.
  - destruct (leb x z); constructor; [exact Hyx |]. now inversion Hl.
Qed.

Lemma Sorted_insert (x : A) (l : list A) :
  Sorted (fun a b => leb a b = true) l ->
  Sorted (fun a b => leb a b = true) (insert leb x l).
Proof.
  induction l as [| y ys IH]; intro Hs; cbn.
  - repeat constructor.
  - inversion Hs as [| ? ? Hys Hhd]; subst.
    destruct (leb x y) eqn:E.
    + constructor; [exact Hs | now constructor].
    + constructor; [now apply IH |].
      apply HdRel_insert_leb; [exact Hhd |].
      destruct (leb_total x y) as [H | H]; [congruence | exact H].
Qed.

Lemma Sorted_sorted (l : list A) : Sorted (fun a b => leb a b = true) (sorted leb l).
Proof.
  induction l as [| x xs IH]; [constructor |].
  rewrite sorted_cons. now apply Sorted_insert.
Qed.

End SortedByLeb.

Lemma for_each_all_ok {A B : Type} (f : A -> result B) (xs : list A) :
  (forall x, In x xs -> exists y, f x = Ok y) ->
  exists ys, for_each f xs = Ok ys.
Proof.
  induction xs as [| x rest IH]; intro H; cbn.
  - now exists [].
  - destruct (H x) as [y Hy]; [now left |].
    destruct IH as [ys Hys]; [intros; apply H; now right |].
    rewrite Hy, Hys. cbn. now eexists.
Qed.

Lemma for_each_raise {A B : Type} (f : A -> result B) (xs : list A) (e : string) :
  (forall x, In x xs -> (exists y, f x = Ok y) \/ f x = Raise e) ->
  (exists x, In x xs /\ f x = Raise e) ->
  for_each f xs = Raise e.
Proof.
  induction xs as [| x rest IH]; intros Hall [x0 [Hin Hx0]]; [contradiction |].
  cbn [for_each].
  destruct (Hall x (or_introl eq_refl)) as [[y Hy] | Hy]; rewrite Hy; cbn [bind];
    [| reflexivity].
  rewrite IH; [reflexivity | |].
  - intros z Hz. apply Hall. now right.
  - destruct Hin as [-> | Hin]; [congruence |]. now exists x0.
Qed.

Lemma _extract_wallet_features_returns (sqrtQ : Q -> Q) (w : string)
    (df : list transaction) :
  df <> [] -> all_dated df \/ all_undated df ->
  exists row, _extract_wallet_features sqrtQ w df = Ok row
              /\ fr_wallet_address row = w.
Proof.
  intros Hne Hd. unfold _extract_wallet_features.
  destruct (_extract_temporal_features_returns sqrtQ df Hne Hd) as [temporal ->].
  cbn. eexists. split; reflexivity.
Qed.

Lemma _extract_wallet_features_mixed (sqrtQ : Q -> Q) (w : string)
    (df : list transaction) (t t' : transaction) :
  In t df -> timestamp t = None ->
  In t' df -> timestamp t' <> None ->
  _extract_wallet_features sqrtQ w df = Raise "TypeError".
Proof.
  intros Ht Hn Ht' Hs. unfold _extract_wallet_features.
  now rewrite (_extract_temporal_features_mixed sqrtQ df t t').
Qed.

(** A group of rows with the features of its wallet, or with TypeError. *)
Lemma _extract_wallet_features_cases (sqrtQ : Q -> Q) (w : string)
    (df : list transaction) :
  df <> [] ->
  (exists row, _extract_wallet_features sqrtQ w df = Ok row)
  \/ _extract_wallet_features sqrtQ w df = Raise "TypeError".
Proof.
  intro Hne.
  destruct (dated_or_not df) as [Hd | [Hu | [t [t' [Ht [Hn [Ht' Hs]]]]]]].
  - left. destruct (_extract_wallet_features_returns sqrtQ w df Hne (or_introl Hd))
      as [row [H _]]. now exists row.
  - left. destruct (_extract_wallet_features_returns sqrtQ w df Hne (or_intror Hu))
      as [row [H _]]. now exists row.
  - right. now apply (_extract_wallet_features_mixed sqrtQ w df t t').
Qed.

Lemma _extract_wallet_features_address (sqrtQ : Q -> Q) (w : string)
    (df : list transaction) (row : feature_row) :
  _extract_wallet_features sqrtQ w df = Ok row -> fr_wallet_address row = w.
Proof.
  unfold _extract_wallet_features. intro H.
  apply bind_ok in H. destruct H as [temporal [_ H]].
  apply Ok_inj in H. now subst row.
Qed.

Lemma groupby_wallet_keys (df : list transaction) :
  map fst (groupby_wallet df) = sorted String.leb (unique String.eqb (map wallet df)).
Proof.
  unfold groupby_wallet. rewrite map_map. cbn. apply map_id.
Qed.

Lemma groupby_wallet_group (df : list transaction) (w : string) (g : list transaction) :
  In (w, g) (groupby_wallet df) ->
  g = filter (fun t => String.eqb (wallet t) w) df /\ g <> [].
Proof.
  unfold groupby_wallet. intro H. apply in_map_iff in H.
  destruct H as [w' [H Hin]]. injection H as -> <-. split; [reflexivity |].
  rewrite In_sorted_any in Hin.
  rewrite (In_unique String.eqb String.eqb_eq) in Hin.
  apply in_map_iff in Hin. destruct Hin as [t [Ht Hin]].
  intro Hnil.
  assert (Hf : In t (filter (fun t => String.eqb (wallet t) w) df)).
  { apply filter_In. split; [exact Hin |]. now rewrite Ht, String.eqb_refl. }
  rewrite Hnil in Hf. contradiction.
Qed.

Lemma Forall2_map_fst {A B C : Type} (f : A -> C) (g : B -> C)
    (xs : list A) (ys : list B) :
  Forall2 (fun x y => g y = f x) xs ys -> map g ys = map f xs.
Proof.
  induction 1 as [| x y xs ys H _ IH]; cbn; [reflexivity | now rewrite H, IH].
Qed.

Lemma all_dated_not_mixed (df : list transaction) :
  all_dated df -> ~ mixes_dates df.
Proof.
  intros Hd [t [t' [Ht [_ [_ [Hn _]]]]]].
  unfold all_dated in Hd. rewrite Forall_forall in Hd. now apply (Hd t Ht).
Qed.

Lemma extract_features_returns (sqrtQ : Q -> Q) (df : list transaction) :
  ~ mixes_dates df -> exists rows, extract_features sqrtQ (Rows df) = Ok rows.
Proof.
  intro Hmix. unfold extract_features.
  apply (for_each_all_ok
           (fun g => _extract_wallet_features sqrtQ (fst g) (snd g))
           (groupby_wallet df)).
  intros [w g] Hin. apply groupby_wallet_group in Hin. destruct Hin as [Hg Hne].
  cbn [fst snd].
  destruct (dated_or_not g) as [Hd | [Hu | [t [t' [Ht [Hn [Ht' Hs]]]]]]].
  - destruct (_extract_wallet_features_returns sqrtQ w g Hne (or_introl Hd))
      as [row [Hrow _]]. now exists row.
  - destruct (_extract_wallet_features_returns sqrtQ w g Hne (or_intror Hu))
      as [row [Hrow _]]. now exists row.
  - exfalso. apply Hmix. subst g.
    apply filter_In in Ht, Ht'. destruct Ht as [Ht Hw], Ht' as [Ht' Hw'].
    apply String.eqb_eq in Hw, Hw'.
    exists t, t'. repeat split; try assumption. congruence.
Qed.

Lemma extract_features_raises (sqrtQ : Q -> Q) (df : list transaction) :
  mixes_dates df -> extract_features sqrtQ (Rows df) = Raise "TypeError".
Proof.
  intros [t [t' [Ht [Ht' [Hw [Hn Hs]]]]]]. unfold extract_features.
  apply for_each_raise.
  - intros [w g] Hin. apply groupby_wallet_group in Hin. destruct Hin as [_ Hne].
    now apply _extract_wallet_features_cases.
  - exists (wallet t, filter (fun x => String.eqb (wallet x) (wallet t)) df).
    split.
    + unfold groupby_wallet. apply in_map_iff. exists (wallet t).
      split; [reflexivity |]. rewrite In_sorted_any.
      apply (In_unique String.eqb String.eqb_eq). now apply in_map.
    + cbn [fst snd].
      apply (_extract_wallet_features_mixed sqrtQ _ _ t t'); try assumption.
      * apply filter_In. split; [exact Ht | apply String.eqb_refl].
      * apply filter_In. split; [exact Ht' |]. rewrite <- Hw. apply String.eqb_refl.
Qed.

Lemma extract_features_keys (sqrtQ : Q -> Q) (df : list transaction)
    (rows : list feature_row) :
  extract_features sqrtQ (Rows df) = Ok rows ->
  map fr_wallet_address rows = sorted String.leb (unique String.eqb (map wallet df)).
Proof.
  unfold extract_features. intro Hrows.
  rewrite <- groupby_wallet_keys. apply for_each_ok in Hrows.
  apply Forall2_map_fst. eapply Forall2_impl; [| exact Hrows].
  intros [w g] row H. now apply _extract_wallet_features_address in H.
Qed.

(** X1.  On a table that has the columns, [extract_features] returns unless
    some wallet has a row with a timestamp and a row without one; it then
    raises TypeError, whatever the other wallets are.  When it returns, it
    gives one feature vector per distinct wallet address of the table, each
    address once, in increasing order.  On the frame without columns it
    raises KeyError. *)
Theorem extract_features_one_row_per_wallet (sqrtQ : Q -> Q) (df : list transaction) :
  (mixes_dates df -> extract_features sqrtQ (Rows df) = Raise "TypeError")
  /\ (~ mixes_dates df ->
      exists rows,
        extract_features sqrtQ (Rows df) = Ok rows
        /\ NoDup (map fr_wallet_address rows)
        /\ (forall w, In w (map fr_wallet_address rows) <-> In w (map wallet df))
        /\ Sorted (fun a b => String.leb a b = true) (map fr_wallet_address rows))
  /\ extract_features sqrtQ NoColumns = Raise "KeyError".
Proof.
  split; [apply extract_features_raises |]. split; [| reflexivity].
  intro Hmix.
  destruct (extract_features_returns sqrtQ df Hmix) as [rows Hrows].
  exists rows. split; [exact Hrows |].
  rewrite (extract_features_keys sqrtQ df rows Hrows). split; [| split].
  - apply NoDup_sorted, (NoDup_unique_any String.eqb String.eqb_eq).
  - intro w. rewrite In_sorted_any. apply (In_unique String.eqb String.eqb_eq).
  - apply Sorted_sorted, String.leb_total.
Qed.

Lemma extract_features_one_row_per_wallet_witness :
  extract_features sqrt_approx
    (Rows [ sample_tx "0xb" "deposit" "USDC" 100 86400;
            undated_tx "0xa" "deposit" "USDC" 100;
            sample_tx "0xa" "deposit" "USDC" 50 86400 ])
  = Raise "TypeError"
  /\ map fr_wallet_address (rows_of (extract_features sqrt_approx (Rows six_wallets)))
     = ["0xa"; "0xb"; "0xc"; "0xd"; "0xe"; "0xf"]
  /\ exists rows,
       extract_features sqrt_approx (Rows six_wallets) = Ok rows
       /\ NoDup (map fr_wallet_address rows)
       /\ (forall w, In w (map fr_wallet_address rows) <-> In w (map wallet six_wallets))
       /\ Sorted (fun a b => String.leb a b = true) (map fr_wallet_address rows).
Proof.
  split; [| split].
  - apply (proj1 (extract_features_one_row_per_wallet sqrt_approx _)).
    exists (undated_tx "0xa" "deposit" "USDC" 100),
           (sample_tx "0xa" "deposit" "USDC" 50 86400).
    repeat split; cbn; auto. discriminate.
  - vm_compute. reflexivity.
  - apply (proj1 (proj2 (extract_features_one_row_per_wallet sqrt_approx six_wallets))).
    apply all_dated_not_mixed. repeat constructor; discriminate.
Defined.

(** X2.  Every feature vector has the same 44 columns, in the same order and
    without a repeated name, so the table built from the vectors has no
    missing cell. *)
Theorem feature_vector_columns (sqrtQ : Q -> Q) (df : frame)
    (rows : list feature_row) :
  extract_features sqrtQ df = Ok rows ->
  Forall (fun r =>
            map fst (fr_features r)
            = [ "total_transactions"; "total_volume"; "avg_transaction_size";
                "median_transaction_size"; "max_transaction_size";
                "min_transaction_size"; "transaction_std"; "unique_assets";
                "total_gas_used"; "avg_gas_per_tx";
                "deposit_count"; "borrow_count"; "repay_count"; "redeem_count";
                "liquidation_count"; "deposit_volume"; "borrow_volume";
                "repay_volume"; "redeem_volume"; "net_deposit_volume";
                "leverage_ratio"; "repay_ratio"; "asset_concentration_hhi";
                "avg_position_size";
                "liquidation_frequency"; "liquidation_volume_ratio";
                "has_liquidations"; "repay_consistency_score";
                "position_size_variance"; "max_single_position_ratio";
                "tenure_days"; "activity_frequency"; "activity_consistency_cv";
                "avg_time_between_tx_hours"; "median_time_between_tx_hours";
                "weekend_activity_ratio"; "days_active"; "max_inactive_days";
                "gas_efficiency_score"; "gas_optimization_score";
                "action_diversity_score"; "bot_like_regularity";
                "unique_gas_prices"; "transaction_complexity_score" ]
            /\ length (fr_features r) = 44%nat
            /\ NoDup (map fst (fr_features r)))
         rows.
Proof.
  unfold extract_features. intro H. destruct df as [| df]; [discriminate |].
  apply for_each_ok in H.
  induction H as [| [w g] row gs rs Hrow _ IH]; constructor; [| exact IH].
  unfold _extract_wallet_features in Hrow. cbn [fst snd] in Hrow.
  apply bind_ok in Hrow. destruct Hrow as [temporal [Ht Hrow]].
  apply Ok_inj in Hrow. subst row. cbn [fr_features].
  apply _extract_temporal_features_Ok in Ht. destruct Ht as [_ [m [_ ->]]].
  match goal with
  | |- ?keys = ?names /\ _ /\ _ => assert (Hk : keys = names) by reflexivity
  end.
  split; [exact Hk |]. split.
  - rewrite <- (length_map fst), Hk. reflexivity.
  - rewrite Hk. repeat constructor; cbn; intuition discriminate.
Qed.

Lemma feature_vector_columns_witness :
  Forall (fun r => length (fr_features r) = 44%nat)
         (rows_of (extract_features sqrt_approx
                     (Rows [sample_tx "0xa" "deposit" "USDC" 100 0]))).
Proof.
  eapply Forall_impl;
    [| apply (feature_vector_columns sqrt_approx
                (Rows [sample_tx "0xa" "deposit" "USDC" 100 0])); reflexivity].
  intros r H. apply H.
Defined.

(* ================================================================= *)
(** ** The feature extractor: what the features satisfy *)

Lemma daily_activity_single (t : transaction) (ts : Z) :
  timestamp t = Some ts -> daily_activity [t] = [1].
Proof.
  intro H. unfold daily_activity, dt_date. cbn [map]. rewrite H. cbn.
  now rewrite Z.eqb_refl.
Qed.

(** X3.  A wallet with a single transaction gets its temporal features
    without an exception.  When the transaction has a timestamp: a tenure of
    0 days, an activity frequency of 1, one active day and a coefficient of
    variation of the daily activity that is NaN.  When it has none: a tenure
    and an activity frequency that are NaN, no active day and a coefficient
    of 0.  In both cases: no inactive day, a time between transactions of 0
    and a bot-like regularity of 0. *)
Theorem single_transaction_temporal_features (sqrtQ : Q -> Q) (t : transaction) :
  exists temporal,
    _extract_temporal_features sqrtQ [t] = Ok temporal
    /\ lookup "tenure_days" temporal
       = Some (if is_NaT (timestamp t) then NaN else Fin 0)
    /\ lookup "activity_frequency" temporal
       = Some (if is_NaT (timestamp t) then NaN else Fin 1)
    /\ lookup "days_active" temporal
       = Some (if is_NaT (timestamp t) then Fin 0 else Fin 1)
    /\ lookup "activity_consistency_cv" temporal
       = Some (if is_NaT (timestamp t) then Fin 0 else NaN)
    /\ lookup "max_inactive_days" temporal = Some (Fin 0)
    /\ lookup "avg_time_between_tx_hours" temporal = Some (Fin 0)
    /\ lookup "median_time_between_tx_hours" temporal = Some (Fin 0)
    /\ _detect_bot_like_patterns sqrtQ [t] = Fin 0.
Proof.
  eexists. split; [reflexivity |].
  cbn [lookup String.eqb Ascii.eqb Bool.eqb].
  destruct (timestamp t) as [ts |] eqn:E.
  - rewrite (daily_activity_single t ts E).
    unfold tenure, instants. cbn [sorted fold_right insert map]. rewrite E.
    cbn [dropna fold_left is_NaT]. rewrite Z.sub_diag.
    repeat split; reflexivity.
  - unfold daily_activity, dt_date, tenure, instants.
    cbn [sorted fold_right insert map]. rewrite E.
    repeat split; reflexivity.
Qed.

Lemma length_filter_le {A : Type} (p : A -> bool) (l : list A) :
  (length (filter p l) <= length l)%nat.
Proof.
  induction l as [| x xs IH]; cbn; [lia |]. destruct (p x); cbn; lia.
Qed.

Lemma Qlen_le {A B : Type} (l : list A) (l' : list B) :
  (length l <= length l')%nat -> Qlen l <= Qlen l'.
Proof.
  intro H. unfold Qlen. rewrite <- Zle_Qle. lia.
Qed.

Lemma Qlen_zero {A : Type} (l : list A) : Qlen l == 0 <-> l = [].
Proof.
  split.
  - intro H. destruct l as [| x xs]; [reflexivity |].
    rewrite Qlen_cons in H. pose proof (Qlen_nonneg xs). lra.
  - intros ->. reflexivity.
Qed.

Lemma action_count_rows (a : string) (df : list transaction) :
  action_count a df = count_rows a df.
Proof.
  unfold action_count, with_action.
  induction df as [| t rest IH]; [reflexivity |].
  cbn [filter count_rows].
  destruct (string_dec (action t) a) as [E | E].
  - apply String.eqb_eq in E. rewrite E. cbn [length]. now rewrite IH.
  - apply String.eqb_neq in E. rewrite E. exact IH.
Qed.

(** X4.  The liquidation features of a non-empty table agree with the rows
    of the table: with [n] rows whose action is "liquidationcall", the
    frequency is [n] over the number of rows, between 0 and 1, and 0
    exactly when [n] is 0; the flag [has_liquidations] is 0 exactly then;
    and the liquidation count is [n]. *)
Theorem liquidation_features_consistent (df : list transaction) :
  df <> [] ->
  let n := count_rows "liquidationcall" df in
  exists f,
    lookup "liquidation_frequency" (_extract_risk_features df) = Some (Fin f)
    /\ f == inject_Z (Z.of_nat n) / inject_Z (Z.of_nat (length df))
    /\ 0 <= f <= 1
    /\ (f == 0 <-> n = 0%nat)
    /\ lookup "has_liquidations" (_extract_risk_features df)
       = Some (if (n =? 0)%nat then Fin 0 else Fin 1)
    /\ lookup "liquidation_count" (_extract_financial_features df)
       = Some (Fin (inject_Z (Z.of_nat n))).
Proof.
  intros Hne n. unfold n. rewrite <- (action_count_rows "liquidationcall" df).
  eexists. split; [reflexivity |].
  assert (Hlen : (0 <? length df)%nat = true)
    by (destruct df; [contradiction | reflexivity]).
  rewrite Hlen.
  pose proof (Qlen_pos df Hne) as Hpos.
  pose proof (Qlen_nonneg (with_action "liquidationcall" df)) as Hn0.
  assert (Hle : Qlen (with_action "liquidationcall" df) <= Qlen df)
    by (apply Qlen_le, length_filter_le).
  split; [reflexivity |]. split; [| split; [| split]].
  - split.
    + apply Qle_shift_div_l; lra.
    + apply Qle_shift_div_r; lra.
  - unfold action_count. split.
    + intro H. apply length_zero_iff_nil, Qlen_zero.
      assert (Hm : Qlen (with_action "liquidationcall" df)
                   == Qlen (with_action "liquidationcall" df) / Qlen df * Qlen df)
        by (field; lra).
      rewrite Hm, H. lra.
    + intro H. apply length_zero_iff_nil in H. rewrite H. reflexivity.
  - assert (Hl : lookup "has_liquidations" (_extract_risk_features df)
                 = Some (of_bool (0 <? length (with_action "liquidationcall" df))%nat))
      by reflexivity.
    rewrite Hl. unfold action_count.
    now destruct (with_action "liquidationcall" df).
  - reflexivity.
Qed.

Lemma liquidation_features_consistent_witness :
  let df := [ sample_tx "0xc" "borrow" "DAI" 80 3600;
              sample_tx "0xc" "liquidationcall" "DAI" 80 90000 ] in
  exists f,
    lookup "liquidation_frequency" (_extract_risk_features df) = Some (Fin f)
    /\ f == 1 # 2
    /\ lookup "has_liquidations" (_extract_risk_features df) = Some (Fin 1)
    /\ lookup "liquidation_count" (_extract_financial_features df) = Some (Fin 1).
Proof.
  cbv zeta.
  destruct (liquidation_features_consistent
              [ sample_tx "0xc" "borrow" "DAI" 80 3600;
                sample_tx "0xc" "liquidationcall" "DAI" 80 90000 ])
    as [f [Hf [He [_ [_ [Hh Hc]]]]]]; [discriminate |].
  exists f. split; [exact Hf |]. split; [| split; [exact Hh | exact Hc]].
  rewrite He. reflexivity.
Defined.

Lemma asset_keys_NoDup (df : list transaction) :
  NoDup (sorted String.leb (unique String.eqb (map asset df))).
Proof.
  apply NoDup_sorted, (NoDup_unique_any String.eqb String.eqb_eq).
Qed.

Lemma asset_keys_In (df : list transaction) (t : transaction) :
  In t df -> In (asset t) (sorted String.leb (unique String.eqb (map asset df))).
Proof.
  intro H. rewrite In_sorted_any, (In_unique String.eqb String.eqb_eq).
  now apply in_map.
Qed.

Lemma groups_sum_aux (df : list transaction) :
  pd_sum (asset_volumes df) == pd_sum (amounts df)
  /\ pd_sum (daily_activity df) == Qlen (instants df).
Proof.
  split.
  - unfold asset_volumes, amounts.
    apply (groupby_sum String.eqb String.eqb_eq asset amount).
    + apply asset_keys_NoDup.
    + apply asset_keys_In.
  - unfold daily_activity. rewrite dropna_dt_date.
    set (dates := map date_of (instants df)).
    rewrite (pd_sum_map_ext _
               (fun d => pd_sum (map (fun _ => 1)
                                     (filter (fun x => (x =? d)%Z) dates)))).
    + rewrite (groupby_sum Z.eqb Zeqb_spec (fun x => x) (fun _ => 1)).
      * rewrite <- Qlen_sum. unfold dates, Qlen. now rewrite length_map.
      * apply NoDup_sorted, (NoDup_unique_any Z.eqb Zeqb_spec).
      * intros x Hx. rewrite In_sorted_any. now apply (In_unique Z.eqb Zeqb_spec).
    + intros d _. rewrite <- Qlen_sum.
      rewrite (filter_ext (Z.eqb d) (fun x => (x =? d)%Z)); [reflexivity |].
      intro x. apply Z.eqb_sym.
Qed.

Lemma daily_activity_at_least_1 (df : list transaction) :
  Forall (fun c => 1 <= c) (daily_activity df).
Proof.
  unfold daily_activity. rewrite dropna_dt_date.
  set (dates := map date_of (instants df)).
  apply Forall_map, Forall_forall. intros d Hd.
  rewrite In_sorted_any, (In_unique Z.eqb Zeqb_spec) in Hd.
  assert (Hin : In d (filter (Z.eqb d) dates))
    by (apply filter_In; split; [exact Hd | apply Z.eqb_refl]).
  destruct (filter (Z.eqb d) dates) as [| x xs]; [contradiction |].
  rewrite Qlen_cons. pose proof (Qlen_nonneg xs). lra.
Qed.

Lemma length_daily_activity (df : list transaction) :
  length (daily_activity df) = length (active_dates df).
Proof.
  unfold daily_activity, active_dates. now rewrite length_map, dropna_dt_date.
Qed.

Lemma length_instants (df : list transaction) :
  (length (instants df) <= length df)%nat
  /\ (all_dated df -> length (instants df) = length df).
Proof.
  unfold instants. split.
  - induction df as [| t rest IH]; cbn; [lia |].
    destruct (timestamp t); cbn; lia.
  - intro H. rewrite <- (length_map timestamp df), (all_dated_timestamps df H).
    now rewrite dropna_map_Some, length_map.
Qed.

(** X5.  Grouping the rows of a wallet by date loses exactly the rows
    without timestamp: the transactions per active day add up to the number
    of rows that have a timestamp, every active day has at least one, and
    there is one count per distinct date.  On a table whose rows all have a
    timestamp the counts add up to the number of transactions. *)
Theorem groups_add_up (df : list transaction) :
  pd_sum (daily_activity df) == inject_Z (Z.of_nat (length (instants df)))
  /\ Forall (fun c => 1 <= c) (daily_activity df)
  /\ length (daily_activity df) = length (active_dates df)
  /\ (length (instants df) <= length df)%nat
  /\ (all_dated df ->
      pd_sum (daily_activity df) == inject_Z (Z.of_nat (length df))).
Proof.
  destruct (groups_sum_aux df) as [_ Hd]. destruct (length_instants df) as [Hl He].
  split; [exact Hd |]. split; [apply daily_activity_at_least_1 |].
  split; [apply length_daily_activity |]. split; [exact Hl |].
  intro H. rewrite Hd. unfold Qlen. now rewrite (He H).
Qed.

(* ================================================================= *)
(** ** The feature extractor: concentration of the assets *)




Lemma asset_volumes_nonempty (df : list transaction) :
  df <> [] -> asset_volumes df <> [].
Proof.
  intros Hne Hnil. destruct df as [| t ts]; [contradiction |].
  pose proof (asset_keys_In (t :: ts) t (or_introl eq_refl)) as Hin.
  unfold asset_volumes in Hnil. apply map_eq_nil in Hnil.
  rewrite Hnil in Hin. contradiction.
Qed.




(* ================================================================= *)
(** ** The feature extractor: bounds on the longest inactive streak *)

(** X7.  On a table whose rows all have a timestamp the longest inactive
    streak is computed without an exception: it is at least 0 and at most
    the number of inactive days between the first and the last active date,
    it is 0 exactly when the active dates are consecutive days, and it does
    not depend on the order of the rows.  On a table without any timestamp
    it is 0.  On a table that has a row with a timestamp and a row without
    one the computation raises a TypeError. *)
Theorem max_inactive_period_bounds (df : list transaction) :
  (all_dated df ->
   exists m,
     _calculate_max_inactive_period df = Ok m
     /\ match active_dates df with
        | [] => m = 0%Z
        | first :: rest =>
            let inactive := (last rest first - first - Z.of_nat (length rest))%Z in
            (0 <= m <= inactive)%Z /\ (m = 0%Z <-> inactive = 0%Z)
        end
     /\ forall df', Permutation df df' -> _calculate_max_inactive_period df' = Ok m)
  /\ (all_undated df -> _calculate_max_inactive_period df = Ok 0%Z)
  /\ (forall t t',
        In t df -> timestamp t = None ->
        In t' df -> timestamp t' <> None ->
        _calculate_max_inactive_period df = Raise "TypeError").
Proof.
  split; [| split].
  - intro Hd. eexists. split; [apply (_calculate_max_inactive_period_dated df Hd) |].
    split.
    + pose proof (active_dates_strict df) as Hs.
      destruct (active_dates df) as [| first rest]; [reflexivity |].
      cbv zeta.
      pose proof (loop_on_dates_bounds rest first 0%Z 0%Z Hs ltac:(lia)) as Hb.
      pose proof (Sorted_lt_span rest first Hs) as Hspan.
      split; [lia |]. split.
      * apply loop_on_dates_zero; [exact Hs | lia].
      * intro H0. lia.
    + intros df' Hp.
      rewrite (_calculate_max_inactive_period_dated df'
                 (all_dated_Permutation df df' Hp Hd)).
      now rewrite (active_dates_Permutation df df' Hp).
  - apply _calculate_max_inactive_period_undated.
  - intros t t' Ht Hn Ht' Hs.
    exact (_calculate_max_inactive_period_mixed df t t' Ht Hn Ht' Hs).
Qed.

Lemma max_inactive_period_bounds_witness :
  _calculate_max_inactive_period
    [ sample_tx "0xd" "repay" "DAI" 5 (15 * 86400 + 100);
      sample_tx "0xd" "deposit" "USDC" 10 (10 * 86400 + 5) ]
  = Ok 4%Z
  /\ _calculate_max_inactive_period
       [ undated_tx "0xd" "deposit" "USDC" 10; undated_tx "0xd" "repay" "DAI" 5 ]
     = Ok 0%Z
  /\ _calculate_max_inactive_period undated_and_dated = Raise "TypeError".
Proof.
  split; [| split].
  - destruct (proj1 (max_inactive_period_bounds
                       [ sample_tx "0xd" "deposit" "USDC" 10 (10 * 86400 + 5);
                         sample_tx "0xd" "repay" "DAI" 5 (15 * 86400 + 100) ]))
      as [m [Hm [_ Hp]]].
    + repeat constructor; discriminate.
    + rewrite (Hp _ (perm_swap _ _ _)). rewrite <- Hm. reflexivity.
  - apply (proj1 (proj2 (max_inactive_period_bounds _))).
    repeat constructor.
  - apply (proj2 (proj2 (max_inactive_period_bounds undated_and_dated))
             (undated_tx "0xa" "deposit" "USDC" 100)
             (sample_tx "0xa" "deposit" "USDC" 50 86400)).
    + left; reflexivity.
    + reflexivity.
    + right; left; reflexivity.
    + discriminate.
Defined.

(* ================================================================= *)
(** ** The feature extractor: the scores built on a coefficient of variation *)

Lemma pd_std_cases (sqrtQ : Q -> Q) (l : list Q) :
  pd_std sqrtQ l = NaN \/ exists v, pd_std sqrtQ l = Fin (sqrtQ v).
Proof.
  unfold pd_std, pd_var. destruct l as [| x [| y ys]]; [now left | now left |].
  right. now eexists.
Qed.

(** A coefficient of variation as the program computes it, with its guard on
    the mean: NaN, or a number that is not negative. *)
Lemma guarded_cv_cases (sqrtQ : Q -> Q) (l : list Q) (default : Q) :
  (forall v, 0 <= sqrtQ v) -> 0 <= default ->
  let cv := if fl_gtb (pd_mean l) (Fin 0)
            then fl_div (pd_std sqrtQ l) (pd_mean l) else Fin default in
  cv = NaN \/ exists c, cv = Fin c /\ 0 <= c.
Proof.
  intros Hsqrt Hd. cbv zeta.
  assert (Hm : pd_mean l = NaN \/ exists m, pd_mean l = Fin m)
    by (destruct l; [now left | right; now eexists]).
  destruct Hm as [-> | [m ->]]; cbn; [right; exists default; now split |].
  destruct (Qltb 0 m) eqn:E; [| right; exists default; now split].
  apply Qltb_lt in E.
  destruct (pd_std_cases sqrtQ l) as [-> | [v ->]]; [now left |].
  right. unfold fl_div.
  assert (En : Qeq_bool m 0 = false) by (apply Qeq_bool_false; lra).
  rewrite En. eexists. split; [reflexivity |].
  apply Qle_shift_div_l; [lra |]. specialize (Hsqrt v). lra.
Qed.

Lemma one_minus_clamped (x : fl) (k : Q) :
  0 <= k ->
  x = NaN \/ (exists c, x = Fin c /\ 0 <= c) ->
  in_range 0 1 (py_max (Fin 0) (fl_sub (Fin 1) (fl_mul x (Fin k)))).
Proof.
  intros Hk [-> | [c [-> Hc]]]; unfold in_range, py_max, fl_gtb, fl_sub; cbn.
  - split; reflexivity.
  - qcases; cbn; split; qgoal; try lra; nra.
Qed.

(** X8.  With a square root that is never negative, the gas optimization
    score and the bot-like regularity are numbers between 0 and 1, never
    NaN; the gas score is 0.5 when the wallet used no gas, and the
    regularity is 0 below three transactions. *)
Theorem regularity_scores_between_0_and_1 (sqrtQ : Q -> Q) (df : list transaction) :
  (forall v, 0 <= sqrtQ v) ->
  in_range 0 1 (_calculate_gas_optimization sqrtQ df)
  /\ in_range 0 1 (_detect_bot_like_patterns sqrtQ df)
  /\ (pd_sum (map gas_used df) == 0 ->
      _calculate_gas_optimization sqrtQ df = Fin (1 # 2))
  /\ ((length df < 3)%nat -> _detect_bot_like_patterns sqrtQ df = Fin 0).
Proof.
  intro Hsqrt. split; [| split; [| split]].
  - unfold _calculate_gas_optimization.
    destruct (Qeq_bool _ 0); [split; reflexivity |].
    pose proof (guarded_cv_cases sqrtQ (map gas_used df) 1 Hsqrt ltac:(lra)) as Hcv.
    cbv zeta in Hcv.
    pose proof (one_minus_clamped _ 1 ltac:(lra) Hcv) as H.
    rewrite fl_mul_1_r in H. exact H.
  - unfold _detect_bot_like_patterns.
    destruct (length df <? 3)%nat; [split; reflexivity |].
    destruct (length _ =? 0)%nat; [split; reflexivity |].
    apply one_minus_clamped; [lra |].
    apply (guarded_cv_cases sqrtQ _ 1 Hsqrt). lra.
  - intro H0. unfold _calculate_gas_optimization.
    apply Qeq_bool_iff in H0. now rewrite H0.
  - intro Hlt. unfold _detect_bot_like_patterns.
    apply Nat.ltb_lt in Hlt. now rewrite Hlt.
Qed.

Lemma sqrt_approx_nonneg (v : Q) : 0 <= sqrt_approx v.
Proof.
  unfold sqrt_approx, Qle. cbn. rewrite Z.mul_1_r. apply Z.sqrt_nonneg.
Qed.

Lemma regularity_scores_between_0_and_1_witness :
  in_range 0 1 (_calculate_gas_optimization sqrt_approx sample_table)
  /\ in_range 0 1 (_detect_bot_like_patterns sqrt_approx sample_table).
Proof.
  destruct (regularity_scores_between_0_and_1 sqrt_approx sample_table
              sqrt_approx_nonneg) as [H1 [H2 _]].
  split; [exact H1 | exact H2].
Defined.

Lemma nunique_pos {A : Type} (eqb : A -> A -> bool) (l : list A) :
  l <> [] -> (1 <= nunique eqb l)%nat.
Proof.
  destruct l as [| x xs]; [contradiction |]. intros _. unfold nunique. cbn. lia.
Qed.

(** X9.  The complexity score of a wallet with at least one transaction is a
    number, not NaN, and more than 0.39: a fifth for its one or more kinds
    of action, the whole of the asset variety, which is always 1, and an
    amount variety that is never negative (0 when the deviation of the
    amounts is NaN), over three. *)
Theorem complexity_score_bounded_below (sqrtQ : Q -> Q) (df : list transaction) :
  df <> [] ->
  exists c, _calculate_complexity_score sqrtQ df = Fin c /\ 39 # 100 < c.
Proof.
  intro Hne. unfold _calculate_complexity_score.
  assert (Ha : 1 <= Qlen (unique String.eqb (map action df))).
  { pose proof (nunique_pos String.eqb (map action df)) as H.
    unfold nunique in H. unfold Qlen. change 1 with (inject_Z 1).
    rewrite <- Zle_Qle.
    assert (map action df <> []) by (destruct df; [contradiction | discriminate]).
    specialize (H ltac:(assumption)). lia. }
  assert (Hn : (1 <= nunique String.eqb (map asset df))%nat).
  { apply nunique_pos. destruct df; [contradiction | discriminate]. }
  rewrite (Nat.max_l _ 1) by exact Hn.
  set (n := inject_Z (Z.of_nat (nunique String.eqb (map asset df)))).
  assert (Hnq : 1 <= n).
  { unfold n. change 1 with (inject_Z 1). rewrite <- Zle_Qle. lia. }
  assert (Hone : n / n == 1) by (field; lra).
  set (av := if fl_gtb (pd_mean (amounts df)) (Fin 0) then _ else Fin 0).
  assert (Hfin : exists r, py_max (Fin 0) av = Fin r /\ 0 <= r).
  { unfold av.
    assert (Hm : pd_mean (amounts df) = NaN \/ exists m, pd_mean (amounts df) = Fin m)
      by (destruct (amounts df); [now left | right; now eexists]).
    destruct Hm as [-> | [m ->]]; cbn; [exists 0; split; [reflexivity | lra] |].
    destruct (Qltb 0 m) eqn:E; [| exists 0; split; [reflexivity | lra]].
    apply Qltb_lt in E.
    assert (En : Qeq_bool m 0 = false) by (apply Qeq_bool_false; lra).
    destruct (pd_std_cases sqrtQ (amounts df)) as [-> | [v ->]]; cbn.
    - exists 0. split; [reflexivity | lra].
    - rewrite En. unfold py_max, fl_gtb. cbn.
      destruct (Qltb 0 _) eqn:E2; [apply Qltb_lt in E2 | apply Qltb_ge in E2].
      + eexists. split; [reflexivity | lra].
      + exists 0. split; [reflexivity | lra]. }
  destruct Hfin as [r [-> Hr]]. cbn. eexists. split; [reflexivity |].
  apply Qlt_shift_div_l; [lra |].
  assert (Hfifth : 1 # 5 <= Qlen (unique String.eqb (map action df)) / 5)
    by (apply Qle_shift_div_l; lra).
  lra.
Qed.

Lemma complexity_score_bounded_below_witness :
  exists c,
    _calculate_complexity_score sqrt_approx [sample_tx "0xa" "deposit" "USDC" 100 0]
    = Fin c /\ 39 # 100 < c /\ c < 41 # 100.
Proof.
  destruct (complexity_score_bounded_below sqrt_approx
              [sample_tx "0xa" "deposit" "USDC" 100 0]) as [c [Hc Hlt]].
  - discriminate.
  - exists c. split; [exact Hc |]. split; [exact Hlt |].
    vm_compute in Hc. injection Hc as Hc. subst c. reflexivity.
Defined.

(* ================================================================= *)
(** ** The feature extractor: where NaN can appear *)

Lemma pd_var_nan (l : list Q) : pd_var l = NaN <-> (length l <= 1)%nat.
Proof.
  unfold pd_var. destruct l as [| x [| y ys]]; cbn; split; intro H;
    try reflexivity; try lia; discriminate.
Qed.

Lemma pd_var_cases (l : list Q) : pd_var l = NaN \/ exists v, pd_var l = Fin v.
Proof.
  unfold pd_var. destruct l as [| x [| y ys]]; [now left | now left |].
  right. now eexists.
Qed.

Lemma pd_std_nan (sqrtQ : Q -> Q) (l : list Q) :
  pd_std sqrtQ l = NaN <-> (length l <= 1)%nat.
Proof.
  rewrite <- pd_var_nan. unfold pd_std.
  destruct (pd_var_cases l) as [-> | [v ->]]; split; intro H;
    try reflexivity; discriminate.
Qed.

Lemma pd_mean_finite (l : list Q) :
  l <> [] -> pd_mean l = Fin (pd_sum l / Qlen l).
Proof.
  destruct l; [contradiction | reflexivity].
Qed.

Lemma pd_median_finite (l : list Q) : l <> [] -> is_finite (pd_median l) = true.
Proof.
  destruct l as [| x xs]; [contradiction |]. intros _. unfold pd_median.
  now destruct (Nat.odd _).
Qed.

Lemma fl_div_finite (a : fl) (q : Q) :
  is_finite a = true -> ~ q == 0 -> is_finite (fl_div a (Fin q)) = true.
Proof.
  intros Ha Hq. destruct a as [| | p |]; try discriminate.
  unfold fl_div. apply Qeq_bool_false in Hq. now rewrite Hq.
Qed.

(** The guarded coefficient of variation is a number or NaN, and NaN only
    through the standard deviation. *)
Lemma guarded_cv_finite_or_nan (sqrtQ : Q -> Q) (l : list Q) (default : Q) :
  let cv := if fl_gtb (pd_mean l) (Fin 0)
            then fl_div (pd_std sqrtQ l) (pd_mean l) else Fin default in
  cv = NaN \/ is_finite cv = true.
Proof.
  cbv zeta.
  assert (Hm : pd_mean l = NaN \/ exists m, pd_mean l = Fin m)
    by (destruct l; [now left | right; now eexists]).
  destruct Hm as [-> | [m ->]]; cbn; [now right |].
  destruct (Qltb 0 m) eqn:E; [| now right]. apply Qltb_lt in E.
  destruct (pd_std_cases sqrtQ l) as [-> | [v ->]]; [now left |].
  right. apply fl_div_finite; [reflexivity | lra].
Qed.

Lemma one_minus_finite (x : fl) (k : Q) :
  x = NaN \/ is_finite x = true ->
  is_finite (py_max (Fin 0) (fl_sub (Fin 1) (fl_mul x (Fin k)))) = true.
Proof.
  intros [-> | H]; [reflexivity |].
  destruct x as [| | c |]; try discriminate.
  unfold py_max, fl_gtb, fl_sub. cbn. now destruct (Qltb 0 _).
Qed.

Lemma pd_sum_pos (l : list Q) :
  l <> [] -> Forall (fun x => 1 <= x) l -> 0 < pd_sum l.
Proof.
  intros Hne H. destruct H as [| x xs Hx Hxs]; [contradiction |].
  rewrite pd_sum_cons.
  assert (0 <= pd_sum xs).
  { apply pd_sum_nonneg. eapply Forall_impl; [| exact Hxs]. intros a Ha.
    cbv beta in Ha. lra. }
  lra.
Qed.

Lemma instants_nonempty (df : list transaction) :
  df <> [] -> all_dated df -> instants df <> [].
Proof.
  intros Hne Hd Hnil. pose proof (proj2 (length_instants df) Hd) as Hl.
  rewrite Hnil in Hl. destruct df; [contradiction | discriminate].
Qed.

Lemma daily_activity_nonempty (df : list transaction) :
  df <> [] -> all_dated df -> daily_activity df <> [].
Proof.
  intros Hne Hd Hnil.
  pose proof (proj2 (groups_sum_aux df)) as Hs. rewrite Hnil in Hs.
  pose proof (Qlen_pos _ (instants_nonempty df Hne Hd)).
  unfold pd_sum in Hs. cbn in Hs. lra.
Qed.

(** The tenure of a table whose rows all have a timestamp is a number. *)
Lemma tenure_dated (df : list transaction) :
  df <> [] -> all_dated df ->
  exists d, tenure (sorted timestamp_leb df) = of_Z d.
Proof.
  intros Hne Hd. unfold tenure.
  assert (Hs : instants (sorted timestamp_leb df) <> []).
  { apply instants_nonempty.
    - intro Hnil. apply (f_equal (@length _)) in Hnil.
      rewrite length_sorted in Hnil. destruct df; [contradiction | discriminate].
    - apply (all_dated_Permutation df); [| exact Hd].
      apply Permutation_sym, Permutation_sorted. }
  destruct (instants (sorted timestamp_leb df)) as [| t0 ts]; [contradiction |].
  now eexists.
Qed.

Lemma fold_fl_add_finite (xs : list fl) (a : fl) :
  is_finite a = true -> Forall (fun x => is_finite x = true) xs ->
  is_finite (fold_left fl_add xs a) = true.
Proof.
  revert a. induction xs as [| x rest IH]; intros a Ha Hall; cbn; [exact Ha |].
  inversion Hall as [| ? ? Hx Hrest]; subst. apply IH; [| exact Hrest].
  now destruct a, x.
Qed.

Lemma pd_mean_skipna_finite (l : list fl) :
  l <> [] -> Forall (fun x => is_finite x = true) l ->
  is_finite (pd_mean_skipna l) = true.
Proof.
  intros Hne Hall. unfold pd_mean_skipna.
  assert (Hf : filter (fun v => negb (is_nan v)) l = l).
  { clear Hne. induction Hall as [| x xs Hx _ IH]; cbn; [reflexivity |].
    destruct x; try discriminate. cbn. now rewrite IH. }
  rewrite Hf. destruct l as [| x xs]; [contradiction |].
  apply fl_div_finite.
  - apply fold_fl_add_finite; [reflexivity | exact Hall].
  - pose proof (Qlen_pos (x :: xs) ltac:(discriminate)). lra.
Qed.

Lemma positive_length_nonempty {A : Type} (l : list A) :
  (0 <? length l)%nat = true -> l <> [].
Proof.
  destruct l; [discriminate | discriminate].
Qed.

Lemma _extract_basic_features_fields (sqrtQ : Q -> Q) (df : list transaction) :
  df <> [] -> Forall finite_or_sample_statistic (_extract_basic_features sqrtQ df).
Proof.
  intro Hne.
  assert (Ha : amounts df <> []) by (destruct df; [contradiction | discriminate]).
  assert (Hg : map gas_used df <> []) by (destruct df; [contradiction | discriminate]).
  unfold _extract_basic_features.
  repeat apply Forall_cons; try apply Forall_nil; unfold finite_or_sample_statistic;
    cbn [fst snd].
  - now left.
  - now left.
  - left. now rewrite pd_mean_finite.
  - left. now apply pd_median_finite.
  - left. unfold pd_max. destruct (amounts df); [contradiction | reflexivity].
  - left. unfold pd_min. destruct (amounts df); [contradiction | reflexivity].
  - destruct (pd_std_cases sqrtQ (amounts df)) as [-> | [v ->]].
    + right. split; [reflexivity | cbn; auto].
    + now left.
  - now left.
  - now left.
  - left. now rewrite pd_mean_finite.
Qed.

Lemma _extract_financial_features_fields (df : list transaction) :
  df <> [] -> Forall finite_or_sample_statistic (_extract_financial_features df).
Proof.
  intro Hne. unfold _extract_financial_features.
  repeat apply Forall_cons; try apply Forall_nil; unfold finite_or_sample_statistic;
    cbn [fst snd]; left; try reflexivity.
  - unfold _calculate_asset_concentration. now destruct (Qeq_bool _ 0).
  - rewrite pd_mean_finite; [reflexivity | now apply asset_volumes_nonempty].
Qed.

Lemma _calculate_repay_consistency_finite (borrow_df repay_df : list transaction) :
  (borrow_df <> [] -> ~ pd_sum (amounts borrow_df) == 0) ->
  is_finite (_calculate_repay_consistency borrow_df repay_df) = true.
Proof.
  intro H. unfold _calculate_repay_consistency.
  destruct borrow_df as [| b bs]; [reflexivity |].
  destruct repay_df as [| r rs]; [reflexivity |]. cbn [length Nat.eqb].
  specialize (H ltac:(discriminate)). apply Qeq_bool_false in H.
  unfold fl_div. rewrite H. unfold py_min. cbn. now destruct (Qltb 1 _).
Qed.

Lemma _extract_risk_features_fields (df : list transaction) :
  df <> [] ->
  (with_action "borrow" df <> [] ->
   ~ pd_sum (amounts (with_action "borrow" df)) == 0) ->
  Forall finite_or_sample_statistic (_extract_risk_features df).
Proof.
  intros Hne Hb. unfold _extract_risk_features.
  repeat apply Forall_cons; try apply Forall_nil; unfold finite_or_sample_statistic;
    cbn [fst snd].
  - now left.
  - now left.
  - left. now destruct (0 <? _)%nat.
  - left. now apply _calculate_repay_consistency_finite.
  - destruct (pd_var_cases (asset_volumes df)) as [-> | [v ->]].
    + right. split; [reflexivity | cbn; auto].
    + now left.
  - left. destruct (Qltb 0 (pd_sum (amounts df))) eqn:E; [| reflexivity].
    apply Qltb_lt in E. apply fl_div_finite; [| lra].
    pose proof (asset_volumes_nonempty df Hne).
    unfold pd_max. destruct (asset_volumes df); [contradiction | reflexivity].
Qed.

Lemma _extract_temporal_features_fields (sqrtQ : Q -> Q) (df : list transaction)
    (temporal : series) :
  all_dated df ->
  _extract_temporal_features sqrtQ df = Ok temporal ->
  Forall finite_or_sample_statistic temporal.
Proof.
  intros Hd H. apply _extract_temporal_features_Ok in H.
  destruct H as [Hne [m [_ ->]]].
  destruct (tenure_dated df Hne Hd) as [d ->].
  repeat apply Forall_cons; try apply Forall_nil; unfold finite_or_sample_statistic;
    cbn [fst snd].
  - now left.
  - left. unfold of_Z, py_max, fl_gtb. cbn [fl_ltb].
    destruct (Qltb (inject_Z d) 1) eqn:E.
    + apply fl_div_finite; [reflexivity | lra].
    + apply Qltb_ge in E. apply fl_div_finite; [reflexivity | lra].
  - destruct (guarded_cv_finite_or_nan sqrtQ (daily_activity df) 0) as [-> | H].
    + right. split; [reflexivity | cbn; auto].
    + now left.
  - left. destruct (0 <? _)%nat eqn:E; [| reflexivity].
    apply fl_div_finite; [| lra].
    rewrite pd_mean_finite; [reflexivity | now apply positive_length_nonempty].
  - left. destruct (0 <? _)%nat eqn:E; [| reflexivity].
    apply fl_div_finite; [| lra].
    apply pd_median_finite. now apply positive_length_nonempty.
  - now left.
  - now left.
  - now left.
Qed.

Lemma _calculate_complexity_score_finite (sqrtQ : Q -> Q) (df : list transaction) :
  is_finite (_calculate_complexity_score sqrtQ df) = true.
Proof.
  unfold _calculate_complexity_score.
  set (av := if fl_gtb (pd_mean (amounts df)) (Fin 0) then _ else Fin 0).
  assert (Hav : is_finite (py_max (Fin 0) av) = true).
  { unfold av.
    destruct (guarded_cv_finite_or_nan sqrtQ (amounts df) 0) as [H | H];
      cbv zeta in H; destruct (fl_gtb (pd_mean (amounts df)) (Fin 0)).
    - now rewrite H.
    - reflexivity.
    - destruct (fl_div _ _) as [| | c |]; try discriminate.
      unfold py_max, fl_gtb, fl_sub. cbn. now destruct (Qltb 0 _).
    - reflexivity. }
  destruct (py_max (Fin 0) av); try discriminate.
  apply fl_div_finite; [reflexivity | lra].
Qed.

Lemma _extract_network_features_fields (sqrtQ : Q -> Q) (df : list transaction) :
  df <> [] ->
  (forall t, In t df -> ~ gas_used t == 0) ->
  Forall finite_or_sample_statistic (_extract_network_features sqrtQ df).
Proof.
  intros Hne Hgas. unfold _extract_network_features.
  repeat apply Forall_cons; try apply Forall_nil; unfold finite_or_sample_statistic;
    cbn [fst snd]; left; try reflexivity.
  - destruct (Qltb 0 _); [| reflexivity].
    apply pd_mean_skipna_finite.
    + destruct df; [contradiction | discriminate].
    + apply Forall_map, Forall_forall. intros t Ht.
      apply fl_div_finite; [reflexivity | now apply Hgas].
  - unfold _calculate_gas_optimization. destruct (Qeq_bool _ 0); [reflexivity |].
    pose proof (one_minus_finite _ 1
                  (guarded_cv_finite_or_nan sqrtQ (map gas_used df) 1)) as H.
    now rewrite fl_mul_1_r in H.
  - unfold _detect_bot_like_patterns.
    destruct (length df <? 3)%nat; [reflexivity |].
    destruct (length _ =? 0)%nat; [reflexivity |].
    apply one_minus_finite, guarded_cv_finite_or_nan.
  - apply _calculate_complexity_score_finite.
Qed.

(** The feature vector is the five groups of features, one after the
    other. *)
Lemma _extract_wallet_features_groups (sqrtQ : Q -> Q) (w : string)
    (df : list transaction) (row : feature_row) :
  _extract_wallet_features sqrtQ w df = Ok row ->
  exists temporal,
    _extract_temporal_features sqrtQ df = Ok temporal
    /\ fr_features row
       = _extract_basic_features sqrtQ df ++ _extract_financial_features df
         ++ _extract_risk_features df ++ temporal
         ++ _extract_network_features sqrtQ df.
Proof.
  unfold _extract_wallet_features. intro H.
  apply bind_ok in H. destruct H as [temporal [Ht H]].
  apply Ok_inj in H. subst row. exists temporal. split; [exact Ht |].
  cbn [fr_features].
  apply _extract_temporal_features_Ok in Ht. destruct Ht as [_ [m [_ ->]]].
  reflexivity.
Qed.

(** C2, as amended.  A wallet whose transactions all have a timestamp and a
    non-zero gas, and whose borrowed volume is not 0 if it borrowed, gets a
    feature vector, in which every field is a finite number except the three
    sample statistics.  Those leave the extractor as NaN, without a
    replacement, exactly on a single value: [transaction_std] with one
    transaction, [position_size_variance] with one asset,
    [activity_consistency_cv] with one active date. *)
Theorem nan_only_in_sample_statistics (sqrtQ : Q -> Q) (w : string)
    (df : list transaction) :
  df <> [] ->
  all_dated df ->
  (forall t, In t df -> ~ gas_used t == 0) ->
  (with_action "borrow" df <> [] ->
   ~ pd_sum (amounts (with_action "borrow" df)) == 0) ->
  exists row,
    _extract_wallet_features sqrtQ w df = Ok row
    /\ Forall finite_or_sample_statistic (fr_features row)
    /\ (lookup "transaction_std" (fr_features row) = Some NaN
        <-> length df = 1%nat)
    /\ (lookup "position_size_variance" (fr_features row) = Some NaN
        <-> nunique String.eqb (map asset df) = 1%nat)
    /\ (lookup "activity_consistency_cv" (fr_features row) = Some NaN
        <-> length (active_dates df) = 1%nat).
Proof.
  intros Hne Hdated Hgas Hborrow.
  destruct (_extract_wallet_features_returns sqrtQ w df Hne (or_introl Hdated))
    as [row [Hrow _]].
  exists row. split; [exact Hrow |].
  destruct (_extract_wallet_features_groups _ _ _ _ Hrow) as [temporal [Ht ->]].
  split; [| split; [| split]].
  - apply Forall_app. split; [now apply _extract_basic_features_fields |].
    apply Forall_app. split; [now apply _extract_financial_features_fields |].
    apply Forall_app. split; [now apply _extract_risk_features_fields |].
    apply Forall_app.
    split; [now apply (_extract_temporal_features_fields sqrtQ df) |].
    now apply _extract_network_features_fields.
  - assert (Hl : lookup "transaction_std"
                        (_extract_basic_features sqrtQ df
                         ++ _extract_financial_features df
                         ++ _extract_risk_features df ++ temporal
                         ++ _extract_network_features sqrtQ df)
                 = Some (pd_std sqrtQ (amounts df))) by reflexivity.
    rewrite Hl. unfold amounts.
    split.
    + intro H. injection H as H. apply pd_std_nan in H. rewrite length_map in H.
      destruct df as [| t [| t' ts]]; cbn in *; [contradiction | reflexivity | lia].
    + intro H. f_equal. apply pd_std_nan. rewrite length_map. lia.
  - assert (Hl : lookup "position_size_variance"
                        (_extract_basic_features sqrtQ df
                         ++ _extract_financial_features df
                         ++ _extract_risk_features df ++ temporal
                         ++ _extract_network_features sqrtQ df)
                 = Some (pd_var (asset_volumes df))) by reflexivity.
    rewrite Hl.
    assert (Hlen : length (asset_volumes df) = nunique String.eqb (map asset df))
      by (unfold asset_volumes, nunique; now rewrite length_map, length_sorted).
    pose proof (asset_volumes_nonempty df Hne) as Hv.
    split.
    + intro H. injection H as H. apply pd_var_nan in H. rewrite <- Hlen.
      destruct (asset_volumes df) as [| v [| v' vs]]; cbn in *;
        [contradiction | reflexivity | lia].
    + intro H. f_equal. apply pd_var_nan. lia.
  - rewrite <- length_daily_activity.
    apply _extract_temporal_features_Ok in Ht. destruct Ht as [_ [m [_ ->]]].
    match goal with
    | |- lookup _ ?l = _ <-> _ =>
        assert (Hl : lookup "activity_consistency_cv" l
                     = Some (if fl_gtb (pd_mean (daily_activity df)) (Fin 0)
                             then fl_div (pd_std sqrtQ (daily_activity df))
                                         (pd_mean (daily_activity df))
                             else Fin 0)) by reflexivity
    end.
    rewrite Hl.
    pose proof (daily_activity_nonempty df Hne Hdated) as Hd.
    pose proof (pd_sum_pos _ Hd (daily_activity_at_least_1 df)) as Hs.
    pose proof (Qlen_pos _ Hd) as Hq.
    rewrite (pd_mean_finite _ Hd).
    assert (Hm : 0 < pd_sum (daily_activity df) / Qlen (daily_activity df))
      by (apply Qlt_shift_div_l; lra).
    assert (Hgt : fl_gtb (Fin (pd_sum (daily_activity df) / Qlen (daily_activity df)))
                         (Fin 0) = true) by (cbn; now apply Qltb_lt).
    rewrite Hgt.
    split.
    + intro H. injection H as H.
      destruct (pd_std_cases sqrtQ (daily_activity df)) as [E | [v E]].
      * apply pd_std_nan in E.
        destruct (daily_activity df) as [| c [| c' cs]]; cbn in *;
          [contradiction | reflexivity | lia].
      * rewrite E in H. unfold fl_div in H.
        assert (En : Qeq_bool (pd_sum (daily_activity df) / Qlen (daily_activity df)) 0
                     = false) by (apply Qeq_bool_false; lra).
        rewrite En in H. discriminate.
    + intro H. f_equal.
      assert (E : pd_std sqrtQ (daily_activity df) = NaN)
        by (apply pd_std_nan; lia).
      now rewrite E.
Qed.

Lemma nan_only_in_sample_statistics_witness :
  exists row,
    _extract_wallet_features sqrt_approx "0xb"
      [ sample_tx "0xb" "deposit" "USDC" 100 0;
        sample_tx "0xb" "borrow" "DAI" 40 90000 ] = Ok row
    /\ Forall finite_or_sample_statistic (fr_features row)
    /\ lookup "transaction_std" (fr_features row) <> Some NaN
    /\ lookup "position_size_variance" (fr_features row) <> Some NaN
    /\ lookup "activity_consistency_cv" (fr_features row) <> Some NaN.
Proof.
  destruct (nan_only_in_sample_statistics sqrt_approx "0xb"
              [ sample_tx "0xb" "deposit" "USDC" 100 0;
                sample_tx "0xb" "borrow" "DAI" 40 90000 ])
    as [row [Hrow [Hall [Hstd [Hvar Hcv]]]]].
  - discriminate.
  - repeat constructor; discriminate.
  - intros t [<- | [<- | []]] H; cbv in H; discriminate.
  - intros _ H. cbv in H. discriminate.
  - exists row. split; [exact Hrow |]. split; [exact Hall |].
    split; [| split].
    + intro H. apply Hstd in H. discriminate.
    + intro H. apply Hvar in H. vm_compute in H. discriminate.
    + intro H. apply Hcv in H. vm_compute in H. discriminate.
Defined.

(* ================================================================= *)
(** ** The normalizer keeps the order of the scores *)

Lemma np_clip_monotone (q1 q99 : fl) (a b : Q) :
  (forall s, is_finite (np_clip (Fin s) q1 q99) = true) ->
  a <= b ->
  exists ca cb,
    np_clip (Fin a) q1 q99 = Fin ca /\ np_clip (Fin b) q1 q99 = Fin cb /\ ca <= cb.
Proof.
  intros Hall Hab.
  pose proof (Hall a) as Ha. pose proof (Hall b) as Hb. clear Hall.
  revert Ha Hb.
  destruct q1 as [| | lo |], q99 as [| | hi |];
    unfold np_clip, np_maximum, np_minimum; cbn;
    qcases; cbn; qcases; intros Ha Hb; try discriminate;
    do 2 eexists; (split; [reflexivity | split; [reflexivity | lra]]).
Qed.

Lemma fold_np_minimum_lower (xs : list fl) (a : Q) :
  Forall (fun y => is_finite y = true) xs ->
  exists m,
    fold_left np_minimum xs (Fin a) = Fin m
    /\ m <= a /\ forall q, In (Fin q) xs -> m <= q.
Proof.
  revert a. induction xs as [| y ys IH]; intros a Hall.
  - exists a. split; [reflexivity |]. split; [lra | intros q []].
  - inversion Hall as [| ? ? Hy Hys]; subst. destruct y as [| | b |]; try discriminate.
    cbn [fold_left]. unfold np_minimum at 2. cbn.
    destruct (Qltb b a) eqn:E; [apply Qltb_lt in E | apply Qltb_ge in E].
    + destruct (IH b Hys) as [m [Hm [Hle Hin]]]. exists m.
      split; [exact Hm |]. split; [lra |].
      intros q [Hq | Hq]; [injection Hq as <-; exact Hle | now apply Hin].
    + destruct (IH a Hys) as [m [Hm [Hle Hin]]]. exists m.
      split; [exact Hm |]. split; [lra |].
      intros q [Hq | Hq]; [injection Hq as <-; lra | now apply Hin].
Qed.

Lemma fold_np_maximum_upper (xs : list fl) (a : Q) :
  Forall (fun y => is_finite y = true) xs ->
  exists m,
    fold_left np_maximum xs (Fin a) = Fin m
    /\ a <= m /\ forall q, In (Fin q) xs -> q <= m.
Proof.
  revert a. induction xs as [| y ys IH]; intros a Hall.
  - exists a. split; [reflexivity |]. split; [lra | intros q []].
  - inversion Hall as [| ? ? Hy Hys]; subst. destruct y as [| | b |]; try discriminate.
    cbn [fold_left]. unfold np_maximum at 2. cbn.
    destruct (Qltb a b) eqn:E; [apply Qltb_lt in E | apply Qltb_ge in E].
    + destruct (IH b Hys) as [m [Hm [Hle Hin]]]. exists m.
      split; [exact Hm |]. split; [lra |].
      intros q [Hq | Hq]; [injection Hq as <-; exact Hle | now apply Hin].
    + destruct (IH a Hys) as [m [Hm [Hle Hin]]]. exists m.
      split; [exact Hm |]. split; [lra |].
      intros q [Hq | Hq]; [injection Hq as <-; lra | now apply Hin].
Qed.

Lemma rescale_bounds (mn mx c : Q) :
  mn < mx -> mn <= c <= mx ->
  0 <= 1000 * (c + - mn) / (mx + - mn) <= 1000.
Proof.
  intros Hlt Hc. split.
  - apply Qle_shift_div_l; lra.
  - apply Qle_shift_div_r; lra.
Qed.

Lemma rescale_monotone (mn mx c c' : Q) :
  mn < mx -> c <= c' ->
  1000 * (c + - mn) / (mx + - mn) <= 1000 * (c' + - mn) / (mx + - mn).
Proof.
  intros Hlt Hc. unfold Qdiv. apply Qmult_le_compat_r; [lra |].
  apply Qlt_le_weak, Qinv_lt_0_compat. lra.
Qed.

(** The normalized scores are a function of the risk-adjusted scores, the
    same for every wallet of the table, that takes finite scores into
    [0, 1000] and never reverses two of them. *)
Lemma normalized_scores_map np_percentile (scores ns : list fl) :
  Forall (fun s => is_finite s = true) scores ->
  normalized_scores np_percentile scores = Ok ns ->
  exists g : fl -> fl,
    ns = map g scores
    /\ (forall a, In (Fin a) scores -> in_range 0 1000 (g (Fin a)))
    /\ (forall a b, In (Fin a) scores -> In (Fin b) scores -> a <= b ->
                    fl_leb (g (Fin a)) (g (Fin b)) = true).
Proof.
  intros Hfin. unfold normalized_scores.
  set (q1 := np_percentile scores 1). set (q99 := np_percentile scores 99).
  destruct (map (fun s => np_clip s q1 q99) scores) as [| c cs] eqn:E;
    [discriminate |].
  unfold np_amin, np_amax, bind. intro H. apply Ok_inj in H. subst ns.
  destruct (fl_gtb (fold_left np_maximum cs c) (fold_left np_minimum cs c)) eqn:Hgt.
  - (* the clipped scores spread: no NaN among them, and they are rescaled *)
    destruct (np_clip_cases q1 q99) as [Hall | [v [Hv Hconst]]].
    + assert (Hc : Forall (fun s => is_finite s = true) (c :: cs)).
      { rewrite <- E. apply Forall_map. eapply Forall_impl; [| exact Hfin].
        intros [| | s |] Hs; try discriminate. apply Hall. }
      inversion Hc as [| ? ? Hc0 Hcs]; subst.
      destruct c as [| | c0 |]; try discriminate.
      destruct (fold_np_minimum_lower cs c0 Hcs) as [mn [Hmn [Hmn0 Hmin]]].
      destruct (fold_np_maximum_upper cs c0 Hcs) as [mx [Hmx [Hmx0 Hmax]]].
      rewrite Hmn, Hmx in *. cbn in Hgt. apply Qltb_lt in Hgt.
      exists (fun s => fl_div (fl_mul (Fin 1000)
                                (fl_sub (np_clip s q1 q99) (Fin mn)))
                              (fl_sub (Fin mx) (Fin mn))).
      assert (En : Qeq_bool (mx + - mn) 0 = false) by (apply Qeq_bool_false; lra).
      assert (Hbnd : forall a, In (Fin a) scores ->
                       exists ca, np_clip (Fin a) q1 q99 = Fin ca /\ mn <= ca <= mx).
      { intros a Ha.
        assert (Hin : In (np_clip (Fin a) q1 q99) (Fin c0 :: cs))
          by (rewrite <- E; now apply (in_map (fun s => np_clip s q1 q99))).
        specialize (Hall a).
        destruct (np_clip (Fin a) q1 q99) as [| | ca |]; try discriminate.
        exists ca. split; [reflexivity |].
        destruct Hin as [Hin | Hin].
        - injection Hin as ->. lra.
        - split; [now apply Hmin | now apply Hmax]. }
      split; [| split].
      * rewrite <- E. now rewrite map_map.
      * intros a Ha. destruct (Hbnd a Ha) as [ca [-> Hca]].
        unfold fl_sub. cbn. rewrite En. unfold in_range. cbn.
        pose proof (rescale_bounds mn mx ca Hgt Hca).
        split; qgoal; lra.
      * intros a b Ha Hb Hab.
        destruct (np_clip_monotone q1 q99 a b Hall Hab) as [ca [cb [-> [-> Hle]]]].
        unfold fl_sub. cbn. rewrite En. cbn. qgoal.
        now apply rescale_monotone.
    + exfalso.
      assert (Hc : forall y, In y (c :: cs) -> y = v).
      { intros y Hy. rewrite <- E in Hy. apply in_map_iff in Hy.
        destruct Hy as [s [<- Hs]].
        rewrite Forall_forall in Hfin. specialize (Hfin s Hs).
        destruct s; try discriminate. apply Hconst. }
      assert (Hmin : feq (fold_left np_minimum cs c) v).
      { apply fold_feq; [intros a b; apply np_minimum_feq | |].
        - rewrite (Hc c); [apply feq_refl | now left].
        - intros y Hy. rewrite (Hc y); [apply feq_refl | now right]. }
      assert (Hmax : feq (fold_left np_maximum cs c) v).
      { apply fold_feq; [intros a b; apply np_maximum_feq | |].
        - rewrite (Hc c); [apply feq_refl | now left].
        - intros y Hy. rewrite (Hc y); [apply feq_refl | now right]. }
      unfold fl_gtb in Hgt. rewrite fl_ltb_feq in Hgt; [discriminate |].
      eapply feq_trans; [exact Hmin | apply feq_sym; exact Hmax].
  - exists (fun _ => Fin 500). split; [| split].
    + rewrite <- E. now rewrite map_map.
    + intros a _. split; reflexivity.
    + intros. reflexivity.
Qed.

(** X11.  Before the overrides, the normalizer gives every wallet a
    normalized score, which is not negative when the risk-adjusted scores
    are finite, and it keeps their order: a wallet whose risk-adjusted score
    is not above that of another does not get a higher normalized score. *)
Theorem normalized_scores_order_preserving np_percentile (scores ns : list fl) :
  Forall (fun s => is_finite s = true) scores ->
  normalized_scores np_percentile scores = Ok ns ->
  length ns = length scores
  /\ Forall (fun n => fl_leb (Fin 0) n = true) ns
  /\ forall s n s' n',
       In (s, n) (combine scores ns) -> In (s', n') (combine scores ns) ->
       fl_leb s s' = true -> fl_leb n n' = true.
Proof.
  intros Hfin H.
  destruct (normalized_scores_map np_percentile scores ns Hfin H)
    as [g [-> [Hrange Hmono]]].
  assert (Hpair : forall s n, In (s, n) (combine scores (map g scores)) ->
                              In s scores /\ n = g s).
  { clear. induction scores as [| x xs IH]; cbn; intros s n Hin; [contradiction |].
    destruct Hin as [Hin | Hin].
    - injection Hin as <- <-. split; [now left | reflexivity].
    - destruct (IH s n Hin) as [H1 H2]. split; [now right | exact H2]. }
  split; [apply length_map |]. split.
  - apply Forall_map, Forall_forall. intros s Hs.
    rewrite Forall_forall in Hfin. specialize (Hfin s Hs) as Hf.
    destruct s as [| | a |]; try discriminate. now apply Hrange.
  - intros s n s' n' Hin Hin' Hle.
    destruct (Hpair s n Hin) as [Hs ->]. destruct (Hpair s' n' Hin') as [Hs' ->].
    rewrite Forall_forall in Hfin.
    pose proof (Hfin s Hs) as Hf. pose proof (Hfin s' Hs') as Hf'.
    destruct s as [| | a |], s' as [| | b |]; try discriminate.
    cbn in Hle. apply Qle_bool_iff in Hle. now apply Hmono.
Qed.

Lemma normalized_scores_order_preserving_witness :
  exists n0 n1 n2,
    normalized_scores percentile_linear [Fin 105; Fin 572; Fin 476]
    = Ok [n0; n1; n2]
    /\ fl_leb (Fin 0) n0 = true
    /\ fl_leb n0 n2 = true
    /\ fl_leb n2 n1 = true.
Proof.
  destruct (normalized_scores percentile_linear [Fin 105; Fin 572; Fin 476])
    as [[| n0 [| n1 [| n2 [| n3 ns]]]] | e] eqn:E; try discriminate E.
  destruct (normalized_scores_order_preserving percentile_linear
              [Fin 105; Fin 572; Fin 476] [n0; n1; n2]) as [_ [Hpos Hord]].
  - repeat constructor.
  - exact E.
  - exists n0, n1, n2. split; [reflexivity |]. split; [| split].
    + now inversion Hpos.
    + apply (Hord (Fin 105) n0 (Fin 476) n2); [now left | right; right; now left |].
      reflexivity.
    + apply (Hord (Fin 476) n2 (Fin 572) n1); [right; right; now left | right; now left |].
      reflexivity.
Defined.

(* ================================================================= *)
(** ** The base score and the liquidation count *)

Lemma contribution_bounds (w : Q) (v : fl) :
  is_nan v = false ->
  exists c, contribution w v = Fin c /\ - (300 * Qabs w) <= c <= 300 * Qabs w.
Proof.
  intro Hv. destruct (np_clip_3 v Hv) as [k [Hk Hr]].
  unfold contribution. rewrite Hk. cbn. eexists. split; [reflexivity |].
  apply Qabs_case; intros Hw; nra.
Qed.

Lemma weighted_sum_bounds (weights : list (string * Q)) (scaled : series) :
  (forall k v, lookup k scaled = Some v -> is_nan v = false) ->
  forall a, exists b,
    weighted_sum weights scaled (Fin a) = Fin b
    /\ a - 300 * abs_total weights <= b <= a + 300 * abs_total weights.
Proof.
  intro Hs. unfold weighted_sum.
  induction weights as [| [name w] ws IH]; intro a.
  - exists a. split; [reflexivity | cbn; lra].
  - rewrite abs_total_cons. cbn [fold_left fst snd].
    destruct (lookup name scaled) as [v |] eqn:Hl.
    + destruct (contribution_bounds w v (Hs _ _ Hl)) as [c [Hc Hle]].
      rewrite Hc. cbn. destruct (IH (a + c)) as [b [Hb Hbl]].
      exists b. split; [exact Hb | lra].
    + destruct (IH a) as [b [Hb Hbl]]. exists b. split; [exact Hb |].
      pose proof (Qabs_nonneg w). lra.
Qed.

(** With [l] liquidations the bonuses lie between [-100 - 30 l] and
    [140 - 30 l]. *)
Lemma _apply_heuristic_bonuses_liquidations (features : series) (l : Q) :
  get features "liquidation_count" (Fin 0) = Fin l -> 0 <= l ->
  exists b, _apply_heuristic_bonuses features = Fin b
            /\ - 100 - 30 * l <= b <= 140 - 30 * l.
Proof.
  intros Hl Hpos. unfold _apply_heuristic_bonuses. rewrite Hl.
  generalize (get features "tenure_days" (Fin 0)); intro tenure.
  generalize (get features "total_transactions" (Fin 0)); intro txs.
  generalize (get features "unique_assets" (Fin 0)); intro assets.
  generalize (get features "repay_ratio" (Fin 0)); intro ratio.
  generalize (get features "borrow_count" (Fin 0)); intro borrows.
  generalize (get features "bot_like_regularity" (Fin 0)); intro bot.
  destruct (fl_gtb tenure (Fin 365)); [| destruct (fl_gtb tenure (Fin 180))];
    (destruct (fl_gtb txs (Fin 50)); [| destruct (fl_gtb txs (Fin 20))]);
    (destruct (fl_gtb assets (Fin 5)); [| destruct (fl_gtb assets (Fin 3))]);
    destruct (fl_geb ratio (Fin 1) && fl_gtb borrows (Fin 0));
    destruct (fl_gtb bot (Fin (7 # 10)));
    cbn; (destruct (Qltb 0 l) eqn:El; [apply Qltb_lt in El | apply Qltb_ge in El]);
    cbn; eexists; (split; [reflexivity | lra]).
Qed.

(** X12.  The base score of a wallet with [l] liquidations lies between
    [100 - 30 l] and [940 - 30 l]: the weighted features move it by at most
    300 around 500, the bonuses add at most 140 and the bot penalty takes
    100, and every liquidation takes 30.  From 25 liquidations on the base
    score is therefore under 200, and the final score of the wallet is at
    most 300 whatever its normalized score. *)
Theorem base_score_range_by_liquidations (scaled raw : series) (l : Q) :
  (forall k v, lookup k scaled = Some v -> is_nan v = false) ->
  get raw "liquidation_count" (Fin 0) = Fin l -> 0 <= l ->
  exists b,
    _calculate_weighted_score scaled raw = Fin b
    /\ 100 - 30 * l <= b <= 940 - 30 * l
    /\ (25 <= l ->
        forall score, is_nan score = false ->
                      fl_leb (final_score (Fin b) score) (Fin 300) = true).
Proof.
  intros Hs Hl Hpos. unfold _calculate_weighted_score.
  destruct (weighted_sum_bounds _define_feature_weights scaled Hs 500) as [s [Hsum Hle]].
  assert (Ht : abs_total _define_feature_weights == 1) by (vm_compute; reflexivity).
  assert (Hs' : 200 <= s <= 800).
  { revert Ht Hle. generalize (abs_total _define_feature_weights).
    intros T Ht Hle. lra. }
  destruct (_apply_heuristic_bonuses_liquidations raw l Hl Hpos) as [c [Hc Hcl]].
  rewrite Hsum, Hc. exists (s + c). split; [reflexivity |].
  split; [lra |].
  intros H25 score Hscore.
  apply final_score_low; [| exact Hscore]. cbn. qgoal. lra.
Qed.

Lemma base_score_range_by_liquidations_witness :
  exists b,
    _calculate_weighted_score
      [("repay_consistency_score", Fin 1); ("liquidation_frequency", Fin (1 # 2))]
      [("liquidation_count", Fin 2); ("tenure_days", Fin 400)] = Fin b
    /\ 100 - 30 * 2 <= b <= 940 - 30 * 2
    /\ (25 <= 2 ->
        forall score, is_nan score = false ->
                      fl_leb (final_score (Fin b) score) (Fin 300) = true).
Proof.
  apply (base_score_range_by_liquidations
           [("repay_consistency_score", Fin 1); ("liquidation_frequency", Fin (1 # 2))]
           [("liquidation_count", Fin 2); ("tenure_days", Fin 400)] 2).
  - intros k v H. cbn in H.
    repeat match type of H with
           | (if ?c then _ else _) = _ => destruct c
           end; try discriminate; now injection H as <-.
  - reflexivity.
  - lra.
Defined.

(* ================================================================= *)
(** ** The pipeline keeps one row per wallet *)

Lemma map_snd_combine {A B : Type} (l : list A) (l' : list B) :
  length l = length l' -> map snd (combine l l') = l'.
Proof.
  revert l'. induction l as [| a l IH]; intros [| b l'] H; cbn in *;
    try discriminate; auto.
  f_equal. apply IH. lia.
Qed.

Lemma _calculate_base_scores_wallets (robust_fit : list (list Q) -> list (Q * Q))
    (features_df : list feature_row) :
  map fst (snd (_calculate_base_scores robust_fit features_df))
  = map fr_wallet_address features_df.
Proof.
  unfold _calculate_base_scores. cbn [snd]. rewrite map_map. cbn [fst].
  rewrite <- (map_map snd fr_wallet_address). f_equal.
  apply map_snd_combine. unfold transform, feature_matrix.
  now rewrite !length_map.
Qed.

Lemma length_cluster_loop (risk_clusters : list nat) (features_df : list feature_row)
    (clusters : list nat) (risk : list fl) :
  length (fold_left (cluster_adjust risk_clusters features_df) clusters risk)
  = length risk.
Proof.
  revert risk. induction clusters as [| c cs IH]; intro risk; cbn; [reflexivity |].
  rewrite IH. apply length_cluster_adjust.
Qed.

Lemma _apply_risk_adjustments_wallets
    (anomaly_fit_predict : list (list fl) -> result (list Z))
    (cluster_fit_predict : list (list fl) -> result (list nat))
    (fitted : list (Q * Q)) (scores_df : list (string * fl))
    (features_df : list feature_row) (res : list score_row) :
  _apply_risk_adjustments anomaly_fit_predict cluster_fit_predict
                          fitted scores_df features_df = Ok res ->
  map wallet_address res = map fst scores_df
  /\ map base_score res = map snd scores_df.
Proof.
  intro H. unfold _apply_risk_adjustments in H.
  apply bind_ok in H. destruct H as [anomaly_scores [_ H]].
  apply bind_ok in H. destruct H as [risk_clusters [_ H]].
  apply Ok_inj in H. subst res.
  match goal with
  | |- context [combine scores_df ?r] =>
      assert (Hlen : length scores_df = length r)
        by (now rewrite length_cluster_loop, length_update_where, length_map)
  end.
  rewrite !map_map. cbn [wallet_address base_score].
  rewrite <- (map_map fst fst), <- (map_map fst snd).
  now rewrite (map_fst_combine _ _ Hlen).
Qed.

Lemma find_wallet (features_df : list feature_row) (fr : feature_row) :
  NoDup (map fr_wallet_address features_df) -> In fr features_df ->
  find (fun r => String.eqb (fr_wallet_address r) (fr_wallet_address fr)) features_df
  = Some fr.
Proof.
  induction features_df as [| x xs IH]; intros Hnd Hin; [contradiction |].
  cbn in Hnd. inversion Hnd as [| ? ? Hx Hxs]; subst. cbn.
  destruct Hin as [-> | Hin].
  - now rewrite String.eqb_refl.
  - destruct (String.eqb (fr_wallet_address x) (fr_wallet_address fr)) eqn:E.
    + apply String.eqb_eq in E. exfalso. apply Hx. rewrite E.
      now apply in_map.
    + now apply IH.
Qed.

(** The left join finds, for each row of scores, the feature vector of the
    same wallet. *)
Lemma merge_features (res : list scored_row) (features_df : list feature_row) :
  NoDup (map fr_wallet_address features_df) ->
  map (fun s => wallet_address (scores s)) res = map fr_wallet_address features_df ->
  map features (merge res features_df) = map fr_features features_df.
Proof.
  intros Hnd Hw. unfold merge. rewrite map_map. cbn [features].
  assert (Hgen : forall rs l,
             incl l features_df ->
             map (fun s => wallet_address (scores s)) rs = map fr_wallet_address l ->
             map (fun s =>
                    match find (fun r => String.eqb (fr_wallet_address r)
                                                    (wallet_address (scores s)))
                               features_df with
                    | Some r => fr_features r
                    | None => []
                    end) rs
             = map fr_features l).
  { induction rs as [| s rs IH]; intros [| fr l] Hincl Heq; cbn in *;
      try discriminate; [reflexivity |].
    injection Heq as Hs Hrest. rewrite Hs.
    rewrite (find_wallet features_df fr Hnd) by (apply Hincl; now left).
    f_equal. apply IH; [| exact Hrest].
    intros y Hy. apply Hincl. now right. }
  apply Hgen; [apply incl_refl | exact Hw].
Qed.

Lemma NoDup_wallets (df : list transaction) :
  NoDup (sorted String.leb (unique String.eqb (map wallet df))).
Proof. apply NoDup_sorted, (NoDup_unique_any String.eqb String.eqb_eq). Qed.

Lemma files_print (line : string) (w : world) : files (print line w) = files w.
Proof. reflexivity. Qed.

(** What [score_wallets] returns, in terms of the feature table. *)
Lemma score_wallets_joined sqrtQ robust_fit anomaly cluster np_percentile
    (df : list transaction) (w w' : world) (rows : list result_row) :
  score_wallets sqrtQ robust_fit anomaly cluster np_percentile (Rows df) w
  = (w', Ok rows) ->
  exists features_df,
    extract_features sqrtQ (Rows df) = Ok features_df
    /\ map (fun r => wallet_address (scores (scored r))) rows
       = map fr_wallet_address features_df
    /\ map features rows = map fr_features features_df
    /\ Forall (fun r => in_range 0 1000 (credit_score (scored r))
                        /\ score_category (scored r)
                           = _categorize_score (credit_score (scored r))) rows
    /\ files w' = files w.
Proof.
  unfold score_wallets. intro H.
  destruct (extract_features sqrtQ (Rows df)) as [features_df | e] eqn:Hx;
    [| discriminate].
  exists features_df. split; [reflexivity |].
  pose proof (extract_features_keys sqrtQ df features_df Hx) as Hkeys.
  destruct (length features_df =? 0)%nat eqn:Hlen.
  - injection H as <- <-. apply length_zero_nil in Hlen. subst features_df.
    repeat split. constructor.
  - pose proof (_calculate_base_scores_wallets robust_fit features_df) as Hb.
    destruct (_calculate_base_scores robust_fit features_df) as [fitted base].
    cbn [snd] in Hb.
    destruct (_apply_risk_adjustments anomaly cluster fitted base features_df)
      as [scores_df | e] eqn:Hr; [| discriminate].
    apply _apply_risk_adjustments_wallets in Hr. destruct Hr as [Hr _].
    destruct (_normalize_scores np_percentile scores_df) as [res | e] eqn:Hn;
      [| discriminate].
    apply _normalize_scores_rows in Hn. destruct Hn as [Hn [Hrange Hcat]].
    injection H as <- <-.
    assert (Hw : map (fun s => wallet_address (scores s)) res
                 = map fr_wallet_address features_df).
    { rewrite <- (map_map scores wallet_address), Hn, Hr. exact Hb. }
    split; [| split; [| split]].
    + rewrite <- (map_map scored (fun s => wallet_address (scores s))).
      now rewrite map_scored_merge.
    + apply merge_features; [| exact Hw]. rewrite Hkeys. apply NoDup_wallets.
    + rewrite <- (Forall_map scored
                    (fun s => in_range 0 1000 (credit_score s)
                              /\ score_category s = _categorize_score (credit_score s))).
      rewrite map_scored_merge.
      rewrite Forall_forall in *. intros s Hs. split; auto.
    + reflexivity.
Qed.

Lemma extract_features_length (sqrtQ : Q -> Q) (df : list transaction)
    (rows : list feature_row) :
  extract_features sqrtQ (Rows df) = Ok rows ->
  length rows = nunique String.eqb (map wallet df).
Proof.
  intro H. apply extract_features_keys in H.
  rewrite <- (length_map fr_wallet_address rows), H. apply length_sorted.
Qed.

Lemma length_nonzero {A : Type} (l : list A) :
  (1 <= length l)%nat -> (length l =? 0)%nat = false.
Proof. intro H. apply Nat.eqb_neq. lia. Qed.

(** [score_wallets] returns rows for a table of at least five wallets, none
    of which has a row with a timestamp and a row without one, when the
    outlier detector returns and the clustering returns on five rows or
    more. *)
Lemma score_wallets_returns sqrtQ robust_fit anomaly cluster np_percentile
    (df : list transaction) (w : world) :
  ~ mixes_dates df ->
  (5 <= nunique String.eqb (map wallet df))%nat ->
  (forall X, exists labels, anomaly X = Ok labels) ->
  (forall X, (5 <= length X)%nat -> exists labels, cluster X = Ok labels) ->
  exists w' rows,
    score_wallets sqrtQ robust_fit anomaly cluster np_percentile (Rows df) w
    = (w', Ok rows)
    /\ rows <> [].
Proof.
  intros Hmix Hfive Hanomaly Hcluster. unfold score_wallets.
  destruct (extract_features_returns sqrtQ df Hmix) as [features_df Hx]. rewrite Hx.
  pose proof (extract_features_length sqrtQ df features_df Hx) as Hlen.
  rewrite length_nonzero by lia.
  pose proof (_calculate_base_scores_wallets robust_fit features_df) as Hb.
  destruct (_calculate_base_scores robust_fit features_df) as [fitted base].
  cbn [snd] in Hb.
  destruct (_apply_risk_adjustments anomaly cluster fitted base features_df)
    as [scores_df | e] eqn:Hr.
  - pose proof (_apply_risk_adjustments_wallets _ _ _ _ _ _ Hr) as [Hw _].
    assert (Hs : length scores_df = length features_df).
    { rewrite <- (length_map wallet_address scores_df), Hw, Hb. apply length_map. }
    destruct (_normalize_scores_returns np_percentile scores_df) as [res Hn].
    { intros ->. cbn in Hs. lia. }
    rewrite Hn. do 2 eexists. split; [reflexivity |].
    apply _normalize_scores_rows in Hn. destruct Hn as [Hn _].
    intro Hm. apply (f_equal (map scored)) in Hm. rewrite map_scored_merge in Hm.
    subst res. cbn in Hn. subst scores_df. cbn in Hs. lia.
  - exfalso. unfold _apply_risk_adjustments in Hr.
    destruct (Hanomaly (transform fitted (feature_matrix features_df))) as [a Ha].
    destruct (Hcluster (transform fitted (feature_matrix features_df))) as [c Hc].
    { unfold transform, feature_matrix. rewrite !length_map. lia. }
    rewrite Ha, Hc in Hr. discriminate.
Qed.

(** X13.  When [score_wallets] returns, its result has one row per distinct
    wallet of the table, in increasing order of the addresses, and the row
    of a wallet carries the feature vector [extract_features] computed for
    that wallet: neither the scalers, the estimators nor the join drop,
    repeat or mix up wallets.  It writes no file. *)
Theorem score_wallets_one_row_per_wallet sqrtQ robust_fit anomaly cluster np_percentile
    (df : list transaction) (w w' : world) (rows : list result_row) :
  score_wallets sqrtQ robust_fit anomaly cluster np_percentile (Rows df) w
  = (w', Ok rows) ->
  map (fun r => wallet_address (scores (scored r))) rows
  = sorted String.leb (unique String.eqb (map wallet df))
  /\ length rows = nunique String.eqb (map wallet df)
  /\ NoDup (map (fun r => wallet_address (scores (scored r))) rows)
  /\ (exists features_df,
         extract_features sqrtQ (Rows df) = Ok features_df
         /\ map (fun r => (wallet_address (scores (scored r)), features r)) rows
            = map (fun fr => (fr_wallet_address fr, fr_features fr)) features_df)
  /\ files w' = files w.
Proof.
  intro H. apply score_wallets_joined in H.
  destruct H as [features_df [Hx [Hw [Hf [_ Hfiles]]]]].
  pose proof (extract_features_keys sqrtQ df features_df Hx) as Hkeys.
  rewrite Hkeys in Hw.
  split; [exact Hw |]. split; [| split; [| split]].
  - rewrite <- (length_map (fun r => wallet_address (scores (scored r))) rows), Hw.
    unfold nunique. apply length_sorted.
  - rewrite Hw. apply NoDup_wallets.
  - exists features_df. split; [exact Hx |].
    rewrite <- Hkeys in Hw. clear - Hw Hf.
    revert features_df Hw Hf.
    induction rows as [| r rows IH]; intros [| fr l] Hw Hf; cbn in *;
      try discriminate; [reflexivity |].
    injection Hw as Hw1 Hw2. injection Hf as Hf1 Hf2.
    rewrite Hw1, Hf1. f_equal. now apply IH.
  - exact Hfiles.
Qed.

Lemma score_wallets_one_row_per_wallet_witness :
  exists w' rows,
    score_wallets sqrt_approx robust_fit_iqr six_outliers six_clusters percentile_linear
                  (Rows six_wallets) empty_world
    = (w', Ok rows)
    /\ map (fun r => wallet_address (scores (scored r))) rows
       = ["0xa"; "0xb"; "0xc"; "0xd"; "0xe"; "0xf"]
    /\ length rows = 6%nat
    /\ files w' = [].
Proof.
  destruct (score_wallets_returns
              sqrt_approx robust_fit_iqr six_outliers six_clusters percentile_linear
              six_wallets empty_world) as [w' [rows [Hrun _]]].
  - apply all_dated_not_mixed. repeat constructor; discriminate.
  - vm_compute. lia.
  - intro X. eexists. reflexivity.
  - intros X HX. unfold six_clusters.
    apply Nat.ltb_ge in HX. rewrite HX. eexists. reflexivity.
  - exists w', rows. split; [exact Hrun |].
    destruct (score_wallets_one_row_per_wallet
                sqrt_approx robust_fit_iqr six_outliers six_clusters percentile_linear
                six_wallets empty_world w' rows Hrun) as [Hw [Hl [_ [_ Hf]]]].
    split; [exact Hw |]. split; [exact Hl | exact Hf].
Defined.
(* ================================================================= *)
(** ** The runs of [main] on a table with transactions *)

Lemma nunique_wallets_pos (df : list transaction) :
  df <> [] -> (1 <= nunique String.eqb (map wallet df))%nat.
Proof.
  intro H. apply nunique_pos. now destruct df.
Qed.

(** [load_data] on a file with transactions whose summary is printed
    without an exception. *)
Lemma load_data_rows
    (load_and_transform : string -> list string * frame)
    (data_summary : list transaction -> list string * option string)
    (input : string) (w : world) (loading summary : list string)
    (rows : list transaction) :
  load_and_transform input = (loading, Rows rows) ->
  rows <> [] ->
  data_summary rows = (summary, None) ->
  load_data load_and_transform data_summary input w
  = (print_lines summary (print_lines loading w), Rows rows).
Proof.
  intros Hload Hne Hsum. unfold load_data. rewrite Hload.
  destruct rows as [| t rows]; [contradiction |].
  cbn [empty length Nat.eqb rows_of_frame]. now rewrite Hsum.
Qed.

(** X14.  A run of [main] on a file that the loader turns into a table with
    transactions of five wallets or more, none of which has a row with a
    timestamp and a row without one, and whose summary is printed without
    an exception; the outlier detector returns, and the clustering returns
    on five rows or more.  Then [main] returns normally after writing
    exactly one file, at the output path, with one line per distinct wallet
    of the table, in increasing order of the addresses; every line carries
    a credit score in [0, 1000] and the category of that score.  The branch
    "Failed to generate scores" is not taken. *)
Theorem main_writes_one_line_per_wallet
    sqrtQ robust_fit anomaly cluster np_percentile
    (load_and_transform : string -> list string * frame)
    (data_summary : list transaction -> list string * option string)
    (input output : string) (w : world)
    (loading summary : list string) (rows : list transaction) :
  load_and_transform input = (loading, Rows rows) ->
  data_summary rows = (summary, None) ->
  ~ mixes_dates rows ->
  (5 <= nunique String.eqb (map wallet rows))%nat ->
  (forall X, exists labels, anomaly X = Ok labels) ->
  (forall X, (5 <= length X)%nat -> exists labels, cluster X = Ok labels) ->
  exists w' lines,
    main sqrtQ robust_fit anomaly cluster np_percentile load_and_transform data_summary
         input output w
    = (w', Returned)
    /\ files w' = files w ++ [(output, lines)]
    /\ lines <> []
    /\ map csv_wallet_address lines
       = sorted String.leb (unique String.eqb (map wallet rows))
    /\ Forall (fun l => in_range 0 1000 (csv_credit_score l)
                        /\ csv_score_category l
                           = _categorize_score (csv_credit_score l)) lines.
Proof.
  intros Hload Hsum Hmix Hfive Hanomaly Hcluster.
  assert (Hne : rows <> []) by (intros ->; cbn in Hfive; lia).
  unfold main.
  rewrite (load_data_rows _ _ _ _ loading summary rows Hload Hne Hsum).
  assert (He : empty (Rows rows) = false)
    by (destruct rows; [contradiction | reflexivity]).
  rewrite He.
  match goal with
  | |- context [score_wallets _ _ _ _ _ _ ?w0] =>
      destruct (score_wallets_returns sqrtQ robust_fit anomaly cluster np_percentile
                  rows w0 Hmix Hfive Hanomaly Hcluster)
        as [w1 [res [Hsw Hres]]];
      assert (Hw0 : files w0 = files w)
        by (cbn [files print]; now rewrite !files_print_lines)
  end.
  rewrite Hsw.
  rewrite length_nonzero by (destruct res; [contradiction | cbn; lia]).
  apply score_wallets_joined in Hsw.
  destruct Hsw as [features_df [Hx [Hw [_ [Hrange Hfiles]]]]].
  rewrite (extract_features_keys sqrtQ _ _ Hx) in Hw.
  do 2 eexists. split; [reflexivity |].
  unfold save_results. cbn [files print to_csv]. rewrite Hfiles, Hw0.
  split; [reflexivity |]. split; [| split].
  - destruct res; [contradiction | discriminate].
  - rewrite map_map. cbn [csv_wallet_address]. exact Hw.
  - apply Forall_map. cbn [csv_credit_score csv_score_category]. exact Hrange.
Qed.

Lemma main_writes_one_line_per_wallet_witness :
  exists w' lines,
    main sqrt_approx robust_fit_iqr six_outliers six_clusters percentile_linear
         load_six_wallets short_summary
         "transactions.json" "wallet_scores.csv" empty_world
    = (w', Returned)
    /\ files w' = [("wallet_scores.csv", lines)]
    /\ map csv_wallet_address lines = ["0xa"; "0xb"; "0xc"; "0xd"; "0xe"; "0xf"]
    /\ Forall (fun l => in_range 0 1000 (csv_credit_score l)
                        /\ csv_score_category l
                           = _categorize_score (csv_credit_score l)) lines.
Proof.
  destruct (main_writes_one_line_per_wallet
              sqrt_approx robust_fit_iqr six_outliers six_clusters percentile_linear
              load_six_wallets short_summary
              "transactions.json" "wallet_scores.csv" empty_world
              (fst (load_six_wallets "transactions.json"))
              (fst (short_summary six_wallets)) six_wallets)
    as [w' [lines [Hrun [Hfiles [_ [Hw Hrange]]]]]].
  - reflexivity.
  - reflexivity.
  - apply all_dated_not_mixed. repeat constructor; discriminate.
  - vm_compute. lia.
  - intro X. eexists. reflexivity.
  - intros X HX. unfold six_clusters.
    apply Nat.ltb_ge in HX. rewrite HX. eexists. reflexivity.
  - exists w', lines. split; [exact Hrun |]. split; [exact Hfiles |].
    split; [exact Hw | exact Hrange].
Defined.

(** X15.  No exception of an estimator is caught.  When the clustering
    raises on fewer than five rows, as k-means with five clusters does, a
    run of [main] on a table with one to four distinct wallets, none of
    which has a row with a timestamp and a row without one, ends with that
    exception, once the loader has printed the summary of the table: no
    file is written and the exit status is 1. *)
Theorem main_uncaught_below_five_wallets
    sqrtQ robust_fit anomaly cluster np_percentile
    (load_and_transform : string -> list string * frame)
    (data_summary : list transaction -> list string * option string)
    (input output : string) (w : world)
    (loading summary : list string) (rows : list transaction) (e : string) :
  load_and_transform input = (loading, Rows rows) ->
  rows <> [] ->
  data_summary rows = (summary, None) ->
  ~ mixes_dates rows ->
  (nunique String.eqb (map wallet rows) < 5)%nat ->
  (forall X, exists labels, anomaly X = Ok labels) ->
  (forall X, (length X < 5)%nat -> cluster X = Raise e) ->
  exists w',
    main sqrtQ robust_fit anomaly cluster np_percentile load_and_transform data_summary
         input output w
    = (w', Uncaught e)
    /\ files w' = files w
    /\ exit_status (Uncaught e) = 1%Z.
Proof.
  intros Hload Hne Hsum Hmix Hfew Hanomaly Hcluster. unfold main.
  rewrite (load_data_rows _ _ _ _ loading summary rows Hload Hne Hsum).
  assert (He : empty (Rows rows) = false)
    by (destruct rows; [contradiction | reflexivity]).
  rewrite He.
  unfold score_wallets.
  destruct (extract_features_returns sqrtQ rows Hmix) as [features_df Hx].
  rewrite Hx.
  pose proof (extract_features_length sqrtQ _ features_df Hx) as Hlen.
  pose proof (nunique_wallets_pos _ Hne) as Hpos.
  rewrite length_nonzero by lia.
  destruct (_calculate_base_scores robust_fit features_df) as [fitted base].
  unfold _apply_risk_adjustments.
  destruct (Hanomaly (transform fitted (feature_matrix features_df))) as [a Ha].
  rewrite Ha, Hcluster
    by (unfold transform, feature_matrix; rewrite !length_map; lia).
  cbn [bind]. eexists. split; [reflexivity |].
  split; [| reflexivity].
  cbn [files print]. now rewrite !files_print_lines.
Qed.

Lemma main_uncaught_below_five_wallets_witness :
  exists w',
    main sqrt_approx robust_fit_iqr no_outlier five_clusters percentile_linear
         load_sample short_summary
         "transactions.json" "wallet_scores.csv" empty_world
    = (w', Uncaught "ValueError")
    /\ files w' = []
    /\ exit_status (Uncaught "ValueError") = 1%Z.
Proof.
  apply (main_uncaught_below_five_wallets
           sqrt_approx robust_fit_iqr no_outlier five_clusters percentile_linear
           load_sample short_summary
           "transactions.json" "wallet_scores.csv" empty_world
           (fst (load_sample "transactions.json"))
           (fst (short_summary sample_table)) sample_table "ValueError").
  - reflexivity.
  - discriminate.
  - reflexivity.
  - apply all_dated_not_mixed. repeat constructor; discriminate.
  - vm_compute. lia.
  - intro X. eexists. reflexivity.
  - intros X HX. unfold five_clusters.
    apply Nat.ltb_lt in HX. now rewrite HX.
Defined.

(* ================================================================= *)
(** ** The ranges of the score distribution *)

Ltac decide_comparisons :=
  repeat match goal with
    | |- context [Qltb ?a ?b] =>
        first [ rewrite (proj2 (Qltb_lt a b)) by lra
              | rewrite (proj2 (Qltb_ge a b)) by lra ]
    | |- context [Qeq_bool ?a ?b] =>
        first [ rewrite (proj2 (Qeq_bool_iff a b)) by lra
              | rewrite (proj2 (Qeq_bool_false a b)) by lra ]
    end.

Lemma score_bins_edges :
  score_bins = [0; 100; 200; 300; 400; 500; 600; 700; 800; 900; 1000].
Proof. reflexivity. Qed.

Lemma list_sum_cons (x : nat) (l : list nat) :
  list_sum (x :: l) = (x + list_sum l)%nat.
Proof. reflexivity. Qed.

Lemma length_filter_sum {A : Type} (f : A -> bool) (l : list A) :
  length (filter f l) = list_sum (map (fun b => if f b then 1%nat else 0%nat) l).
Proof.
  induction l as [| x xs IH]; [reflexivity |].
  cbn [filter map]. rewrite list_sum_cons, <- IH. now destruct (f x).
Qed.

Ltac unfold_cut :=
  unfold cut, searchsorted_left;
  rewrite score_bins_edges, length_filter_sum;
  cbn [hd fl_eqb is_nan map fl_ltb length]; rewrite !list_sum_cons;
  change (list_sum []) with 0%nat.

Lemma cut_score_bins_in_range (k : nat) (q : Q) :
  in_score_range k q -> cut score_bins (Fin q) = Some k.
Proof.
  unfold in_score_range. intro H.
  do 10 (destruct k as [| k];
         [ cbn in H; unfold inject_Z in H; destruct H as [Hlo Hhi]; unfold_cut;
           destruct (Qeq_bool q 0) eqn:E0;
           [ apply Qeq_bool_iff in E0; try lra; reflexivity
           | apply Qeq_bool_false in E0; decide_comparisons; reflexivity ]
         | ]).
  destruct k; cbn in H; contradiction.
Qed.

Lemma cut_score_bins_outside (q : Q) :
  q < 0 \/ 1000 < q -> cut score_bins (Fin q) = None.
Proof.
  intro H. unfold_cut.
  destruct H as [H | H]; decide_comparisons; reflexivity.
Qed.

Lemma score_range_cases (q : Q) :
  q < 0 \/ 1000 < q \/ exists k, in_score_range k q.
Proof.
  destruct (Qlt_le_dec q 0) as [H0 | H0]; [now left |].
  destruct (Qlt_le_dec 1000 q) as [H10 | H10]; [right; now left |].
  right. right.
  destruct (Qlt_le_dec 100 q) as [H1 | H1];
    [| exists 0%nat; unfold in_score_range; cbn; unfold inject_Z; lra].
  destruct (Qlt_le_dec 200 q) as [H2 | H2];
    [| exists 1%nat; unfold in_score_range; cbn; unfold inject_Z; lra].
  destruct (Qlt_le_dec 300 q) as [H3 | H3];
    [| exists 2%nat; unfold in_score_range; cbn; unfold inject_Z; lra].
  destruct (Qlt_le_dec 400 q) as [H4 | H4];
    [| exists 3%nat; unfold in_score_range; cbn; unfold inject_Z; lra].
  destruct (Qlt_le_dec 500 q) as [H5 | H5];
    [| exists 4%nat; unfold in_score_range; cbn; unfold inject_Z; lra].
  destruct (Qlt_le_dec 600 q) as [H6 | H6];
    [| exists 5%nat; unfold in_score_range; cbn; unfold inject_Z; lra].
  destruct (Qlt_le_dec 700 q) as [H7 | H7];
    [| exists 6%nat; unfold in_score_range; cbn; unfold inject_Z; lra].
  destruct (Qlt_le_dec 800 q) as [H8 | H8];
    [| exists 7%nat; unfold in_score_range; cbn; unfold inject_Z; lra].
  destruct (Qlt_le_dec 900 q) as [H9 | H9];
    [| exists 8%nat; unfold in_score_range; cbn; unfold inject_Z; lra].
  exists 9%nat. unfold in_score_range. cbn. unfold inject_Z. lra.
Qed.

Lemma in_score_range_bounds (k : nat) (q : Q) :
  in_score_range k q -> (k < 10)%nat /\ 0 <= q <= 1000.
Proof.
  unfold in_score_range. intro H.
  do 10 (destruct k as [| k];
         [cbn in H; unfold inject_Z in H; destruct H as [Hlo Hhi]; split; [lia | lra] |]).
  destruct k; cbn in H; contradiction.
Qed.

Lemma cut_score_bins_some (x : fl) (k : nat) :
  cut score_bins x = Some k <-> exists q, x = Fin q /\ in_score_range k q.
Proof.
  split.
  - destruct x as [| | q |]; try (cbn; discriminate).
    intro H. exists q. split; [reflexivity |].
    destruct (score_range_cases q) as [Hq | [Hq | [j Hj]]].
    + rewrite cut_score_bins_outside in H by now left. discriminate.
    + rewrite cut_score_bins_outside in H by now right. discriminate.
    + rewrite (cut_score_bins_in_range j q Hj) in H. now injection H as <-.
  - intros [q [-> Hq]]. now apply cut_score_bins_in_range.
Qed.

(** X16.  [analyze_score_distribution] puts a score in range [k] of its ten
    ranges exactly when the score is above the lower end of the range and at
    most its upper end, 0 counting with the first range: the ranges are
    closed on the right, so that a score of 900 is counted under "800-900"
    although its category is "Excellent (900-1000)".  A score below 0, above
    1000 or not a number is in no range. *)
Theorem score_range_of_a_score (x : fl) :
  (forall k, cut score_bins x = Some k <-> exists q, x = Fin q /\ in_score_range k q)
  /\ (cut score_bins x = None <-> ~ in_range 0 1000 x)
  /\ (forall k, cut score_bins x = Some k ->
                (k < 10)%nat /\ in_range 0 1000 x
                /\ (fl_geb x (Fin 900) = true -> (8 <= k)%nat)
                /\ (k = 9%nat -> _categorize_score x = "Excellent (900-1000)")).
Proof.
  split; [intro k; apply cut_score_bins_some |]. split.
  - split.
    + intros Hnone [Hlo Hhi].
      destruct x as [| | q |]; try discriminate. cbn in Hlo, Hhi. qhyps.
      destruct (score_range_cases q) as [Hq | [Hq | [j Hj]]]; try lra.
      rewrite (cut_score_bins_in_range j q Hj) in Hnone. discriminate.
    + intro Hout. destruct (cut score_bins x) as [k |] eqn:E; [| reflexivity].
      exfalso. apply Hout. apply cut_score_bins_some in E.
      destruct E as [q [-> Hq]]. apply in_score_range_bounds in Hq.
      destruct Hq as [_ [Hlo Hhi]]. split; cbn; qgoal; lra.
  - intros k H. apply cut_score_bins_some in H. destruct H as [q [-> Hq]].
    pose proof (in_score_range_bounds k q Hq) as [Hk [Hlo Hhi]].
    split; [exact Hk |]. split; [split; cbn; qgoal; lra |]. split.
    + intro H9. cbn in H9. qhyps. unfold in_score_range in Hq.
      do 8 (destruct k as [| k];
            [cbn in Hq; unfold inject_Z in Hq; destruct Hq as [Ha Hb]; lra |]).
      lia.
    + intros ->. unfold in_score_range in Hq. cbn in Hq. unfold inject_Z in Hq.
      unfold _categorize_score, fl_geb. cbn.
      rewrite (proj2 (Qle_bool_iff 900 q)) by lra. reflexivity.
Qed.

(** ** Counting by range *)

Ltac nat_comparisons :=
  repeat match goal with
    | H : (_ && _)%bool = true |- _ => apply andb_true_iff in H; destruct H
    | H : (_ && _)%bool = false |- _ => apply andb_false_iff in H; destruct H
    | H : Nat.eqb _ _ = true |- _ => apply Nat.eqb_eq in H
    | H : Nat.eqb _ _ = false |- _ => apply Nat.eqb_neq in H
    | H : Nat.leb _ _ = true |- _ => apply Nat.leb_le in H
    | H : Nat.leb _ _ = false |- _ => apply Nat.leb_gt in H
    | H : Nat.ltb _ _ = true |- _ => apply Nat.ltb_lt in H
    | H : Nat.ltb _ _ = false |- _ => apply Nat.ltb_ge in H
    end.

Lemma list_sum_indicator (j a n : nat) :
  list_sum (map (fun i => if Nat.eqb j i then 1%nat else 0%nat) (seq a n))
  = if ((a <=? j) && (j <? a + n))%nat then 1%nat else 0%nat.
Proof.
  revert a. induction n as [| n IH]; intro a.
  - cbn [seq map]. change (list_sum []) with 0%nat.
    destruct ((a <=? j) && (j <? a + 0))%nat eqn:E; [| reflexivity].
    nat_comparisons. lia.
  - cbn [seq map]. rewrite list_sum_cons, IH.
    destruct (Nat.eqb j a) eqn:E;
      destruct ((S a <=? j) && (j <? S a + n))%nat eqn:E1;
      destruct ((a <=? j) && (j <? a + S n))%nat eqn:E2;
      try reflexivity; exfalso; nat_comparisons; lia.
Qed.

Lemma list_sum_map_add {A : Type} (f g : A -> nat) (l : list A) :
  list_sum (map (fun i => (f i + g i)%nat) l)
  = (list_sum (map f l) + list_sum (map g l))%nat.
Proof.
  induction l as [| x xs IH]; [reflexivity |].
  cbn [map]. rewrite !list_sum_cons, IH. lia.
Qed.

Lemma list_sum_map_zero {A : Type} (l : list A) :
  list_sum (map (fun _ => 0%nat) l) = 0%nat.
Proof.
  induction l as [| x xs IH]; [reflexivity |].
  cbn [map]. now rewrite list_sum_cons, IH.
Qed.

(** Counting the values of a list by class: the classes below [n] take
    every value that has a class. *)
Lemma count_by_class {A : Type} (f : A -> option nat) (n : nat) (l : list A) :
  (forall x j, f x = Some j -> (j < n)%nat) ->
  list_sum (map (fun i =>
                   length (filter (fun x => match f x with
                                            | Some j => Nat.eqb j i
                                            | None => false
                                            end) l))
                (seq 0 n))
  = length (filter (fun x => match f x with Some _ => true | None => false end) l).
Proof.
  intro Hf. induction l as [| x xs IH].
  - cbn. apply list_sum_map_zero.
  - cbn [filter].
    rewrite (map_ext
               (fun i => length (if match f x with
                                    | Some j => Nat.eqb j i
                                    | None => false
                                    end
                                 then x :: filter (fun y => match f y with
                                                            | Some j => Nat.eqb j i
                                                            | None => false
                                                            end) xs
                                 else filter (fun y => match f y with
                                                       | Some j => Nat.eqb j i
                                                       | None => false
                                                       end) xs))
               (fun i => ((if match f x with
                              | Some j => Nat.eqb j i
                              | None => false
                              end then 1 else 0)
                          + length (filter (fun y => match f y with
                                                     | Some j => Nat.eqb j i
                                                     | None => false
                                                     end) xs))%nat)).
    2:{ intro i. destruct (f x) as [j |]; [destruct (Nat.eqb j i) |]; reflexivity. }
    rewrite list_sum_map_add, IH.
    destruct (f x) as [j |] eqn:E.
    + rewrite list_sum_indicator. specialize (Hf x j E).
      replace (0 <=? j)%nat with true by (symmetry; apply Nat.leb_le; lia).
      replace (j <? 0 + n)%nat with true by (symmetry; apply Nat.ltb_lt; lia).
      reflexivity.
    + rewrite list_sum_map_zero. reflexivity.
Qed.

Lemma filter_all {A : Type} (f : A -> bool) (l : list A) :
  Forall (fun x => f x = true) l -> filter f l = l.
Proof.
  induction 1 as [| x xs Hx Hxs IH]; [reflexivity |].
  cbn [filter]. now rewrite Hx, IH.
Qed.

(** X17.  The distribution of [analyze_score_distribution] always has the
    ten ranges, in order.  Its counts add up to the number of scores that
    lie in [0, 1000]: every such score is counted once, and a score outside
    or not a number is dropped without notice.  For the credit scores of the
    pipeline, which all lie in [0, 1000], the counts add up to the number of
    wallets. *)
Theorem score_distribution_counts (credit_scores : list fl) :
  map fst (score_distribution credit_scores)
  = [ "0-100"; "100-200"; "200-300"; "300-400"; "400-500";
      "500-600"; "600-700"; "700-800"; "800-900"; "900-1000" ]
  /\ list_sum (map snd (score_distribution credit_scores))
     = length (filter (fun s => fl_leb (Fin 0) s && fl_leb s (Fin 1000)) credit_scores)
  /\ (Forall (in_range 0 1000) credit_scores ->
      list_sum (map snd (score_distribution credit_scores)) = length credit_scores).
Proof.
  assert (Hsum : list_sum (map snd (score_distribution credit_scores))
                 = length (filter (fun s => fl_leb (Fin 0) s && fl_leb s (Fin 1000))
                                  credit_scores)).
  { unfold score_distribution. rewrite map_map. cbn [snd].
    replace (length score_labels) with 10%nat by reflexivity.
    rewrite (count_by_class (cut score_bins) 10 credit_scores).
    - f_equal. apply filter_ext. intro s.
      destruct (cut score_bins s) as [k |] eqn:E.
      + apply cut_score_bins_some in E. destruct E as [q [-> Hq]].
        apply in_score_range_bounds in Hq. destruct Hq as [_ [Hlo Hhi]].
        cbn. rewrite (proj2 (Qle_bool_iff 0 q)), (proj2 (Qle_bool_iff q 1000)) by lra.
        reflexivity.
      + destruct s as [| | q |]; try reflexivity.
        destruct (score_range_cases q) as [Hq | [Hq | [j Hj]]].
        * cbn. rewrite (proj2 (Qle_bool_gt 0 q)) by lra. reflexivity.
        * cbn. rewrite (proj2 (Qle_bool_gt q 1000)) by lra.
          symmetry. apply andb_false_r.
        * rewrite (cut_score_bins_in_range j q Hj) in E. discriminate.
    - intros s j E. apply cut_score_bins_some in E. destruct E as [q [_ Hq]].
      now apply in_score_range_bounds in Hq. }
  split; [reflexivity |]. split; [exact Hsum |].
  intro Hall. rewrite Hsum. f_equal. apply filter_all.
  eapply Forall_impl; [| exact Hall].
  intros s [Hlo Hhi]. now rewrite Hlo, Hhi.
Qed.

(* ================================================================= *)
(** ** The gas estimate of the loader *)

Lemma lower_ascii_idempotent (c : ascii) : lower_ascii (lower_ascii c) = lower_ascii c.
Proof.
  destruct c as [[] [] [] [] [] [] [] []]; reflexivity.
Qed.

Lemma lower_idempotent (s : string) : lower (lower s) = lower s.
Proof.
  induction s as [| c rest IH]; [reflexivity |].
  cbn [lower]. now rewrite lower_ascii_idempotent, IH.
Qed.

Lemma dict_get_cases (d : list (string * Z)) (key : string) (default : Z) :
  (dict_get d key default = default /\ ~ In key (map fst d))
  \/ In (key, dict_get d key default) d.
Proof.
  induction d as [| [k v] rest IH]; cbn [dict_get map fst In].
  - left. split; [reflexivity | tauto].
  - destruct (String.eqb k key) eqn:E.
    + apply String.eqb_eq in E. subst k. right. now left.
    + apply String.eqb_neq in E. destruct IH as [[Hd Hn] | Hin].
      * left. split; [exact Hd |]. intros [H | H]; [now apply E | now apply Hn].
      * right. now right.
Qed.

Lemma dict_get_absent (d : list (string * Z)) (key : string) (default : Z) :
  ~ In key (map fst d) -> dict_get d key default = default.
Proof.
  intro Hn. induction d as [| [k v] rest IH]; [reflexivity |].
  cbn [dict_get]. destruct (String.eqb k key) eqn:E.
  - apply String.eqb_eq in E. subst k. exfalso. apply Hn. now left.
  - apply IH. intro H. apply Hn. now right.
Qed.

Lemma gas_estimate_bounds (action : string) :
  (150000 <= _estimate_gas_used action <= 220000)%Z.
Proof.
  unfold _estimate_gas_used.
  destruct (dict_get_cases gas_estimates (lower action) 150000) as [[-> _] | Hin];
    [lia |].
  revert Hin. generalize (dict_get gas_estimates (lower action) 150000).
  intros g Hin. unfold gas_estimates in Hin. cbn [In] in Hin.
  repeat (destruct Hin as [Hin | Hin]; [injection Hin as _ <-; lia |]).
  contradiction.
Qed.

(** X18.  The gas estimate of the loader is one of the amounts of its table,
    between 150000 and 220000, and so never 0; it does not depend on the
    case of the letters of the action, and any action that is not in the
    table, the empty one included, gets 150000, the estimate of a deposit. *)
Theorem gas_estimate_between_150000_and_220000 (action : string) :
  (150000 <= _estimate_gas_used action <= 220000)%Z
  /\ _estimate_gas_used (lower action) = _estimate_gas_used action
  /\ (~ In (lower action) (map fst gas_estimates) ->
      _estimate_gas_used action = 150000%Z)
  /\ (In (lower action) (map fst gas_estimates) ->
      In (lower action, _estimate_gas_used action) gas_estimates).
Proof.
  split; [apply gas_estimate_bounds |]. split; [| split].
  - unfold _estimate_gas_used. now rewrite lower_idempotent.
  - intro H. unfold _estimate_gas_used. now apply dict_get_absent.
  - intro H. unfold _estimate_gas_used.
    destruct (dict_get_cases gas_estimates (lower action) 150000) as [[_ Hn] | Hin];
      [contradiction | exact Hin].
Qed.

Lemma pd_sum_between (lo hi : Q) (l : list Q) :
  Forall (fun x => lo <= x <= hi) l ->
  lo * Qlen l <= pd_sum l <= hi * Qlen l.
Proof.
  induction 1 as [| x xs Hx _ IH].
  - change (Qlen (@nil Q)) with 0. change (pd_sum []) with 0. lra.
  - rewrite pd_sum_cons, Qlen_cons. lra.
Qed.

(** X19.  On a table whose gas column holds the loader's estimate for the
    action of each row, no feature of the network group is NaN or infinite:
    the division of the amounts by the gas never has a zero divisor.  The
    total gas of [n] rows is between 150000 n and 220000 n, so that the
    defaults the extractor keeps for a zero total (0 and 0.5) are not
    used. *)
Theorem network_features_finite_with_estimated_gas (sqrtQ : Q -> Q)
    (df : list transaction) :
  df <> [] ->
  (forall t, In t df -> gas_used t == inject_Z (_estimate_gas_used (action t))) ->
  Forall (fun kv => is_finite (snd kv) = true) (_extract_network_features sqrtQ df)
  /\ 150000 * Qlen df <= pd_sum (map gas_used df) <= 220000 * Qlen df
  /\ Qltb 0 (pd_sum (map gas_used df)) = true
  /\ Qeq_bool (pd_sum (map gas_used df)) 0 = false.
Proof.
  intros Hne Hgas.
  assert (Hb : forall t, In t df -> 150000 <= gas_used t <= 220000).
  { intros t Ht. rewrite (Hgas t Ht).
    pose proof (gas_estimate_bounds (action t)) as [Hlo Hhi].
    rewrite Zle_Qle in Hlo, Hhi. split; [exact Hlo | exact Hhi]. }
  assert (Hsum : 150000 * Qlen df <= pd_sum (map gas_used df) <= 220000 * Qlen df).
  { assert (Hl : Qlen df = Qlen (map gas_used df))
      by (unfold Qlen; now rewrite length_map).
    rewrite Hl. apply pd_sum_between, Forall_map, Forall_forall. exact Hb. }
  pose proof (Qlen_pos df Hne) as Hn.
  split; [| split; [exact Hsum | split]].
  - assert (Hnz : forall t, In t df -> ~ gas_used t == 0).
    { intros t Ht H0. specialize (Hb t Ht). lra. }
    pose proof (_extract_network_features_fields sqrtQ df Hne Hnz) as Hf.
    unfold _extract_network_features in *.
    repeat match goal with
           | H : Forall _ (_ :: _) |- _ =>
               let Hx := fresh "Hx" in
               inversion H as [| ? ? Hx ?]; subst; clear H;
               unfold finite_or_sample_statistic in Hx; cbn [fst snd In] in Hx
           end.
    repeat constructor; cbn [snd];
      match goal with
      | H : is_finite ?v = true \/ _ |- is_finite ?v = true =>
          destruct H as [H | [_ H]]; [exact H |];
          repeat (destruct H as [H | H]; [discriminate |]); contradiction
      end.
  - qgoal. lra.
  - apply Qeq_bool_false. lra.
Qed.

Lemma network_features_finite_with_estimated_gas_witness :
  Forall (fun kv => is_finite (snd kv) = true)
         (_extract_network_features sqrt_approx single_deposit)
  /\ 150000 * Qlen single_deposit
     <= pd_sum (map gas_used single_deposit) <= 220000 * Qlen single_deposit
  /\ Qltb 0 (pd_sum (map gas_used single_deposit)) = true
  /\ Qeq_bool (pd_sum (map gas_used single_deposit)) 0 = false.
Proof.
  apply (network_features_finite_with_estimated_gas sqrt_approx single_deposit).
  - discriminate.
  - intros t [<- | []]. reflexivity.
Defined.

(* ================================================================= *)
(** ** The low and the high scores of the analysis *)

Lemma length_filter_exclusive {A : Type} (p q : A -> bool) (l : list A) :
  (forall x, p x = true -> q x = true -> False) ->
  (length (filter p l) + length (filter q l) <= length l)%nat.
Proof.
  intro H. induction l as [| x xs IH]; [cbn; lia |].
  cbn [filter length].
  destruct (p x) eqn:Ep, (q x) eqn:Eq; cbn [length]; try lia.
  exfalso. now apply (H x).
Qed.

Lemma low_high_exclusive (lo hi : Q) (s : fl) :
  lo <= hi -> fl_ltb s (Fin lo) = true -> fl_geb s (Fin hi) = true -> False.
Proof.
  intros Hle Hlow Hhigh. unfold fl_geb in Hhigh.
  destruct s as [| | q |]; cbn in Hlow, Hhigh; try discriminate.
  qhyps. lra.
Qed.

Lemma share_bounds (a n : Q) :
  0 < a -> a <= n -> 0 < a / n * 100 <= 100.
Proof.
  intros Ha Hn. assert (Hpos : 0 < n) by lra.
  assert (H1 : a / n <= 1) by (apply Qle_shift_div_r; lra).
  assert (H0 : 0 < a / n) by (apply Qlt_shift_div_l; lra).
  lra.
Qed.

Lemma nonempty_selection {A : Type} (l : list A) :
  (length l =? 0)%nat = false -> 0 < Qlen l.
Proof.
  intro H. apply Qlen_pos. intros ->. discriminate.
Qed.

(** X20.  With a threshold for the low scores that is not above the one for
    the high scores (400 and 700 by default), no wallet is both among the
    low and among the high scores, and a wallet whose score is not a number
    is in neither group.  Each analysis is returned exactly when its group
    is not empty; its percentage is then above 0 and at most 100, and the
    two groups together have no more wallets than the file of scores. *)
Theorem low_and_high_scores_disjoint (df : list csv_row) (lo hi : Q) :
  lo <= hi ->
  (forall r, fl_ltb (csv_credit_score r) (Fin lo) = true ->
             fl_geb (csv_credit_score r) (Fin hi) = true -> False)
  /\ (forall r, csv_credit_score r = NaN ->
                fl_ltb (csv_credit_score r) (Fin lo) = false
                /\ fl_geb (csv_credit_score r) (Fin hi) = false)
  /\ (analyze_low_score_behavior df lo = None
      <-> forall r, In r df -> fl_ltb (csv_credit_score r) (Fin lo) = false)
  /\ (analyze_high_score_behavior df hi = None
      <-> forall r, In r df -> fl_geb (csv_credit_score r) (Fin hi) = false)
  /\ (forall b, analyze_low_score_behavior df lo = Some b ->
                (1 <= count b <= length df)%nat /\ 0 < percentage b <= 100)
  /\ (forall b, analyze_high_score_behavior df hi = Some b ->
                (1 <= count b <= length df)%nat /\ 0 < percentage b <= 100)
  /\ (forall b b', analyze_low_score_behavior df lo = Some b ->
                   analyze_high_score_behavior df hi = Some b' ->
                   (count b + count b' <= length df)%nat).
Proof.
  intro Hle.
  assert (Hex : forall r, fl_ltb (csv_credit_score r) (Fin lo) = true ->
                          fl_geb (csv_credit_score r) (Fin hi) = true -> False)
    by (intro r; now apply low_high_exclusive).
  assert (Hnone : forall p : csv_row -> bool,
             (length (filter p df) =? 0)%nat = true
             <-> forall r, In r df -> p r = false).
  { intro p. rewrite length_zero_nil. split.
    - intros Hnil r Hr. destruct (p r) eqn:E; [| reflexivity].
      assert (Hin : In r (filter p df)) by (apply filter_In; now split).
      rewrite Hnil in Hin. contradiction.
    - intro Hall. destruct (filter p df) as [| r rs] eqn:E; [reflexivity |].
      assert (Hin : In r (filter p df)) by (rewrite E; now left).
      apply filter_In in Hin. destruct Hin as [Hin Hp].
      rewrite (Hall r Hin) in Hp. discriminate. }
  assert (Hone : forall (p : csv_row -> bool) fs b,
             (if (length (filter p df) =? 0)%nat then None
              else Some (describe (filter p df) df fs)) = Some b ->
             count b = length (filter p df)
             /\ percentage b = Qlen (filter p df) / Qlen df * 100
             /\ (1 <= count b <= length df)%nat
             /\ 0 < percentage b <= 100).
  { intros p fs b H.
    destruct (length (filter p df) =? 0)%nat eqn:E; [discriminate |].
    injection H as <-. cbn [count percentage describe].
    split; [reflexivity |]. split; [reflexivity |].
    pose proof (length_filter_le p df) as Hl.
    split.
    - apply Nat.eqb_neq in E. lia.
    - apply share_bounds; [now apply nonempty_selection | now apply Qlen_le]. }
  split; [exact Hex |]. split.
  { intros r ->. split; reflexivity. }
  split.
  { unfold analyze_low_score_behavior. rewrite <- Hnone.
    destruct (length _ =? 0)%nat; split; intro H; try reflexivity; discriminate. }
  split.
  { unfold analyze_high_score_behavior. rewrite <- Hnone.
    destruct (length _ =? 0)%nat; split; intro H; try reflexivity; discriminate. }
  split.
  { intros b H. unfold analyze_low_score_behavior in H.
    apply Hone in H. tauto. }
  split.
  { intros b H. unfold analyze_high_score_behavior in H.
    apply Hone in H. tauto. }
  intros b b' H H'.
  unfold analyze_low_score_behavior in H. unfold analyze_high_score_behavior in H'.
  apply Hone in H. apply Hone in H'.
  destruct H as [Hc _]. destruct H' as [Hc' _].
  rewrite Hc, Hc'.
  exact (length_filter_exclusive
           (fun r => fl_ltb (csv_credit_score r) (Fin lo))
           (fun r => fl_geb (csv_credit_score r) (Fin hi)) df Hex).
Qed.

Lemma low_and_high_scores_disjoint_witness :
  exists b b',
    analyze_low_score_behavior sample_lines 400 = Some b
    /\ analyze_high_score_behavior sample_lines 700 = Some b'
    /\ count b = 1%nat /\ count b' = 1%nat
    /\ (count b + count b' <= 3)%nat
    /\ 0 < percentage b <= 100
    /\ 0 < percentage b' <= 100.
Proof.
  destruct (low_and_high_scores_disjoint sample_lines 400 700)
    as [_ [_ [_ [_ [Hlow [Hhigh Hboth]]]]]]; [discriminate |].
  destruct (analyze_low_score_behavior sample_lines 400) as [b |] eqn:Eb;
    [| discriminate Eb].
  destruct (analyze_high_score_behavior sample_lines 700) as [b' |] eqn:Eb';
    [| discriminate Eb'].
  exists b, b'. split; [reflexivity |]. split; [reflexivity |].
  split; [injection Eb as <-; reflexivity |].
  split; [injection Eb' as <-; reflexivity |].
  split; [exact (Hboth b b' eq_refl eq_refl) |].
  split; [exact (proj2 (Hlow b eq_refl)) | exact (proj2 (Hhigh b' eq_refl))].
Defined.
